(** * A skip list over an object store: model of [skip_list.py] and its properties

    The Python module keeps [SkipNode] objects linked by per-level forward
    references and mutates them in place.  The model keeps every node in an
    object store (a list indexed by addresses), so that aliasing between the
    update vector, the header and the nodes is the one of the source.
    Raised exceptions and divergence of the [while] loops are explicit
    outcomes. *)

From Stdlib Require Import ZArith QArith Lia String.
From stdpp Require Import base list list_numbers sorting.

Local Open Scope Z_scope.

(** ** Outcomes of a call *)

Inductive exn := IndexError | TypeError | AttributeError | BadReference.

Inductive res (A : Type) : Type :=
| Ret (a : A)
| Raise (e : exn)
| OutOfFuel.
Arguments Ret {A} a.
Arguments Raise {A} e.
Arguments OutOfFuel {A}.

Definition bind {A B} (m : res A) (k : A → res B) : res B :=
  match m with
  | Ret a => k a
  | Raise e => Raise e
  | OutOfFuel => OutOfFuel
  end.

Notation "'let*' x ':=' m 'in' k" := (bind m (fun x => k))
  (at level 10, x name, m at level 100, k at level 200).
Notation "'let*' ' pat ':=' m 'in' k" := (bind m (fun x => match x with pat => k end))
  (at level 10, pat pattern, m at level 100, k at level 200).

(** ** Python values, lists and ranges *)

Inductive pyval := PyNone | PyInt (z : Z) | PyStr (s : string).

Definition is_none (v : pyval) : bool :=
  match v with PyNone => true | _ => false end.

(** Position named by a Python index in a list of length [len]: negative
    indices count from the end, anything else out of range is an error. *)
Definition py_index (len : nat) (i : Z) : option nat :=
  if (0 <=? i) && (i <? Z.of_nat len) then Some (Z.to_nat i)
  else if (i <? 0) && (- Z.of_nat len <=? i) then Some (Z.to_nat (Z.of_nat len + i))
  else None.

(** [l[i]] *)
Definition py_get {A} (l : list A) (i : Z) : res A :=
  match py_index (length l) i with
  | Some n => match l !! n with Some x => Ret x | None => Raise IndexError end
  | None => Raise IndexError
  end.

(** [l[i] = x] *)
Definition py_set {A} (l : list A) (i : Z) (x : A) : res (list A) :=
  match py_index (length l) i with
  | Some n => Ret (<[n := x]> l)
  | None => Raise IndexError
  end.

(** [[x] * n] *)
Definition py_repeat {A} (x : A) (n : Z) : list A := replicate (Z.to_nat n) x.

(** [range(start, stop)] *)
Definition py_range (start stop : Z) : list Z := seqZ start (stop - start).

(** [range(start, stop, -1)] *)
Definition py_range_down (start stop : Z) : list Z :=
  reverse (seqZ (stop + 1) (start - stop)).

(** ** Objects *)

Definition addr := nat.

(** [class SkipNode]: the header is the only node whose key is [None]. *)
Record SkipNode := mkNode {
  key : option Z;
  value : pyval;
  forward : list (option addr)
}.

(** [SkipNode.__init__] *)
Definition SkipNode_init (k : option Z) (v : pyval) (lvl : Z) : SkipNode :=
  {| key := k; value := v; forward := py_repeat None (lvl + 1) |}.

(** [class SkipList] together with the store holding the nodes it refers to. *)
Record SkipList := mkSkipList {
  max_level : Z;
  p : Q;
  header : addr;
  level : Z;
  heap : list SkipNode
}.

(** The random source: the sequence of values [random.random()] returns,
    and how many of them were consumed. *)
Record Random := mkRandom {
  draws : nat → Q;
  pos : nat
}.

Definition random (g : Random) : Q * Random :=
  (draws g (pos g), {| draws := draws g; pos := S (pos g) |}).

Definition Qlt_bool (x y : Q) : bool := negb (Qle_bool y x).

(** ** Store access *)

Definition deref (h : list SkipNode) (a : addr) : res SkipNode :=
  match h !! a with
  | Some n => Ret n
  | None => Raise BadReference
  end.

(** [a.forward[i]] *)
Definition get_forward (h : list SkipNode) (a : addr) (i : Z) : res (option addr) :=
  let* n := deref h a in py_get (forward n) i.

(** [a.forward[i] = v] *)
Definition set_forward (h : list SkipNode) (a : addr) (i : Z) (v : option addr)
  : res (list SkipNode) :=
  let* n := deref h a in
  let* fw := py_set (forward n) i v in
  Ret (<[a := {| key := key n; value := value n; forward := fw |}]> h).

(** [a.value = v] *)
Definition set_value (h : list SkipNode) (a : addr) (v : pyval) : res (list SkipNode) :=
  let* n := deref h a in
  Ret (<[a := {| key := key n; value := v; forward := forward n |}]> h).

(** [k < key] on a node key: ordering [None] against an integer raises. *)
Definition py_lt (k : option Z) (key : Z) : res bool :=
  match k with
  | Some k' => Ret (k' <? key)
  | None => Raise TypeError
  end.

(** [k == key] on a node key. *)
Definition py_eq (k : option Z) (key : Z) : bool :=
  match k with
  | Some k' => k' =? key
  | None => false
  end.

(** ** The operations of [SkipList] *)

(** [SkipList.__init__] *)
Definition SkipList_init (max_level : Z) (p : Q) : res SkipList :=
  Ret {| max_level := max_level; p := p; header := 0%nat; level := 0;
         heap := [SkipNode_init None PyNone max_level] |}.

(** The loop of [random_level]:
    [while random.random() < self.p and level < self.max_level: level += 1] *)
Fixpoint random_level_loop (fuel : nat) (sl : SkipList) (lvl : Z) (g : Random)
  : res (Z * Random) :=
  match fuel with
  | O => OutOfFuel
  | S fuel' =>
      let '(r, g') := random g in
      if Qlt_bool r (p sl) && (lvl <? max_level sl)
      then random_level_loop fuel' sl (lvl + 1) g'
      else Ret (lvl, g')
  end.

Definition random_level (fuel : nat) (sl : SkipList) (g : Random) : res (Z * Random) :=
  random_level_loop fuel sl 0 g.

(** [while current.forward[i] and current.forward[i].key < key:
       current = current.forward[i]] *)
Fixpoint advance (fuel : nat) (h : list SkipNode) (i : Z) (k : Z) (current : addr)
  : res addr :=
  match fuel with
  | O => OutOfFuel
  | S fuel' =>
      let* nxt := get_forward h current i in
      match nxt with
      | None => Ret current
      | Some n =>
          let* nd := deref h n in
          let* b := py_lt (key nd) k in
          if b then advance fuel' h i k n else Ret current
      end
  end.

(** The descent of [search]: the [for] loop over the levels. *)
Fixpoint search_descent (fuel : nat) (h : list SkipNode) (k : Z) (levels : list Z)
    (current : addr) : res addr :=
  match levels with
  | [] => Ret current
  | i :: levels' =>
      let* c := advance fuel h i k current in
      search_descent fuel h k levels' c
  end.

(** [current and current.key == key] *)
Definition hit (h : list SkipNode) (current : option addr) (k : Z) : res (option addr) :=
  match current with
  | None => Ret None
  | Some c =>
      let* nd := deref h c in
      if py_eq (key nd) k then Ret (Some c) else Ret None
  end.

Definition search (fuel : nat) (k : Z) (sl : SkipList) : res pyval :=
  let* current :=
    search_descent fuel (heap sl) k (py_range_down (level sl) (-1)) (header sl) in
  let* current := get_forward (heap sl) current 0 in
  let* found := hit (heap sl) current k in
  match found with
  | Some c => let* nd := deref (heap sl) c in Ret (value nd)
  | None => Ret PyNone
  end.

(** The descent of [insert] and [delete]: as in [search], recording the
    last node visited at each level in the update vector. *)
Fixpoint find_path (fuel : nat) (h : list SkipNode) (k : Z) (levels : list Z)
    (update : list (option addr)) (current : addr)
  : res (list (option addr) * addr) :=
  match levels with
  | [] => Ret (update, current)
  | i :: levels' =>
      let* c := advance fuel h i k current in
      let* u := py_set update i (Some c) in
      find_path fuel h k levels' u c
  end.

(** [for i in range(self.level + 1, new_level + 1): update[i] = self.header] *)
Fixpoint fill_header (hd : addr) (levels : list Z) (update : list (option addr))
  : res (list (option addr)) :=
  match levels with
  | [] => Ret update
  | i :: levels' =>
      let* u := py_set update i (Some hd) in
      fill_header hd levels' u
  end.

(** [for i in range(new_level + 1):
       new_node.forward[i] = update[i].forward[i]
       update[i].forward[i] = new_node] *)
Fixpoint splice (h : list SkipNode) (update : list (option addr)) (new_node : addr)
    (levels : list Z) : res (list SkipNode) :=
  match levels with
  | [] => Ret h
  | i :: levels' =>
      let* ui := py_get update i in
      match ui with
      | None => Raise AttributeError
      | Some u =>
          let* f := get_forward h u i in
          let* h1 := set_forward h new_node i f in
          let* h2 := set_forward h1 u i (Some new_node) in
          splice h2 update new_node levels'
      end
  end.

Definition insert (fuel : nat) (k : Z) (v : pyval) (g : Random) (sl : SkipList)
  : res (SkipList * Random) :=
  let update := py_repeat None (max_level sl + 1) in
  let* '(update, current) :=
    find_path fuel (heap sl) k (py_range_down (level sl) (-1)) update (header sl) in
  let* current := get_forward (heap sl) current 0 in
  let* found := hit (heap sl) current k in
  match found with
  | Some c =>
      let* h := set_value (heap sl) c v in
      Ret ({| max_level := max_level sl; p := p sl; header := header sl;
              level := level sl; heap := h |}, g)
  | None =>
      let* '(new_level, g') := random_level fuel sl g in
      let* '(update, lvl) :=
        if level sl <? new_level then
          let* u := fill_header (header sl) (py_range (level sl + 1) (new_level + 1)) update in
          Ret (u, new_level)
        else Ret (update, level sl) in
      let new_node := length (heap sl) in
      let h := heap sl ++ [SkipNode_init (Some k) v new_level] in
      let* h := splice h update new_node (py_range 0 (new_level + 1)) in
      Ret ({| max_level := max_level sl; p := p sl; header := header sl;
              level := lvl; heap := h |}, g')
  end.

(** [for i in range(self.level + 1):
       if update[i].forward[i] != current: break
       update[i].forward[i] = current.forward[i]]
    Nodes define no [__eq__]: [!=] compares references. *)
Fixpoint unlink (h : list SkipNode) (update : list (option addr)) (current : addr)
    (levels : list Z) : res (list SkipNode) :=
  match levels with
  | [] => Ret h
  | i :: levels' =>
      let* ui := py_get update i in
      match ui with
      | None => Raise AttributeError
      | Some u =>
          let* f := get_forward h u i in
          if bool_decide (f ≠ Some current) then Ret h
          else
            let* cf := get_forward h current i in
            let* h1 := set_forward h u i cf in
            unlink h1 update current levels'
      end
  end.

(** [while self.level > 0 and self.header.forward[self.level] is None:
       self.level -= 1] *)
Fixpoint shrink (fuel : nat) (h : list SkipNode) (hd : addr) (lvl : Z) : res Z :=
  match fuel with
  | O => OutOfFuel
  | S fuel' =>
      if 0 <? lvl then
        let* f := get_forward h hd lvl in
        match f with
        | None => shrink fuel' h hd (lvl - 1)
        | Some _ => Ret lvl
        end
      else Ret lvl
  end.

Definition delete (fuel : nat) (k : Z) (sl : SkipList) : res (bool * SkipList) :=
  let update := py_repeat None (max_level sl + 1) in
  let* '(update, current) :=
    find_path fuel (heap sl) k (py_range_down (level sl) (-1)) update (header sl) in
  let* current := get_forward (heap sl) current 0 in
  let* found := hit (heap sl) current k in
  match found with
  | Some c =>
      let* h := unlink (heap sl) update c (py_range 0 (level sl + 1)) in
      let* lvl := shrink fuel h (header sl) (level sl) in
      Ret (true, {| max_level := max_level sl; p := p sl; header := header sl;
                    level := lvl; heap := h |})
  | None => Ret (false, sl)
  end.

(** The walk shared by [get_all_items], [__len__] and [display]:
    [while node: ...; node = node.forward[i]], collecting the nodes met. *)
Fixpoint walk (fuel : nat) (h : list SkipNode) (i : Z) (node : option addr)
  : res (list SkipNode) :=
  match fuel with
  | O => OutOfFuel
  | S fuel' =>
      match node with
      | None => Ret []
      | Some a =>
          let* nd := deref h a in
          let* nxt := py_get (forward nd) i in
          let* rest := walk fuel' h i nxt in
          Ret (nd :: rest)
      end
  end.

Definition get_all_items (fuel : nat) (sl : SkipList) : res (list (option Z * pyval)) :=
  let* first := get_forward (heap sl) (header sl) 0 in
  let* nds := walk fuel (heap sl) 0 first in
  Ret ((λ nd, (key nd, value nd)) <$> nds).

(** [__len__] *)
Definition len (fuel : nat) (sl : SkipList) : res Z :=
  let* first := get_forward (heap sl) (header sl) 0 in
  let* nds := walk fuel (heap sl) 0 first in
  Ret (Z.of_nat (length nds)).

(** [__contains__]: [self.search(key) is not None] *)
Definition contains (fuel : nat) (k : Z) (sl : SkipList) : res bool :=
  let* r := search fuel k sl in Ret (negb (is_none r)).

(** The keys [display] prints for level [i]. *)
Definition level_keys (fuel : nat) (i : Z) (sl : SkipList) : res (list (option Z)) :=
  let* first := get_forward (heap sl) (header sl) i in
  let* nds := walk fuel (heap sl) i first in
  Ret (key <$> nds).

(** ** Running a sequence of operations *)

Inductive op := Insert (k : Z) (v : pyval) | Delete (k : Z).

Definition step (fuel : nat) (o : op) (st : SkipList * Random) : res (SkipList * Random) :=
  match o with
  | Insert k v => insert fuel k v (snd st) (fst st)
  | Delete k => let* '(_, sl) := delete fuel k (fst st) in Ret (sl, snd st)
  end.

Fixpoint run (fuel : nat) (ops : list op) (st : SkipList * Random) : res (SkipList * Random) :=
  match ops with
  | [] => Ret st
  | o :: ops' => let* st' := step fuel o st in run fuel ops' st'
  end.

(** ** The tower heights of [visualize_skip_list_compact]

    The function prints; what is modelled is the list [node_info] it builds
    before printing, one triple [(key, value, max_level)] per node of level
    0, and the early return on an empty list. *)

(** The innermost loop:
    [while temp:
         if temp.key == current.key: max_level = level; break
         temp = temp.forward[level]]
    The result tells whether the [break] was taken. *)
Fixpoint tower_scan (fuel : nat) (h : list SkipNode) (lvl : Z) (temp : option addr)
    (k : option Z) : res bool :=
  match fuel with
  | O => OutOfFuel
  | S fuel' =>
      match temp with
      | None => Ret false
      | Some t =>
          let* nd := deref h t in
          if bool_decide (key nd = k) then Ret true
          else
            let* nxt := py_get (forward nd) lvl in
            tower_scan fuel' h lvl nxt k
      end
  end.

(** [for level in range(sl.level + 1):
         temp = sl.header.forward[level]
         while temp: ...]
    threading [max_level]. *)
Fixpoint tower_height (fuel : nat) (h : list SkipNode) (hd : addr) (levels : list Z)
    (k : option Z) (max_lvl : Z) : res Z :=
  match levels with
  | [] => Ret max_lvl
  | lvl :: levels' =>
      let* temp := get_forward h hd lvl in
      let* found := tower_scan fuel h lvl temp k in
      tower_height fuel h hd levels' k (if found then lvl else max_lvl)
  end.

(** [while current:
         max_level = 0
         for level in range(sl.level + 1): ...
         node_info.append((current.key, current.value, max_level))
         current = current.forward[0]]
    [fuel] bounds this loop, [inner] each loop inside it. *)
Fixpoint tower_info (fuel inner : nat) (sl : SkipList) (current : option addr)
  : res (list (option Z * pyval * Z)) :=
  match fuel with
  | O => OutOfFuel
  | S fuel' =>
      match current with
      | None => Ret []
      | Some c =>
          let* nd := deref (heap sl) c in
          let* ml :=
            tower_height inner (heap sl) (header sl) (py_range 0 (level sl + 1)) (key nd) 0 in
          let* nxt := py_get (forward nd) 0 in
          let* rest := tower_info fuel' inner sl nxt in
          Ret ((key nd, value nd, ml) :: rest)
      end
  end.

(** [node_info] of [visualize_skip_list_compact]; [None] when the function
    prints the empty-list notice and returns. *)
Definition compact_node_info (fuel : nat) (sl : SkipList)
  : res (option (list (option Z * pyval * Z))) :=
  let* first := get_forward (heap sl) (header sl) 0 in
  match first with
  | None => Ret None
  | Some _ => let* info := tower_info fuel fuel sl first in Ret (Some info)
  end.

(** ** The node positions of [visualize_skip_list_detailed]

    The function prints; what is modelled is, for every level it draws, the
    list [node_positions] it builds before drawing the line, and the early
    returns on an empty list. *)

(** [for i, node in enumerate(nodes):
         if node.key == current.key:
             node_positions.append((i, current))
             break]
    The result is the index appended, if any; [i] is the index of the first
    node of [nodes]. *)
Fixpoint base_position (nodes : list SkipNode) (i : Z) (k : option Z) : option Z :=
  match nodes with
  | [] => None
  | nd :: rest =>
      if bool_decide (key nd = k) then Some i else base_position rest (i + 1) k
  end.

(** [while current:
         for i, node in enumerate(nodes): ...
         current = current.forward[level]] *)
Fixpoint level_positions (fuel : nat) (h : list SkipNode) (nodes : list SkipNode)
    (lvl : Z) (current : option addr) : res (list (Z * SkipNode)) :=
  match fuel with
  | O => OutOfFuel
  | S fuel' =>
      match current with
      | None => Ret []
      | Some c =>
          let* nd := deref h c in
          let found :=
            match base_position nodes 0 (key nd) with
            | Some i => [(i, nd)]
            | None => []
            end in
          let* nxt := py_get (forward nd) lvl in
          let* rest := level_positions fuel' h nodes lvl nxt in
          Ret (found ++ rest)
      end
  end.

(** [for level in range(sl.level, -1, -1):
         current = sl.header.forward[level]
         node_positions = []
         while current: ...] *)
Fixpoint detailed_rows (fuel : nat) (h : list SkipNode) (hd : addr)
    (nodes : list SkipNode) (levels : list Z) : res (list (Z * list (Z * SkipNode))) :=
  match levels with
  | [] => Ret []
  | lvl :: levels' =>
      let* current := get_forward h hd lvl in
      let* row := level_positions fuel h nodes lvl current in
      let* rows := detailed_rows fuel h hd nodes levels' in
      Ret ((lvl, row) :: rows)
  end.

(** The rows of [visualize_skip_list_detailed], each a level with its
    [node_positions]; [None] when the function prints the empty-list notice
    and returns. *)
Definition detailed_node_positions (fuel : nat) (sl : SkipList)
  : res (option (list (Z * list (Z * SkipNode)))) :=
  if level sl =? -1 then Ret None
  else
    let* first := get_forward (heap sl) (header sl) 0 in
    match first with
    | None => Ret None
    | Some _ =>
        let* nodes := walk fuel (heap sl) 0 first in
        match nodes with
        | [] => Ret None
        | _ :: _ =>
            let* rows :=
              detailed_rows fuel (heap sl) (header sl) nodes
                (py_range_down (level sl) (-1)) in
            Ret (Some rows)
        end
    end.

(** * The representation of a skip list in the store *)

(** [slot h a i] is the content of [a.forward[i]], when node and slot exist. *)
Definition slot (h : list SkipNode) (a : addr) (i : nat) : option (option addr) :=
  match h !! a with
  | Some nd => forward nd !! i
  | None => None
  end.

(** Key, value and number of forward slots of the node at [a]. *)
Definition info (h : list SkipNode) (a : addr) : option (option Z * pyval * nat) :=
  match h !! a with
  | Some nd => Some (key nd, value nd, length (forward nd))
  | None => None
  end.

(** The entries of the list, in key order: where the node lives, its key,
    its value and its level (it has [eht + 1] forward slots). *)
Record entry := mkEntry {
  eaddr : addr;
  ekey : Z;
  evalue : pyval;
  eht : nat
}.

Definition node_ok (h : list SkipNode) (e : entry) : Prop :=
  info h (eaddr e) = Some (Some (ekey e), evalue e, S (eht e)).

Definition at_level (i : nat) (es : list entry) : list entry :=
  filter (λ e, (i ≤ eht e)%nat) es.

Definition addrs_at (i : nat) (es : list entry) : list addr :=
  eaddr <$> at_level i es.

Definition hd_or (fin : option addr) (l : list addr) : option addr :=
  match l with
  | [] => fin
  | a :: _ => Some a
  end.

Definition last_or (cur : addr) (l : list addr) : addr := default cur (last l).

(** From [cur], the level-[i] links visit exactly [l] and then reach [fin]. *)
Fixpoint path (h : list SkipNode) (i : nat) (cur : addr) (l : list addr)
    (fin : option addr) : Prop :=
  match l with
  | [] => slot h cur i = Some fin
  | a :: l' => slot h cur i = Some (Some a) ∧ path h i a l' fin
  end.

Definition path_from (h : list SkipNode) (i : nat) (l : list addr)
    (fin : option addr) : Prop :=
  match l with
  | [] => True
  | a :: l' => path h i a l' fin
  end.

(** The walk of [advance] stops in front of [f]: the end of the chain or a
    node whose key is not below [k]. *)
Definition stops (h : list SkipNode) (k : Z) (f : option addr) : Prop :=
  match f with
  | None => True
  | Some n => ∃ k' v m, info h n = Some (Some k', v, m) ∧ k ≤ k'
  end.

(** Last node before the key and first node not before it on level [i],
    for the entries [lo] below the key and [hi] from the key on. *)
Definition pred_at (hdr : addr) (lo : list entry) (i : nat) : addr :=
  last_or hdr (addrs_at i lo).

Definition succ_at (hi : list entry) (i : nat) : option addr :=
  hd_or None (addrs_at i hi).

(** Nodes a level may be entered from: the header or a node below the key
    that reaches this level. *)
Definition entry_point (hdr : addr) (lo : list entry) (i : nat) (cur : addr) : Prop :=
  cur = hdr ∨ ∃ e, e ∈ lo ∧ (i ≤ eht e)%nat ∧ cur = eaddr e.

Definition sorted (es : list entry) : Prop :=
  StronglySorted (λ e1 e2, ekey e1 < ekey e2) es.

(** [Rep sl es]: the store of [sl] holds the skip list whose entries, in key
    order, are [es]. *)
Record Rep (sl : SkipList) (es : list entry) : Prop := mkRep {
  rep_level : 0 ≤ level sl ≤ max_level sl;
  rep_header :
    info (heap sl) (header sl) = Some (None, PyNone, Z.to_nat (max_level sl + 1));
  rep_nodes : Forall (node_ok (heap sl)) es;
  rep_sorted : sorted es;
  rep_ht : Forall (λ e, Z.of_nat (eht e) ≤ level sl) es;
  rep_top : level sl = 0 ∨ Exists (λ e, Z.of_nat (eht e) = level sl) es;
  rep_links : ∀ i, Z.of_nat i ≤ max_level sl →
              path (heap sl) i (header sl) (addrs_at i es) None;
  rep_size : (length es < length (heap sl))%nat
}.

(** Fuel that lets every loop of one call on [sl] run to its end. *)
Definition fuel_ok (fuel : nat) (sl : SkipList) : Prop :=
  (length (heap sl) + Z.to_nat (max_level sl) + 1 ≤ fuel)%nat.

(** The value the list associates with [k]. *)
Definition assoc (k : Z) (es : list entry) : option pyval :=
  evalue <$> head (filter (λ e, ekey e = k) es).

Definition set_evalue (v : pyval) (e : entry) : entry :=
  {| eaddr := eaddr e; ekey := ekey e; evalue := v; eht := eht e |}.

Definition with_heap (sl : SkipList) (h : list SkipNode) : SkipList :=
  {| max_level := max_level sl; p := p sl; header := header sl;
     level := level sl; heap := h |}.

(** What a key is bound to after one operation, given what it was bound to. *)
Definition apply_op (o : op) (k : Z) (cur : option pyval) : option pyval :=
  match o with
  | Insert k' v => if decide (k' = k) then Some v else cur
  | Delete k' => if decide (k' = k) then None else cur
  end.

(** The value the most recent insert of [k] stored, unless [k] was deleted
    since. *)
Definition stored (ops : list op) (k : Z) : option pyval :=
  fold_left (λ cur o, apply_op o k cur) ops None.

(** A fresh container on which [ops] are run. *)
Definition build (fuel : nat) (ml : Z) (pr : Q) (g : Random) (ops : list op)
  : res (SkipList * Random) :=
  let* sl := SkipList_init ml pr in run fuel ops (sl, g).

(** Fuel that lets every call of [ops] on a fresh container, and one more
    call after them, run to its end. *)
Definition enough (fuel : nat) (ml : Z) (ops : list op) : Prop :=
  (length ops + Z.to_nat ml + 2 ≤ fuel)%nat.

(** A fixed source of draws for the examples: three draws below one half,
    three above, and so on. *)
Definition coin : Random :=
  {| draws := λ n, if Nat.even (n / 3) then (1 # 4)%Q else (3 # 4)%Q; pos := 0 |}.

(** Number of entries of [es] whose key is below the key of [e]: the index
    of [e] in a sorted list that holds it. *)
Definition base_index (es : list entry) (e : entry) : nat :=
  length (filter (λ e', ekey e' < ekey e) es).

(** What one entry of [node_positions] says about the entry of the list it
    was computed for. *)
Definition placed (es : list entry) (r : Z * SkipNode) (e : entry) : Prop :=
  r.1 = Z.of_nat (base_index es e) ∧ key r.2 = Some (ekey e) ∧ value r.2 = evalue e.

(** * Properties *)

(** ** Python indexing at a position known to be in range *)

Lemma py_index_nat (len i : nat) : (i < len)%nat → py_index len (Z.of_nat i) = Some i.
Proof.
  intros Hi. unfold py_index.
  assert (H1 : (0 <=? Z.of_nat i) = true) by (apply Z.leb_le; lia).
  assert (H2 : (Z.of_nat i <? Z.of_nat len) = true) by (apply Z.ltb_lt; lia).
  rewrite H1, H2. simpl. by rewrite Nat2Z.id.
Qed.

Lemma py_index_ge (len : nat) (i : Z) : Z.of_nat len ≤ i → py_index len i = None.
Proof.
  intros Hi. unfold py_index.
  assert (H1 : (i <? Z.of_nat len) = false) by (apply Z.ltb_ge; lia).
  assert (H2 : (i <? 0) = false) by (apply Z.ltb_ge; lia).
  rewrite H1, H2. by rewrite andb_false_r.
Qed.

Lemma py_get_nat {A} (l : list A) (i : nat) (x : A) :
  l !! i = Some x → py_get l (Z.of_nat i) = Ret x.
Proof.
  intros Hl. unfold py_get.
  rewrite py_index_nat by (by eapply lookup_lt_Some). by rewrite Hl.
Qed.

Lemma py_set_nat {A} (l : list A) (i : nat) (x : A) :
  (i < length l)%nat → py_set l (Z.of_nat i) x = Ret (<[i := x]> l).
Proof. intros Hi. unfold py_set. by rewrite py_index_nat. Qed.

Lemma py_range_nat (n : nat) : py_range 0 (Z.of_nat n) = Z.of_nat <$> seq 0 n.
Proof.
  unfold py_range, seqZ. rewrite Z.sub_0_r, Nat2Z.id.
  apply list_fmap_ext. intros _ j _. lia.
Qed.

Lemma py_range_from (s n : nat) :
  py_range (Z.of_nat s) (Z.of_nat (s + n)) = Z.of_nat <$> seq s n.
Proof.
  unfold py_range.
  replace (Z.of_nat (s + n) - Z.of_nat s) with (Z.of_nat n) by lia.
  revert s. induction n as [|n IH]; intros s; [done|].
  rewrite seqZ_cons by lia. simpl. f_equal.
  replace (Z.pred (Z.of_nat (S n))) with (Z.of_nat n) by lia.
  replace (Z.succ (Z.of_nat s)) with (Z.of_nat (S s)) by lia. apply IH.
Qed.

Lemma py_range_down_0 : py_range_down 0 (-1) = [0].
Proof. reflexivity. Qed.

Lemma py_range_down_S (n : nat) :
  py_range_down (Z.of_nat (S n)) (-1) = Z.of_nat (S n) :: py_range_down (Z.of_nat n) (-1).
Proof.
  unfold py_range_down.
  replace (Z.of_nat (S n) - -1) with (Z.of_nat (S (S n))) by lia.
  replace (Z.of_nat n - -1) with (Z.of_nat (S n)) by lia.
  rewrite seqZ_S, reverse_snoc. f_equal; lia.
Qed.

(** ** The store seen through forward slots and node descriptions *)

Lemma slot_lt h a i f : slot h a i = Some f → (a < length h)%nat.
Proof.
  unfold slot. destruct (h !! a) eqn:E; [|done]. intros _. by eapply lookup_lt_Some.
Qed.

Lemma info_lt h a x : info h a = Some x → (a < length h)%nat.
Proof.
  unfold info. destruct (h !! a) eqn:E; [|done]. intros _. by eapply lookup_lt_Some.
Qed.

Lemma info_slot h a k v n i :
  info h a = Some (k, v, n) → (i < n)%nat → is_Some (slot h a i).
Proof.
  unfold info, slot. destruct (h !! a) as [nd|]; [|done].
  intros [= _ _ <-] Hi. by apply lookup_lt_is_Some.
Qed.

Lemma info_slot_None h a k v n i :
  info h a = Some (k, v, n) → (n ≤ i)%nat → slot h a i = None.
Proof.
  unfold info, slot. destruct (h !! a) as [nd|]; [|done].
  intros [= _ _ <-] Hi. by apply lookup_ge_None.
Qed.

Lemma get_forward_slot h a i f :
  slot h a i = Some f → get_forward h a (Z.of_nat i) = Ret f.
Proof.
  unfold slot, get_forward, deref. destruct (h !! a) as [nd|]; [|done].
  simpl. apply py_get_nat.
Qed.

Lemma deref_info h a k v n :
  info h a = Some (k, v, n) →
  ∃ nd, deref h a = Ret nd ∧ h !! a = Some nd ∧ key nd = k ∧ value nd = v.
Proof.
  unfold info, deref. destruct (h !! a) as [nd|]; [|done].
  intros [= <- <- <-]. by exists nd.
Qed.

Lemma set_forward_spec h a i v :
  is_Some (slot h a i) →
  ∃ h', set_forward h a (Z.of_nat i) v = Ret h' ∧
        length h' = length h ∧
        (∀ b, info h' b = info h b) ∧
        (∀ b j, slot h' b j = if decide (b = a ∧ j = i) then Some v else slot h b j).
Proof.
  intros [f Hf]. pose proof (slot_lt _ _ _ _ Hf) as Ha.
  unfold slot in Hf. unfold set_forward, deref.
  destruct (h !! a) as [nd|] eqn:E; [|done]. simpl.
  assert (Hi : (i < length (forward nd))%nat) by (by eapply lookup_lt_Some).
  rewrite py_set_nat by done. simpl. eexists. split; [done|].
  split; [by rewrite length_insert|]. split.
  - intros b. unfold info. destruct (decide (b = a)) as [->|Hne].
    + rewrite list_lookup_insert_eq by done. rewrite E. simpl.
      by rewrite length_insert.
    + by rewrite list_lookup_insert_ne.
  - intros b j. unfold slot. destruct (decide (b = a)) as [->|Hne].
    + rewrite list_lookup_insert_eq by done. rewrite E. simpl.
      destruct (decide (j = i)) as [->|Hj].
      * rewrite decide_True by done. by rewrite list_lookup_insert_eq.
      * rewrite decide_False by (intros [_ ?]; done). by rewrite list_lookup_insert_ne.
    + rewrite decide_False by (intros [? _]; done). by rewrite list_lookup_insert_ne.
Qed.

Lemma set_value_spec h a k v0 n v :
  info h a = Some (k, v0, n) →
  ∃ nd, h !! a = Some nd ∧
        set_value h a v = Ret (<[a := {| key := key nd; value := v; forward := forward nd |}]> h) ∧
        (∀ b j, slot (<[a := {| key := key nd; value := v; forward := forward nd |}]> h) b j
                = slot h b j) ∧
        (∀ b, info (<[a := {| key := key nd; value := v; forward := forward nd |}]> h) b
              = if decide (b = a) then Some (k, v, n) else info h b).
Proof.
  intros Hi. pose proof (info_lt _ _ _ Hi) as Ha.
  unfold info in Hi. unfold set_value, deref.
  destruct (h !! a) as [nd|] eqn:E; [|done]. injection Hi as <- <- <-.
  exists nd. split; [done|]. split; [done|]. split.
  - intros b j. unfold slot. destruct (decide (b = a)) as [->|Hne].
    + rewrite list_lookup_insert_eq by done. by rewrite E.
    + by rewrite list_lookup_insert_ne.
  - intros b. unfold info. destruct (decide (b = a)) as [->|Hne].
    + by rewrite list_lookup_insert_eq.
    + by rewrite list_lookup_insert_ne.
Qed.

Lemma slot_snoc h nd b j :
  slot (h ++ [nd]) b j =
  if decide (b = length h) then forward nd !! j else slot h b j.
Proof.
  unfold slot. destruct (decide (b = length h)) as [->|Hne].
  - rewrite lookup_app_r by lia. by rewrite Nat.sub_diag.
  - destruct (decide (b < length h)%nat).
    + by rewrite lookup_app_l.
    + rewrite !lookup_ge_None_2; [done|lia|rewrite length_app; simpl; lia].
Qed.

Lemma info_snoc h nd b :
  info (h ++ [nd]) b =
  if decide (b = length h) then Some (key nd, value nd, length (forward nd)) else info h b.
Proof.
  unfold info. destruct (decide (b = length h)) as [->|Hne].
  - rewrite lookup_app_r by lia. by rewrite Nat.sub_diag.
  - destruct (decide (b < length h)%nat).
    + by rewrite lookup_app_l.
    + rewrite !lookup_ge_None_2; [done|lia|rewrite length_app; simpl; lia].
Qed.

(** ** Chains of forward links *)

Lemma at_level_app i es1 es2 : at_level i (es1 ++ es2) = at_level i es1 ++ at_level i es2.
Proof. apply filter_app. Qed.

Lemma addrs_at_app i es1 es2 : addrs_at i (es1 ++ es2) = addrs_at i es1 ++ addrs_at i es2.
Proof. unfold addrs_at. by rewrite at_level_app, fmap_app. Qed.

Lemma addrs_at_cons i e es :
  addrs_at i (e :: es) =
  if decide (i ≤ eht e)%nat then eaddr e :: addrs_at i es else addrs_at i es.
Proof.
  unfold addrs_at, at_level. rewrite filter_cons. by destruct (decide (i ≤ eht e)%nat).
Qed.

Lemma at_level_0 es : at_level 0 es = es.
Proof.
  unfold at_level. induction es as [|e es IH]; [done|].
  rewrite filter_cons_True by lia. by rewrite IH.
Qed.

Lemma addrs_at_0 es : addrs_at 0 es = eaddr <$> es.
Proof. unfold addrs_at. by rewrite at_level_0. Qed.

Lemma elem_of_addrs_at a i es :
  a ∈ addrs_at i es ↔ ∃ e, e ∈ es ∧ (i ≤ eht e)%nat ∧ eaddr e = a.
Proof.
  unfold addrs_at, at_level. rewrite list_elem_of_fmap. split.
  - intros (e & -> & He). apply list_elem_of_filter in He as [? ?]. by exists e.
  - intros (e & He & Hi & <-). exists e. split; [done|]. by apply list_elem_of_filter.
Qed.

Lemma addrs_at_nil_ht i es :
  Forall (λ e, (eht e < i)%nat) es → addrs_at i es = [].
Proof.
  induction 1 as [|e es He _ IH]; [done|].
  rewrite addrs_at_cons, decide_False by lia. done.
Qed.

Lemma last_or_nil cur : last_or cur [] = cur.
Proof. done. Qed.

Lemma last_or_cons cur a l : last_or cur (a :: l) = last_or a l.
Proof.
  unfold last_or. rewrite last_cons. by destruct (last l).
Qed.

Lemma last_or_app cur l1 l2 : last_or cur (l1 ++ l2) = last_or (last_or cur l1) l2.
Proof.
  revert cur. induction l1 as [|a l1 IH]; intros cur; [done|].
  simpl. rewrite !last_or_cons. apply IH.
Qed.

Lemma last_or_elem cur l : last_or cur l = cur ∨ last_or cur l ∈ l.
Proof.
  revert cur. induction l as [|a l IH]; intros cur; [by left|].
  right. rewrite last_or_cons. destruct (IH a) as [->| ?].
  - apply list_elem_of_here.
  - by apply list_elem_of_further.
Qed.

Lemma path_unfold h i cur l fin :
  path h i cur l fin ↔ slot h cur i = Some (hd_or fin l) ∧ path_from h i l fin.
Proof. destruct l; simpl; tauto. Qed.

Lemma path_app h i cur xs ys fin :
  path h i cur (xs ++ ys) fin ↔
  path h i cur xs (hd_or fin ys) ∧ path_from h i ys fin.
Proof.
  revert cur. induction xs as [|a xs IH]; intros cur; simpl.
  - apply path_unfold.
  - rewrite IH. tauto.
Qed.

Lemma path_last_slot h i cur xs fin :
  path h i cur xs fin → slot h (last_or cur xs) i = Some fin.
Proof.
  revert cur. induction xs as [|a xs IH]; intros cur; simpl; [done|].
  intros [_ H]. rewrite last_or_cons. by apply IH.
Qed.

Lemma path_ext h h' i cur l fin :
  (∀ a, a ∈ cur :: l → slot h' a i = slot h a i) →
  path h i cur l fin → path h' i cur l fin.
Proof.
  revert cur. induction l as [|b l IH]; intros cur Hs; simpl.
  - intros <-. apply Hs, list_elem_of_here.
  - intros [H1 H2]. split.
    + rewrite <- H1. apply Hs, list_elem_of_here.
    + apply IH; [|done]. intros a Ha. by apply Hs, list_elem_of_further.
Qed.

Lemma path_from_ext h h' i l fin :
  (∀ a, a ∈ l → slot h' a i = slot h a i) →
  path_from h i l fin → path_from h' i l fin.
Proof. destruct l as [|b l]; [done|]. simpl. apply path_ext. Qed.

(** Only the last node of a chain is given a new successor. *)
Lemma path_retarget h h' i cur xs fin fin' :
  NoDup (cur :: xs) →
  path h i cur xs fin →
  (∀ a, a ∈ cur :: xs → a ≠ last_or cur xs → slot h' a i = slot h a i) →
  slot h' (last_or cur xs) i = Some fin' →
  path h' i cur xs fin'.
Proof.
  revert cur. induction xs as [|b xs IH]; intros cur Hnd Hp Hs Hl; simpl in *; [done|].
  destruct Hp as [H1 H2]. rewrite last_or_cons in Hl.
  apply NoDup_cons in Hnd as [Hcur Hnd]. split.
  - rewrite <- H1. apply Hs; [apply list_elem_of_here|].
    rewrite last_or_cons. intros Heq. apply Hcur.
    destruct (last_or_elem b xs) as [E|E].
    + rewrite E in Heq. subst. apply list_elem_of_here.
    + rewrite <- Heq in E. by apply list_elem_of_further.
  - apply IH; [done|done| |done].
    intros a Ha Hne. apply Hs; [by apply list_elem_of_further|].
    by rewrite last_or_cons.
Qed.

(** ** The descent *)

Lemma advance_through h i k lo : ∀ cur fin fuel,
  Forall (node_ok h) lo →
  Forall (λ e, ekey e < k) lo →
  path h i cur (addrs_at i lo) fin →
  stops h k fin →
  (length lo < fuel)%nat →
  advance fuel h (Z.of_nat i) k cur = Ret (last_or cur (addrs_at i lo)).
Proof.
  induction lo as [|e lo IH]; intros cur fin fuel Hok Hlt Hp Hst Hfuel.
  - destruct fuel as [|fuel]; [simpl in Hfuel; lia|].
    simpl in *. rewrite (get_forward_slot _ _ _ _ Hp). simpl.
    destruct fin as [n|]; [|done].
    destruct Hst as (k' & v & m & Hn & Hk).
    destruct (deref_info _ _ _ _ _ Hn) as (nd & Hd & _ & Hkey & _).
    rewrite Hd. simpl. rewrite Hkey. simpl.
    assert ((k' <? k) = false) as -> by (apply Z.ltb_ge; lia). done.
  - apply Forall_cons in Hok as [He Hok]. apply Forall_cons in Hlt as [Hek Hlt].
    rewrite addrs_at_cons in *. destruct (decide (i ≤ eht e)%nat).
    + destruct fuel as [|fuel]; [simpl in Hfuel; lia|].
      destruct Hp as [Hs Hp]. rewrite last_or_cons.
      simpl. rewrite (get_forward_slot _ _ _ _ Hs). simpl.
      destruct (deref_info _ _ _ _ _ He) as (nd & Hd & _ & Hkey & _).
      rewrite Hd. simpl. rewrite Hkey. simpl.
      assert ((ekey e <? k) = true) as -> by (by apply Z.ltb_lt).
      eapply IH; eauto. simpl in Hfuel. lia.
    + eapply IH; eauto. simpl in Hfuel. lia.
Qed.

Section descent.
Context (h : list SkipNode) (hdr : addr) (k : Z) (lo hi : list entry) (top : nat).
Hypothesis Hlo_ok : Forall (node_ok h) lo.
Hypothesis Hhi_ok : Forall (node_ok h) hi.
Hypothesis Hlt : Forall (λ e, ekey e < k) lo.
Hypothesis Hge : Forall (λ e, k ≤ ekey e) hi.
Hypothesis Hlinks : ∀ i, (i ≤ top)%nat → path h i hdr (addrs_at i (lo ++ hi)) None.

Lemma stops_succ i : stops h k (succ_at hi i).
Proof using Hhi_ok Hge.
  unfold succ_at. destruct (addrs_at i hi) as [|a l] eqn:E; [done|]. simpl.
  assert (Ha : a ∈ addrs_at i hi) by (rewrite E; apply list_elem_of_here).
  apply elem_of_addrs_at in Ha as (e & He & _ & <-).
  pose proof Hhi_ok as Hok. pose proof Hge as Hk.
  rewrite Forall_forall in Hok, Hk.
  exists (ekey e), (evalue e), (S (eht e)). split; [by apply Hok | by apply Hk].
Qed.

Lemma path_lo i : (i ≤ top)%nat → path h i hdr (addrs_at i lo) (succ_at hi i).
Proof using Hlinks.
  intros Hi. pose proof (Hlinks i Hi) as Hp. rewrite addrs_at_app in Hp.
  by apply path_app in Hp as [? _].
Qed.

Lemma path_hi i : (i ≤ top)%nat → path_from h i (addrs_at i hi) None.
Proof using Hlinks.
  intros Hi. pose proof (Hlinks i Hi) as Hp. rewrite addrs_at_app in Hp.
  by apply path_app in Hp as [_ ?].
Qed.

Lemma slot_pred i : (i ≤ top)%nat → slot h (pred_at hdr lo i) i = Some (succ_at hi i).
Proof using Hlinks. intros Hi. eapply path_last_slot, path_lo, Hi. Qed.

Lemma pred_entry_point i j : (i ≤ j)%nat → entry_point hdr lo i (pred_at hdr lo j).
Proof.
  intros Hij. unfold pred_at. destruct (last_or_elem hdr (addrs_at j lo)) as [E|E].
  - by left.
  - right. apply elem_of_addrs_at in E as (e & He & Hj & E).
    exists e. split; [done|]. split; [lia|done].
Qed.

Lemma advance_level fuel i cur :
  (i ≤ top)%nat → entry_point hdr lo i cur → (length lo < fuel)%nat →
  advance fuel h (Z.of_nat i) k cur = Ret (pred_at hdr lo i).
Proof using Hlo_ok Hhi_ok Hlt Hge Hlinks.
  intros Hi [->|(e & He & Hie & ->)] Hfuel.
  - eapply advance_through; eauto using path_lo, stops_succ.
  - pose proof (path_lo i Hi) as Hp. pose proof (stops_succ i) as Hst.
    pose proof Hlo_ok as Hok. pose proof Hlt as Hl.
    apply list_elem_of_split in He as (l1 & l2 & E).
    unfold pred_at. rewrite E in Hp, Hok, Hl, Hfuel |- *.
    rewrite addrs_at_app, addrs_at_cons, decide_True in Hp |- * by done.
    apply path_app in Hp as [_ Hp]. simpl in Hp.
    rewrite last_or_app, last_or_cons.
    apply Forall_app in Hok as [_ Hok]. apply Forall_cons in Hok as [_ Hok].
    apply Forall_app in Hl as [_ Hl]. apply Forall_cons in Hl as [_ Hl].
    eapply advance_through; eauto.
    rewrite length_app in Hfuel. simpl in Hfuel. lia.
Qed.

Lemma find_path_spec fuel n : ∀ update cur,
  (n ≤ top)%nat → entry_point hdr lo n cur → (length lo < fuel)%nat →
  (n < length update)%nat →
  ∃ update',
    find_path fuel h k (py_range_down (Z.of_nat n) (-1)) update cur
      = Ret (update', pred_at hdr lo 0) ∧
    length update' = length update ∧
    ∀ j, update' !! j =
         if decide (j ≤ n)%nat then Some (Some (pred_at hdr lo j)) else update !! j.
Proof using Hlo_ok Hhi_ok Hlt Hge Hlinks.
  induction n as [|n IH]; intros update cur Hn Hcur Hfuel Hlen.
  - change (Z.of_nat 0) with 0. rewrite py_range_down_0. simpl.
    change 0 with (Z.of_nat 0). rewrite advance_level by (done || lia). simpl.
    rewrite py_set_nat by done. simpl. eexists. split; [done|].
    split; [by rewrite length_insert|]. intros j.
    destruct (decide (j ≤ 0)%nat).
    + assert (j = 0%nat) as -> by lia. by rewrite list_lookup_insert_eq.
    + rewrite list_lookup_insert_ne by lia. done.
  - rewrite py_range_down_S. simpl.
    rewrite advance_level by (done || lia). simpl.
    rewrite py_set_nat by done. simpl.
    destruct (IH (<[S n := Some (pred_at hdr lo (S n))]> update) (pred_at hdr lo (S n)))
      as (u' & -> & Hl' & Hu'); try lia.
    { apply pred_entry_point. lia. }
    { rewrite length_insert. lia. }
    exists u'. split; [done|]. split; [by rewrite Hl', length_insert|].
    intros j. rewrite Hu'. destruct (decide (j ≤ n)%nat).
    + by rewrite decide_True by lia.
    + destruct (decide (j = S n)) as [->|Hne].
      * rewrite decide_True by lia. by rewrite list_lookup_insert_eq.
      * rewrite decide_False by lia. by rewrite list_lookup_insert_ne.
Qed.

End descent.

(** What the descent finds in front of it on level 0. *)
Lemma hit_spec h k hi :
  Forall (node_ok h) hi →
  hit h (succ_at hi 0) k =
  Ret (match hi with
       | e :: _ => if decide (ekey e = k) then Some (eaddr e) else None
       | [] => None
       end).
Proof.
  intros Hok. unfold succ_at. rewrite addrs_at_0. destruct hi as [|e hi']; [done|]. simpl.
  apply Forall_cons in Hok as [He _].
  destruct (deref_info _ _ _ _ _ He) as (nd & Hd & _ & Hkey & _).
  rewrite Hd. simpl. rewrite Hkey. simpl.
  destruct (decide (ekey e = k)) as [->|Hne].
  - by rewrite Z.eqb_refl.
  - by apply Z.eqb_neq in Hne as ->.
Qed.

Lemma search_descent_find_path fuel h k levels : ∀ update cur update' c,
  find_path fuel h k levels update cur = Ret (update', c) →
  search_descent fuel h k levels cur = Ret c.
Proof.
  induction levels as [|i levels IH]; intros update cur update' c; simpl.
  - by intros [= _ ->].
  - destruct (advance fuel h i k cur) as [c1| |]; simpl; [|done|done].
    destruct (py_set update i (Some c1)) as [u1| |]; simpl; [|done|done].
    apply IH.
Qed.

(** ** The representation invariant *)

Lemma hd_or_None l : hd_or None l = head l.
Proof. by destruct l. Qed.

Lemma Forall_at_level (P : entry → Prop) i es : Forall P es → Forall P (at_level i es).
Proof.
  rewrite !Forall_forall. intros H e He. apply H.
  unfold at_level in He. by apply list_elem_of_filter in He as [_ ?].
Qed.

Lemma length_at_level i es : (length (at_level i es) ≤ length es)%nat.
Proof. apply length_filter. Qed.

Lemma node_ok_header_ne sl es e :
  Rep sl es → e ∈ es → eaddr e ≠ header sl.
Proof.
  intros HR He Heq. pose proof (rep_nodes _ _ HR) as Hok.
  rewrite Forall_forall in Hok. specialize (Hok e He). unfold node_ok in Hok.
  rewrite Heq, (rep_header _ _ HR) in Hok. done.
Qed.

Lemma sorted_NoDup_addr h es :
  Forall (node_ok h) es → sorted es → NoDup (eaddr <$> es).
Proof.
  intros Hok Hs. induction Hs as [|e es Hs IH Hlt]; [constructor|].
  apply Forall_cons in Hok as [He Hok]. simpl. apply NoDup_cons. split; [|by apply IH].
  intros Hin. apply list_elem_of_fmap in Hin as (e' & Heq & He').
  rewrite Forall_forall in Hok, Hlt. specialize (Hok e' He'). specialize (Hlt e' He').
  unfold node_ok in He, Hok. rewrite Heq, Hok in He. injection He as E _ _. lia.
Qed.

Lemma Rep_NoDup sl es : Rep sl es → NoDup (header sl :: (eaddr <$> es)).
Proof.
  intros HR. apply NoDup_cons. split.
  - intros Hin. apply list_elem_of_fmap in Hin as (e & Heq & He).
    by eapply node_ok_header_ne.
  - eapply sorted_NoDup_addr; [apply HR | apply HR].
Qed.

Lemma NoDup_addrs_at i (es : list entry) :
  NoDup (eaddr <$> es) → NoDup (addrs_at i es).
Proof.
  induction es as [|e es IH]; [done|]. simpl. intros Hnd.
  apply NoDup_cons in Hnd as [Hne Hnd]. rewrite addrs_at_cons.
  destruct (decide (i ≤ eht e)%nat); [|by apply IH].
  apply NoDup_cons. split; [|by apply IH]. intros Hin. apply Hne.
  apply elem_of_addrs_at in Hin as (e' & He' & _ & <-).
  apply list_elem_of_fmap. by exists e'.
Qed.

Lemma addrs_at_sub i (es : list entry) a : a ∈ addrs_at i es → a ∈ eaddr <$> es.
Proof.
  intros Hin. apply elem_of_addrs_at in Hin as (e & He & _ & <-).
  apply list_elem_of_fmap. by exists e.
Qed.

(** ** Walks along one level *)

Lemma walk_spec h i : ∀ es fuel,
  Forall (node_ok h) es →
  path_from h i (eaddr <$> es) None →
  (length es < fuel)%nat →
  ∃ nds, walk fuel h (Z.of_nat i) (head (eaddr <$> es)) = Ret nds ∧
         (λ nd, (key nd, value nd)) <$> nds = (λ e, (Some (ekey e), evalue e)) <$> es.
Proof.
  induction es as [|e es IH]; intros fuel Hok Hp Hfuel.
  - destruct fuel as [|fuel]; [simpl in Hfuel; lia|]. by exists [].
  - destruct fuel as [|fuel]; [simpl in Hfuel; lia|].
    apply Forall_cons in Hok as [He Hok]. csimpl in Hp.
    apply path_unfold in Hp as [Hs Hp]. rewrite hd_or_None in Hs.
    destruct (deref_info _ _ _ _ _ He) as (nd & Hd & Hnd & Hkey & Hval).
    destruct (IH fuel Hok Hp) as (nds & Hw & Hnds); [simpl in Hfuel; lia|].
    csimpl. rewrite Hd. csimpl. unfold slot in Hs. rewrite Hnd in Hs.
    rewrite (py_get_nat _ _ _ Hs). csimpl. rewrite Hw. csimpl.
    exists (nd :: nds). split; [done|]. csimpl. by rewrite Hkey, Hval, Hnds.
Qed.

Section observers.
Context (sl : SkipList) (es : list entry) (fuel : nat).
Hypothesis HR : Rep sl es.
Hypothesis Hfuel : fuel_ok fuel sl.

Lemma walk_level i :
  Z.of_nat i ≤ max_level sl →
  ∃ nds,
    (let* first := get_forward (heap sl) (header sl) (Z.of_nat i) in
     walk fuel (heap sl) (Z.of_nat i) first) = Ret nds ∧
    (λ nd, (key nd, value nd)) <$> nds
      = (λ e, (Some (ekey e), evalue e)) <$> at_level i es.
Proof using HR Hfuel.
  intros Hi. pose proof (rep_links _ _ HR i Hi) as Hp.
  apply path_unfold in Hp as [Hs Hp]. rewrite hd_or_None in Hs.
  rewrite (get_forward_slot _ _ _ _ Hs). simpl.
  apply walk_spec; [apply Forall_at_level, HR|done|].
  pose proof (length_at_level i es). pose proof (rep_size _ _ HR).
  unfold fuel_ok in Hfuel. lia.
Qed.

Lemma get_all_items_spec :
  get_all_items fuel sl = Ret ((λ e, (Some (ekey e), evalue e)) <$> es).
Proof using HR Hfuel.
  destruct (walk_level 0) as (nds & Hw & Hnds);
    [pose proof (rep_level _ _ HR); lia|].
  unfold get_all_items. change (Z.of_nat 0) with 0 in Hw.
  destruct (get_forward (heap sl) (header sl) 0) as [f| |]; simpl in *; [|done|done].
  rewrite Hw. simpl. by rewrite Hnds, at_level_0.
Qed.

Lemma len_spec : len fuel sl = Ret (Z.of_nat (length es)).
Proof using HR Hfuel.
  destruct (walk_level 0) as (nds & Hw & Hnds);
    [pose proof (rep_level _ _ HR); lia|].
  unfold len. change (Z.of_nat 0) with 0 in Hw.
  destruct (get_forward (heap sl) (header sl) 0) as [f| |]; simpl in *; [|done|done].
  rewrite Hw. simpl. apply (f_equal length) in Hnds.
  rewrite !length_fmap, at_level_0 in Hnds. by rewrite Hnds.
Qed.

Lemma level_keys_spec i :
  Z.of_nat i ≤ max_level sl →
  level_keys fuel (Z.of_nat i) sl = Ret ((λ e, Some (ekey e)) <$> at_level i es).
Proof using HR Hfuel.
  intros Hi. destruct (walk_level i Hi) as (nds & Hw & Hnds).
  unfold level_keys.
  destruct (get_forward (heap sl) (header sl) (Z.of_nat i)) as [f| |];
    simpl in *; [|done|done].
  rewrite Hw. simpl. apply (f_equal (fmap fst)) in Hnds.
  rewrite <- !list_fmap_compose in Hnds. f_equal. exact Hnds.
Qed.
End observers.

(** ** A key located in the list *)

(** The entries split around [k]: [lo] holds the keys below [k], [hi] the
    others. *)
Section located.
Context (sl : SkipList) (lo hi : list entry) (k : Z) (fuel : nat).
Hypothesis HR : Rep sl (lo ++ hi).
Hypothesis Hlt : Forall (λ e, ekey e < k) lo.
Hypothesis Hge : Forall (λ e, k ≤ ekey e) hi.
Hypothesis Hfuel : fuel_ok fuel sl.

Lemma located_links i :
  (i ≤ Z.to_nat (max_level sl))%nat →
  path (heap sl) i (header sl) (addrs_at i (lo ++ hi)) None.
Proof using HR.
  intros Hi. apply (rep_links _ _ HR). pose proof (rep_level _ _ HR). lia.
Qed.

Lemma located_lo_ok : Forall (node_ok (heap sl)) lo.
Proof using HR. pose proof (rep_nodes _ _ HR) as H. by apply Forall_app in H as [? _]. Qed.

Lemma located_hi_ok : Forall (node_ok (heap sl)) hi.
Proof using HR. pose proof (rep_nodes _ _ HR) as H. by apply Forall_app in H as [_ ?]. Qed.

Lemma located_fuel : (length lo < fuel)%nat.
Proof using HR Hfuel.
  pose proof (rep_size _ _ HR) as H. rewrite length_app in H.
  unfold fuel_ok in Hfuel. lia.
Qed.

Lemma pred_above j :
  (Z.to_nat (level sl) < j)%nat → pred_at (header sl) lo j = header sl.
Proof using HR.
  intros Hj. unfold pred_at. rewrite addrs_at_nil_ht; [done|].
  pose proof (rep_ht _ _ HR) as H. apply Forall_app in H as [H _].
  eapply Forall_impl; [exact H|]. simpl. intros e He. lia.
Qed.

Lemma succ_above j :
  (Z.to_nat (level sl) < j)%nat → succ_at hi j = None.
Proof using HR.
  intros Hj. unfold succ_at. rewrite addrs_at_nil_ht; [done|].
  pose proof (rep_ht _ _ HR) as H. apply Forall_app in H as [_ H].
  eapply Forall_impl; [exact H|]. simpl. intros e He. lia.
Qed.

Lemma descent_spec :
  ∃ update,
    find_path fuel (heap sl) k (py_range_down (level sl) (-1))
      (py_repeat None (max_level sl + 1)) (header sl)
      = Ret (update, pred_at (header sl) lo 0) ∧
    length update = S (Z.to_nat (max_level sl)) ∧
    ∀ j, update !! j =
         if decide (j ≤ Z.to_nat (level sl))%nat
         then Some (Some (pred_at (header sl) lo j))
         else if decide (j ≤ Z.to_nat (max_level sl))%nat then Some None else None.
Proof using HR Hlt Hge Hfuel.
  pose proof (rep_level _ _ HR) as Hlv.
  assert (Hlen : length (py_repeat (@None addr) (max_level sl + 1))
                 = S (Z.to_nat (max_level sl))).
  { unfold py_repeat. rewrite length_replicate. lia. }
  destruct (find_path_spec (heap sl) (header sl) k lo hi (Z.to_nat (max_level sl))
              located_lo_ok located_hi_ok Hlt Hge located_links
              fuel (Z.to_nat (level sl))
              (py_repeat None (max_level sl + 1)) (header sl))
    as (u & Hu & Hl & Hj).
  - lia.
  - by left.
  - apply located_fuel.
  - rewrite Hlen. lia.
  - rewrite Z2Nat.id in Hu by lia. exists u. split; [done|].
    split; [by rewrite Hl|]. intros j. rewrite Hj.
    destruct (decide (j ≤ Z.to_nat (level sl))%nat); [done|].
    unfold py_repeat. destruct (decide (j ≤ Z.to_nat (max_level sl))%nat).
    + apply lookup_replicate_2. lia.
    + apply lookup_replicate_None. lia.
Qed.

Lemma front_spec :
  get_forward (heap sl) (pred_at (header sl) lo 0) 0 = Ret (succ_at hi 0).
Proof using HR.
  change 0 with (Z.of_nat 0). apply get_forward_slot.
  eapply slot_pred; [apply located_links|lia].
Qed.

Lemma search_spec :
  search fuel k sl =
  Ret (match hi with
       | e :: _ => if decide (ekey e = k) then evalue e else PyNone
       | [] => PyNone
       end).
Proof using HR Hlt Hge Hfuel.
  destruct descent_spec as (u & Hu & _).
  unfold search. rewrite (search_descent_find_path _ _ _ _ _ _ _ _ Hu). simpl.
  rewrite front_spec. simpl. rewrite (hit_spec _ _ _ located_hi_ok). simpl.
  pose proof located_hi_ok as Hok.
  destruct hi as [|e hi']; [done|].
  destruct (decide (ekey e = k)); [|done].
  apply Forall_cons in Hok as [He _].
  destruct (deref_info _ _ _ _ _ He) as (nd & Hd & _ & _ & Hval).
  rewrite Hd. simpl. by rewrite Hval.
Qed.
End located.

(** ** Splitting a sorted list of entries at a key *)

Lemma sorted_keys es : sorted es ↔ StronglySorted Z.lt (ekey <$> es).
Proof.
  unfold sorted. induction es as [|e es IH]; csimpl.
  - split; constructor.
  - rewrite !StronglySorted_cons, IH, Forall_fmap. done.
Qed.

Lemma sorted_same_keys es1 es2 :
  ekey <$> es1 = ekey <$> es2 → sorted es1 → sorted es2.
Proof. rewrite !sorted_keys. by intros ->. Qed.

Lemma locate k es :
  sorted es →
  ∃ lo hi, es = lo ++ hi ∧ Forall (λ e, ekey e < k) lo ∧ Forall (λ e, k ≤ ekey e) hi.
Proof.
  induction 1 as [|e es Hs IH Hall].
  - by exists [], [].
  - destruct (decide (ekey e < k)) as [Hlt|Hge].
    + destruct IH as (lo & hi & -> & Hlo & Hhi).
      exists (e :: lo), hi. split; [done|]. split; [by constructor|done].
    + exists [], (e :: es). split; [done|]. split; [constructor|].
      constructor; [lia|]. eapply Forall_impl; [exact Hall|]. simpl. intros; lia.
Qed.

Lemma sorted_after lo e hi :
  sorted (lo ++ e :: hi) → Forall (λ e', ekey e < ekey e') hi.
Proof.
  intros Hs. apply StronglySorted_app in Hs as (_ & _ & Hs).
  by apply StronglySorted_cons in Hs as [? _].
Qed.

Lemma sorted_remove lo e hi : sorted (lo ++ e :: hi) → sorted (lo ++ hi).
Proof.
  unfold sorted. rewrite !StronglySorted_app, StronglySorted_cons.
  intros (H1 & H2 & H3 & H4). split; [|done].
  intros x1 x2 Hx1 Hx2. apply H1; [done|]. by apply list_elem_of_further.
Qed.

Lemma sorted_insert lo e hi :
  sorted (lo ++ hi) →
  Forall (λ e', ekey e' < ekey e) lo →
  Forall (λ e', ekey e < ekey e') hi →
  sorted (lo ++ e :: hi).
Proof.
  unfold sorted. rewrite !StronglySorted_app, StronglySorted_cons.
  intros (H1 & H2 & H3) Hlo Hhi. split; [|done].
  intros x1 x2 Hx1 Hx2. apply elem_of_cons in Hx2 as [->|Hx2].
  - rewrite Forall_forall in Hlo. by apply Hlo.
  - by apply H1.
Qed.

Lemma filter_key_nil k (P : Z → Prop) es :
  Forall (λ e, P (ekey e)) es → ¬ P k → filter (λ e, ekey e = k) es = [].
Proof.
  intros Hall Hk. induction Hall as [|e es He _ IH]; [done|].
  rewrite filter_cons_False; [done|]. intros E. by rewrite E in He.
Qed.

Lemma assoc_absent k lo hi :
  Forall (λ e, ekey e < k) lo → Forall (λ e, k < ekey e) hi →
  assoc k (lo ++ hi) = None.
Proof.
  intros Hlo Hhi. unfold assoc. rewrite filter_app.
  rewrite (filter_key_nil k (λ x, x < k)) by (done || lia).
  rewrite (filter_key_nil k (λ x, k < x)) by (done || lia). done.
Qed.

Lemma assoc_present k lo e hi :
  Forall (λ e, ekey e < k) lo → ekey e = k →
  assoc k (lo ++ e :: hi) = Some (evalue e).
Proof.
  intros Hlo He. unfold assoc. rewrite filter_app.
  rewrite (filter_key_nil k (λ x, x < k)) by (done || lia).
  by rewrite filter_cons_True.
Qed.

Lemma assoc_other k k' lo e hi :
  ekey e = k → k' ≠ k → assoc k' (lo ++ e :: hi) = assoc k' (lo ++ hi).
Proof.
  intros He Hne. unfold assoc. rewrite !filter_app.
  rewrite filter_cons_False by congruence. done.
Qed.

(** ** Deleting an absent key *)

Lemma Forall_lt_le k (es : list entry) :
  Forall (λ e, k < ekey e) es → Forall (λ e, k ≤ ekey e) es.
Proof. intros H. eapply Forall_impl; [exact H|]. simpl. intros; lia. Qed.

Lemma delete_absent_spec sl lo hi k fuel :
  Rep sl (lo ++ hi) →
  Forall (λ e, ekey e < k) lo → Forall (λ e, k < ekey e) hi →
  fuel_ok fuel sl →
  delete fuel k sl = Ret (false, sl).
Proof.
  intros HR Hlo Hhi Hfuel. pose proof (Forall_lt_le _ _ Hhi) as Hge.
  destruct (descent_spec sl lo hi k fuel HR Hlo Hge Hfuel) as (u & Hu & _).
  unfold delete. rewrite Hu. simpl.
  rewrite (front_spec sl lo hi HR). simpl.
  rewrite (hit_spec _ _ _ (located_hi_ok sl lo hi HR)). simpl.
  destruct hi as [|e hi']; [done|].
  apply Forall_cons in Hhi as [He _].
  rewrite decide_False by lia. done.
Qed.

(** ** Inserting a key that is present *)

Lemma addrs_at_set_evalue i lo e v hi :
  addrs_at i (lo ++ set_evalue v e :: hi) = addrs_at i (lo ++ e :: hi).
Proof. by rewrite !addrs_at_app, !addrs_at_cons. Qed.

Lemma insert_existing_spec sl lo e hi k v g fuel :
  Rep sl (lo ++ e :: hi) →
  Forall (λ e, ekey e < k) lo → ekey e = k →
  fuel_ok fuel sl →
  ∃ nd, heap sl !! eaddr e = Some nd ∧ key nd = Some k ∧
    let h' := <[eaddr e := {| key := key nd; value := v; forward := forward nd |}]> (heap sl) in
    insert fuel k v g sl = Ret (with_heap sl h', g) ∧
    Rep (with_heap sl h') (lo ++ set_evalue v e :: hi).
Proof.
  intros HR Hlo Hk Hfuel.
  assert (Hge : Forall (λ e', k ≤ ekey e') (e :: hi)).
  { constructor; [lia|]. apply Forall_lt_le. rewrite <- Hk.
    eapply sorted_after, HR. }
  destruct (descent_spec sl lo (e :: hi) k fuel HR Hlo Hge Hfuel) as (u & Hu & _).
  pose proof (located_hi_ok sl lo (e :: hi) HR) as Hok.
  pose proof Hok as Hok'. apply Forall_cons in Hok' as [He _].
  destruct (set_value_spec _ _ _ _ _ v He) as (nd & Hnd & Hset & Hslot & Hinfo).
  destruct (deref_info _ _ _ _ _ He) as (nd' & _ & Hnd' & Hkey & _).
  rewrite Hnd in Hnd'. injection Hnd' as <-.
  exists nd. split; [done|]. split; [by rewrite Hkey, Hk|]. simpl.
  set (h' := <[eaddr e := _]> (heap sl)) in *.
  split.
  - unfold insert. rewrite Hu. cbn [bind].
    rewrite (front_spec sl lo (e :: hi) HR). cbn [bind].
    rewrite (hit_spec _ _ _ Hok). cbn [bind]. rewrite decide_True by done.
    rewrite Hset. done.
  - pose proof (Rep_NoDup _ _ HR) as Hnd0.
    assert (Hother : ∀ e', e' ∈ lo ++ hi → eaddr e' ≠ eaddr e).
    { apply NoDup_cons in Hnd0 as [_ Hnd0]. rewrite fmap_app in Hnd0. csimpl in Hnd0.
      apply NoDup_app in Hnd0 as (_ & H1 & H2). apply NoDup_cons in H2 as [H2 _].
      intros e' He' Heq. apply elem_of_app in He' as [He'|He'].
      - apply (H1 (eaddr e)); [|apply list_elem_of_here].
        apply list_elem_of_fmap. by exists e'.
      - apply H2. apply list_elem_of_fmap. by exists e'. }
    constructor; simpl.
    + apply HR.
    + rewrite Hinfo, decide_False; [apply HR|].
      intros Heq. eapply (node_ok_header_ne _ _ e HR); [|done].
      apply elem_of_app. right. apply list_elem_of_here.
    + pose proof (rep_nodes _ _ HR) as Hall.
      apply Forall_app in Hall as [H1 H2]. apply Forall_cons in H2 as [_ H2].
      apply Forall_app. split; [|apply Forall_cons; split].
      * rewrite Forall_forall in H1 |- *. intros e' He'. unfold node_ok.
        rewrite Hinfo, decide_False; [by apply H1|].
        apply Hother, elem_of_app. by left.
      * unfold node_ok. simpl. by rewrite Hinfo, decide_True.
      * rewrite Forall_forall in H2 |- *. intros e' He'. unfold node_ok.
        rewrite Hinfo, decide_False; [by apply H2|].
        apply Hother, elem_of_app. by right.
    + eapply sorted_same_keys; [|apply HR]. by rewrite !fmap_app.
    + pose proof (rep_ht _ _ HR) as Hall.
      rewrite !Forall_app, !Forall_cons in Hall |- *. done.
    + destruct (rep_top _ _ HR) as [?|Hex]; [by left|right].
      rewrite !Exists_app, !Exists_cons in Hex |- *. done.
    + intros i Hi. rewrite addrs_at_set_evalue.
      eapply path_ext; [|by apply (rep_links _ _ HR)]. intros a _. apply Hslot.
    + unfold h'. rewrite length_insert. pose proof (rep_size _ _ HR) as Hs.
      rewrite !length_app in Hs |- *. done.
Qed.

(** ** The loops of [insert] and [delete] *)

Lemma random_level_loop_spec sl : ∀ fuel lvl g,
  0 ≤ lvl ≤ max_level sl →
  (Z.to_nat (max_level sl - lvl) < fuel)%nat →
  ∃ nl g', random_level_loop fuel sl lvl g = Ret (nl, g') ∧ lvl ≤ nl ≤ max_level sl.
Proof.
  induction fuel as [|fuel IH]; intros lvl g Hlvl Hfuel; [lia|].
  simpl. destruct (Qlt_bool (draws g (pos g)) (p sl)); simpl.
  - destruct (lvl <? max_level sl) eqn:E.
    + apply Z.ltb_lt in E.
      destruct (IH (lvl + 1) {| draws := draws g; pos := S (pos g) |})
        as (nl & g' & Hr & Hnl); [lia|lia|].
      exists nl, g'. split; [done|lia].
    + eexists _, _. split; [done|lia].
  - eexists _, _. split; [done|lia].
Qed.

Lemma fill_header_spec hd : ∀ m s (update : list (option addr)),
  (s + m ≤ length update)%nat →
  ∃ u', fill_header hd (Z.of_nat <$> seq s m) update = Ret u' ∧
        length u' = length update ∧
        ∀ j, u' !! j = if decide (s ≤ j < s + m)%nat then Some (Some hd) else update !! j.
Proof.
  induction m as [|m IH]; intros s update Hlen.
  - exists update. split; [done|]. split; [done|]. intros j.
    by rewrite decide_False by lia.
  - csimpl. rewrite py_set_nat by lia. cbn [bind].
    destruct (IH (S s) (<[s := Some hd]> update)) as (u' & Hu & Hl & Hj).
    { rewrite length_insert. lia. }
    exists u'. split; [done|]. split; [by rewrite Hl, length_insert|].
    intros j. rewrite Hj. destruct (decide (j = s)) as [->|Hne].
    + rewrite decide_False by lia. rewrite decide_True by lia.
      apply list_lookup_insert_eq. lia.
    + rewrite list_lookup_insert_ne by done.
      destruct (decide (S s ≤ j < S s + m)%nat).
      * by rewrite decide_True by lia.
      * by rewrite decide_False by lia.
Qed.

Lemma splice_spec update new (u : nat → addr) (f : nat → option addr) : ∀ m s h0,
  (∀ j, (s ≤ j < s + m)%nat →
        update !! j = Some (Some (u j)) ∧ slot h0 (u j) j = Some (f j) ∧
        is_Some (slot h0 new j) ∧ u j ≠ new) →
  ∃ h', splice h0 update new (Z.of_nat <$> seq s m) = Ret h' ∧
        length h' = length h0 ∧
        (∀ b, info h' b = info h0 b) ∧
        ∀ b j, slot h' b j =
               if decide (s ≤ j < s + m)%nat
               then (if decide (b = u j) then Some (Some new)
                     else if decide (b = new) then Some (f j) else slot h0 b j)
               else slot h0 b j.
Proof.
  induction m as [|m IH]; intros s h0 Hpre.
  - exists h0. split; [done|]. split; [done|]. split; [done|]. intros b j.
    by rewrite decide_False by lia.
  - csimpl. destruct (Hpre s) as (Hu & Hs & Hnew & Hne); [lia|].
    rewrite (py_get_nat _ _ _ Hu). cbn [bind].
    rewrite (get_forward_slot _ _ _ _ Hs). cbn [bind].
    destruct (set_forward_spec h0 new s (f s) Hnew) as (h1 & -> & Hl1 & Hi1 & Hs1).
    cbn [bind].
    destruct (set_forward_spec h1 (u s) s (Some new)) as (h2 & -> & Hl2 & Hi2 & Hs2).
    { rewrite Hs1, decide_False by (intros [? _]; done). by rewrite Hs. }
    cbn [bind].
    assert (Hs02 : ∀ b j, j ≠ s → slot h2 b j = slot h0 b j).
    { intros b j Hj. rewrite Hs2, decide_False by (intros [_ ?]; done).
      rewrite Hs1, decide_False by (intros [_ ?]; done). done. }
    destruct (IH (S s) h2) as (h' & Hsp & Hl & Hi & Hsl).
    { intros j Hj. destruct (Hpre j) as (Hu' & Hs' & Hnew' & Hne'); [lia|].
      rewrite !Hs02 by lia. done. }
    exists h'. split; [done|]. split; [by rewrite Hl, Hl2, Hl1|].
    split; [intros b; by rewrite Hi, Hi2, Hi1|].
    intros b j. rewrite Hsl. destruct (decide (j = s)) as [->|Hj].
    + rewrite (decide_False (P := (S s ≤ s < S s + m)%nat)) by lia.
      rewrite (decide_True (P := (s ≤ s < s + S m)%nat)) by lia.
      rewrite Hs2. destruct (decide (b = u s)) as [->|Hb].
      * by rewrite decide_True.
      * rewrite decide_False by (intros [? _]; done). rewrite Hs1.
        destruct (decide (b = new)) as [->|Hb'].
        -- by rewrite decide_True.
        -- by rewrite decide_False by (intros [? _]; done).
    + rewrite Hs02 by done. destruct (decide (S s ≤ j < S s + m)%nat).
      * by rewrite (decide_True (P := (s ≤ j < s + S m)%nat)) by lia.
      * by rewrite (decide_False (P := (s ≤ j < s + S m)%nat)) by lia.
Qed.

Lemma unlink_spec update cur (u : nat → addr) (f : nat → option addr) (ht : nat) :
  ∀ m s h0,
  (s ≤ S ht)%nat →
  (∀ j, (s ≤ j < s + m)%nat → update !! j = Some (Some (u j))) →
  (∀ j, (s ≤ j < s + m)%nat → (j ≤ ht)%nat →
        slot h0 (u j) j = Some (Some cur) ∧ slot h0 cur j = Some (f j)) →
  ((S ht < s + m)%nat →
        ∃ g, slot h0 (u (S ht)) (S ht) = Some g ∧ g ≠ Some cur) →
  ∃ h', unlink h0 update cur (Z.of_nat <$> seq s m) = Ret h' ∧
        length h' = length h0 ∧
        (∀ b, info h' b = info h0 b) ∧
        ∀ b j, slot h' b j =
               if decide ((s ≤ j < s + m)%nat ∧ (j ≤ ht)%nat ∧ b = u j)
               then Some (f j) else slot h0 b j.
Proof.
  induction m as [|m IH]; intros s h0 Hs Hupd Hin Hbrk.
  - exists h0. split; [done|]. split; [done|]. split; [done|]. intros b j.
    by rewrite decide_False by lia.
  - csimpl. rewrite (py_get_nat _ _ _ (Hupd s ltac:(lia))). cbn [bind].
    destruct (decide (s ≤ ht)%nat) as [Hle|Hgt].
    + destruct (Hin s) as [Hsu Hsc]; [lia|lia|].
      rewrite (get_forward_slot _ _ _ _ Hsu). cbn [bind].
      rewrite bool_decide_eq_false_2 by (intros H; by apply H).
      rewrite (get_forward_slot _ _ _ _ Hsc). cbn [bind].
      destruct (set_forward_spec h0 (u s) s (f s)) as (h1 & -> & Hl1 & Hi1 & Hs1);
        [by rewrite Hsu|]. cbn [bind].
      assert (Hs01 : ∀ b j, j ≠ s → slot h1 b j = slot h0 b j).
      { intros b j Hj. by rewrite Hs1, decide_False by (intros [_ ?]; done). }
      destruct (IH (S s) h1) as (h' & Hun & Hl & Hi & Hsl).
      * lia.
      * intros j Hj. apply Hupd. lia.
      * intros j Hj Hjh. rewrite !Hs01 by lia. apply Hin; lia.
      * intros Hlt. rewrite Hs01 by lia. apply Hbrk. lia.
      * exists h'. split; [done|]. split; [by rewrite Hl, Hl1|].
        split; [intros b; by rewrite Hi, Hi1|].
        intros b j. rewrite Hsl. destruct (decide (j = s)) as [->|Hj].
        -- rewrite (decide_False (P := (S s ≤ s < S s + m)%nat ∧ _)) by lia.
           rewrite Hs1. destruct (decide (b = u s)) as [->|Hb].
           ++ rewrite decide_True by done. rewrite decide_True; [done|]. repeat split; lia.
           ++ rewrite decide_False by (intros [? _]; done).
              rewrite decide_False; [done|]. intros (_ & _ & ?). done.
        -- rewrite Hs01 by done.
           destruct (decide ((S s ≤ j < S s + m)%nat ∧ (j ≤ ht)%nat ∧ b = u j))
             as [(? & ? & ?)|Hno].
           ++ rewrite decide_True; [done|]. repeat split; (lia || done).
           ++ rewrite decide_False; [done|]. intros (? & ? & ?). apply Hno.
              repeat split; (lia || done).
    + assert (s = S ht) as -> by lia.
      destruct Hbrk as (g & Hg & Hne); [lia|].
      rewrite (get_forward_slot _ _ _ _ Hg). cbn [bind].
      rewrite bool_decide_eq_true_2 by done.
      exists h0. split; [done|]. split; [done|]. split; [done|]. intros b j.
      rewrite decide_False; [done|]. intros (? & ? & _). lia.
Qed.

Lemma shrink_spec h hdr (es : list entry) : ∀ n fuel,
  (n < fuel)%nat →
  (∀ j, (j ≤ n)%nat → slot h hdr j = Some (hd_or None (addrs_at j es))) →
  ∃ n', shrink fuel h hdr (Z.of_nat n) = Ret (Z.of_nat n') ∧
        (n' ≤ n)%nat ∧
        (n' = 0%nat ∨ addrs_at n' es ≠ []) ∧
        ∀ j, (n' < j ≤ n)%nat → addrs_at j es = [].
Proof.
  induction n as [|n IH]; intros fuel Hfuel Hs.
  - destruct fuel as [|fuel]; [lia|]. exists 0%nat. simpl.
    split; [done|]. split; [done|]. split; [by left|]. intros j Hj. lia.
  - destruct fuel as [|fuel]; [lia|]. cbn [shrink].
    assert ((0 <? Z.of_nat (S n)) = true) as -> by (apply Z.ltb_lt; lia).
    rewrite (get_forward_slot _ _ _ _ (Hs (S n) ltac:(lia))). cbn [bind].
    destruct (addrs_at (S n) es) as [|a l] eqn:E; simpl.
    + replace (Z.of_nat (S n) - 1) with (Z.of_nat n) by lia.
      destruct (IH fuel) as (n' & Hr & Hle & Htop & Hnil); [lia| |].
      { intros j Hj. apply Hs. lia. }
      exists n'. split; [done|]. split; [lia|]. split; [done|].
      intros j Hj. destruct (decide (j = S n)) as [->|Hne]; [done|]. apply Hnil. lia.
    + exists (S n). split; [done|]. split; [done|]. split.
      * right. by rewrite E.
      * intros j Hj. lia.
Qed.

(** ** Rewiring one level *)

Lemma pred_at_in hdr lo i : pred_at hdr lo i ∈ hdr :: (eaddr <$> lo).
Proof.
  unfold pred_at. destruct (last_or_elem hdr (addrs_at i lo)) as [->|H].
  - apply list_elem_of_here.
  - apply list_elem_of_further. by eapply addrs_at_sub.
Qed.

Lemma pred_at_not_hi hdr lo hi i a :
  NoDup (hdr :: (eaddr <$> lo ++ hi)) → a ∈ eaddr <$> hi → a ≠ pred_at hdr lo i.
Proof.
  intros Hnd Ha ->. apply NoDup_cons in Hnd as [Hh Hnd].
  rewrite fmap_app in Hh, Hnd. apply NoDup_app in Hnd as (_ & Hd & _).
  pose proof (pred_at_in hdr lo i) as Hin. apply elem_of_cons in Hin as [E|Hin].
  - apply Hh. rewrite <- E. apply elem_of_app. by right.
  - by apply (Hd _ Hin).
Qed.

Lemma NoDup_hdr_lo hdr lo hi i :
  NoDup (hdr :: (eaddr <$> lo ++ hi)) → NoDup (hdr :: addrs_at i lo).
Proof.
  intros Hnd. apply NoDup_cons in Hnd as [Hh Hnd]. rewrite fmap_app in Hh, Hnd.
  apply NoDup_app in Hnd as (Hnd & _ & _). apply NoDup_cons. split.
  - intros Hin. apply Hh, elem_of_app. left. by eapply addrs_at_sub.
  - by apply NoDup_addrs_at.
Qed.

(** The chain of level [i] after the successor of the last node below the
    key was replaced by [tail]. *)
Lemma relink h h' i hdr lo hi fin tail :
  NoDup (hdr :: (eaddr <$> lo ++ hi)) →
  path h i hdr (addrs_at i lo) fin →
  (∀ a, a ∈ hdr :: (eaddr <$> lo) → a ≠ pred_at hdr lo i → slot h' a i = slot h a i) →
  slot h' (pred_at hdr lo i) i = Some (hd_or None tail) →
  path_from h' i tail None →
  path h' i hdr (addrs_at i lo ++ tail) None.
Proof.
  intros Hnd Hp Hsame Hpred Htail. apply path_app. split; [|done].
  eapply path_retarget; [by eapply NoDup_hdr_lo|exact Hp| |exact Hpred].
  intros a Ha Hne. apply Hsame; [|done].
  apply elem_of_cons in Ha as [->|Ha]; [apply list_elem_of_here|].
  apply list_elem_of_further. by eapply addrs_at_sub.
Qed.

(** ** Deleting a key that is present *)

Lemma delete_found_spec sl lo e hi k fuel :
  Rep sl (lo ++ e :: hi) →
  Forall (λ e, ekey e < k) lo → ekey e = k →
  fuel_ok fuel sl →
  ∃ sl', delete fuel k sl = Ret (true, sl') ∧
         Rep sl' (lo ++ hi) ∧
         max_level sl' = max_level sl ∧ p sl' = p sl ∧ header sl' = header sl ∧
         length (heap sl') = length (heap sl) ∧ level sl' ≤ level sl.
Proof.
  intros HR Hlo Hk Hfuel.
  assert (Hge : Forall (λ e', k ≤ ekey e') (e :: hi)).
  { constructor; [lia|]. apply Forall_lt_le. rewrite <- Hk.
    eapply sorted_after, HR. }
  destruct (descent_spec sl lo (e :: hi) k fuel HR Hlo Hge Hfuel) as (u & Hu & Hlen & Huj).
  pose proof (rep_level _ _ HR) as Hlv.
  pose proof (Rep_NoDup _ _ HR) as Hnd.
  pose proof (located_links sl lo (e :: hi) HR) as Hlinks.
  pose proof (located_hi_ok sl lo (e :: hi) HR) as Hok.
  set (hdr := header sl) in *. set (h := heap sl) in *.
  set (L := Z.to_nat (level sl)) in *. set (ML := Z.to_nat (max_level sl)) in *.
  assert (HL : level sl = Z.of_nat L) by (unfold L; lia).
  assert (Hht : (eht e ≤ L)%nat).
  { pose proof (rep_ht _ _ HR) as H. apply Forall_app in H as [_ H].
    apply Forall_cons in H as [H _]. lia. }
  assert (Hhi_ne : ∀ a, a ∈ eaddr <$> hi → a ≠ eaddr e).
  { intros a Ha ->. apply NoDup_cons in Hnd as [_ Hnd']. rewrite fmap_app in Hnd'.
    apply NoDup_app in Hnd' as (_ & _ & Hnd'). csimpl in Hnd'.
    by apply NoDup_cons in Hnd' as [? _]. }
  assert (Hsucc_in : ∀ j, (j ≤ eht e)%nat → succ_at (e :: hi) j = Some (eaddr e)).
  { intros j Hj. unfold succ_at. by rewrite addrs_at_cons, decide_True. }
  assert (Hsucc_out : ∀ j, (eht e < j)%nat → succ_at (e :: hi) j = succ_at hi j).
  { intros j Hj. unfold succ_at. rewrite addrs_at_cons, decide_False by lia. done. }
  assert (Hcur : ∀ j, (j ≤ ML)%nat → (j ≤ eht e)%nat →
                 slot h (eaddr e) j = Some (succ_at hi j) ∧
                 path_from h j (addrs_at j hi) None).
  { intros j Hj Hje. pose proof (path_hi h hdr lo (e :: hi) ML Hlinks j Hj) as Hp.
    rewrite addrs_at_cons, decide_True in Hp by done. simpl in Hp.
    by apply path_unfold in Hp. }
  destruct (unlink_spec u (eaddr e) (pred_at hdr lo) (succ_at hi) (eht e) (S L) 0 h)
    as (h' & Hun & Hl' & Hi' & Hs').
  { lia. }
  { intros j Hj. rewrite Huj, decide_True by lia. done. }
  { intros j Hj Hje. split.
    - rewrite (slot_pred h hdr lo (e :: hi) ML Hlinks) by lia. by rewrite Hsucc_in.
    - apply Hcur; lia. }
  { intros Hlt. exists (succ_at hi (S (eht e))). split.
    - rewrite (slot_pred h hdr lo (e :: hi) ML Hlinks) by lia.
      rewrite Hsucc_out by lia. done.
    - unfold succ_at. destruct (addrs_at (S (eht e)) hi) as [|a l] eqn:E; [done|].
      simpl. intros [= ->]. apply (Hhi_ne (eaddr e)); [|done].
      apply (addrs_at_sub (S (eht e))). rewrite E. apply list_elem_of_here. }
  assert (Hslot' : ∀ b j, slot h' b j =
            if decide ((j ≤ eht e)%nat ∧ b = pred_at hdr lo j)
            then Some (succ_at hi j) else slot h b j).
  { intros b j. rewrite Hs'.
    destruct (decide ((j ≤ eht e)%nat ∧ b = pred_at hdr lo j)) as [[? ?]|Hno].
    - rewrite decide_True; [done|]. repeat split; (lia || done).
    - rewrite decide_False; [done|]. intros (_ & ? & ?). by apply Hno. }
  assert (Hlinks' : ∀ i, (i ≤ ML)%nat → path h' i hdr (addrs_at i (lo ++ hi)) None).
  { intros i Hi. destruct (decide (i ≤ eht e)%nat) as [Hie|Hie].
    - rewrite addrs_at_app.
      destruct (Hcur i Hi Hie) as [_ Htail].
      eapply (relink h h' i hdr lo (e :: hi)); [done| | | |].
      + by apply (path_lo h hdr lo (e :: hi) ML Hlinks).
      + intros a _ Hne. rewrite Hslot', decide_False; [done|]. intros [_ ?]. done.
      + rewrite Hslot', decide_True by done. done.
      + eapply path_from_ext; [|exact Htail]. intros a Ha.
        rewrite Hslot', decide_False; [done|]. intros [_ ->].
        eapply (pred_at_not_hi hdr lo (e :: hi)); [done| |done].
        csimpl. apply list_elem_of_further. by eapply addrs_at_sub.
    - specialize (Hlinks i Hi). rewrite addrs_at_app, addrs_at_cons, decide_False in Hlinks by done.
      rewrite addrs_at_app. eapply path_ext; [|exact Hlinks].
      intros a _. rewrite Hslot', decide_False; [done|]. intros [? _]. done. }
  destruct (shrink_spec h' hdr (lo ++ hi) L fuel) as (n' & Hsh & Hn' & Htop & Hnil).
  { unfold fuel_ok in Hfuel. lia. }
  { intros j Hj. specialize (Hlinks' j ltac:(lia)). by apply path_unfold in Hlinks' as [? _]. }
  exists {| max_level := max_level sl; p := p sl; header := hdr;
            level := Z.of_nat n'; heap := h' |}.
  split; [|split; [|simpl; repeat split; (done || lia)]].
  - unfold delete. subst h hdr. rewrite Hu. cbn [bind].
    rewrite (front_spec sl lo (e :: hi) HR). cbn [bind].
    rewrite (hit_spec _ _ _ Hok). cbn [bind]. rewrite decide_True by done.
    replace (level sl + 1) with (Z.of_nat (S L)) by lia.
    rewrite py_range_nat, Hun. cbn [bind]. rewrite HL, Hsh. done.
  - assert (Hht' : Forall (λ e', (eht e' ≤ n')%nat) (lo ++ hi)).
    { pose proof (rep_ht _ _ HR) as Hall. rewrite Forall_forall in Hall |- *.
      intros e' He'. destruct (decide (eht e' ≤ n')%nat) as [|Hgt]; [done|].
      assert (Hin : eaddr e' ∈ addrs_at (eht e') (lo ++ hi)).
      { apply elem_of_addrs_at. by exists e'. }
      rewrite Hnil in Hin; [by apply elem_of_nil in Hin|].
      split; [lia|]. assert (Z.of_nat (eht e') ≤ level sl); [|lia].
      apply Hall. apply elem_of_app in He' as [?|?]; apply elem_of_app; [by left|].
      right. by apply list_elem_of_further. }
    constructor; simpl.
    + lia.
    + rewrite Hi'. apply HR.
    + pose proof (rep_nodes _ _ HR) as Hall.
      rewrite Forall_app, Forall_cons in Hall. destruct Hall as (H1 & _ & H2).
      apply Forall_app. split; (eapply Forall_impl; [eassumption|]);
        intros e' He'; unfold node_ok; by rewrite Hi'.
    + eapply sorted_remove, HR.
    + eapply Forall_impl; [exact Hht'|]. simpl. intros; lia.
    + destruct Htop as [->|Hne]; [by left|right].
      destruct (addrs_at n' (lo ++ hi)) as [|a l] eqn:E; [done|].
      assert (Hin : a ∈ addrs_at n' (lo ++ hi)) by (rewrite E; apply list_elem_of_here).
      apply elem_of_addrs_at in Hin as (e' & He' & Hle & _).
      apply Exists_exists. exists e'. split; [done|].
      rewrite Forall_forall in Hht'. specialize (Hht' e' He'). lia.
    + intros i Hi. apply Hlinks'. lia.
    + rewrite Hl'. pose proof (rep_size _ _ HR) as Hs.
      rewrite !length_app in Hs |- *. simpl in Hs. fold h in Hs. lia.
Qed.

(** ** Inserting a key that is absent *)

Lemma Rep_addr_lt sl es a :
  Rep sl es → a ∈ header sl :: (eaddr <$> es) → (a < length (heap sl))%nat.
Proof.
  intros HR Ha. apply elem_of_cons in Ha as [->|Ha].
  - eapply info_lt, HR.
  - apply list_elem_of_fmap in Ha as (e & -> & He).
    pose proof (rep_nodes _ _ HR) as Hok. rewrite Forall_forall in Hok.
    eapply info_lt, (Hok e He).
Qed.

Lemma insert_new_spec sl lo hi k v g fuel :
  Rep sl (lo ++ hi) →
  Forall (λ e, ekey e < k) lo → Forall (λ e, k < ekey e) hi →
  fuel_ok fuel sl →
  ∃ sl' g' nl,
    insert fuel k v g sl = Ret (sl', g') ∧
    random_level fuel sl g = Ret (Z.of_nat nl, g') ∧
    Rep sl' (lo ++ {| eaddr := length (heap sl); ekey := k; evalue := v; eht := nl |} :: hi) ∧
    max_level sl' = max_level sl ∧ p sl' = p sl ∧ header sl' = header sl ∧
    length (heap sl') = S (length (heap sl)) ∧
    level sl' = Z.max (level sl) (Z.of_nat nl).
Proof.
  intros HR Hlo Hhi Hfuel. pose proof (Forall_lt_le _ _ Hhi) as Hge.
  destruct (descent_spec sl lo hi k fuel HR Hlo Hge Hfuel) as (u & Hu & Hlen & Huj).
  pose proof (rep_level _ _ HR) as Hlv.
  pose proof (Rep_NoDup _ _ HR) as Hnd.
  pose proof (located_links sl lo hi HR) as Hlinks.
  pose proof (located_hi_ok sl lo hi HR) as Hok.
  assert (Hmiss : match hi with
                  | e :: _ => if decide (ekey e = k) then Some (eaddr e) else None
                  | [] => None
                  end = None).
  { destruct hi as [|e hi']; [done|]. apply Forall_cons in Hhi as [He _].
    rewrite decide_False by lia. done. }
  destruct (random_level_loop_spec sl fuel 0 g) as (nlz & g' & Hrl & Hnl).
  { lia. } { unfold fuel_ok in Hfuel. lia. }
  set (nl := Z.to_nat nlz).
  assert (Hnlz : nlz = Z.of_nat nl) by (unfold nl; lia).
  set (L := Z.to_nat (level sl)) in *. set (ML := Z.to_nat (max_level sl)) in *.
  assert (HL : level sl = Z.of_nat L) by (unfold L; lia).
  assert (Hupd : ∃ u2,
    (if level sl <? nlz
     then let* u0 := fill_header (header sl) (py_range (level sl + 1) (nlz + 1)) u in
          Ret (u0, nlz)
     else Ret (u, level sl)) = Ret (u2, Z.max (level sl) nlz) ∧
    ∀ j, (j ≤ nl)%nat → u2 !! j = Some (Some (pred_at (header sl) lo j))).
  { destruct (level sl <? nlz) eqn:E.
    - apply Z.ltb_lt in E.
      replace (level sl + 1) with (Z.of_nat (S L)) by lia.
      replace (nlz + 1) with (Z.of_nat (S L + (nl - L))) by lia.
      rewrite py_range_from.
      destruct (fill_header_spec (header sl) (nl - L) (S L) u) as (u2 & -> & _ & Hu2).
      { rewrite Hlen. lia. }
      exists u2. cbn [bind]. split; [f_equal; f_equal; lia|].
      intros j Hj. rewrite Hu2. destruct (decide (S L ≤ j < S L + (nl - L))%nat).
      + rewrite (pred_above sl lo hi HR) by (fold L; lia). done.
      + rewrite Huj, decide_True by (fold L; lia). done.
    - apply Z.ltb_ge in E. exists u. split; [f_equal; f_equal; lia|].
      intros j Hj. rewrite Huj, decide_True by (fold L; lia). done. }
  destruct Hupd as (u2 & Hupd & Hu2).
  set (new := length (heap sl)).
  set (nd := SkipNode_init (Some k) v nlz).
  assert (Hfw : forward nd = replicate (S nl) None).
  { unfold nd, SkipNode_init, py_repeat. cbn [forward].
    replace (Z.to_nat (nlz + 1)) with (S nl) by lia. done. }
  assert (Hold : ∀ a, a ∈ header sl :: (eaddr <$> lo ++ hi) → a ≠ new).
  { intros a Ha. pose proof (Rep_addr_lt _ _ _ HR Ha). unfold new. lia. }
  assert (Hpred_old : ∀ j, pred_at (header sl) lo j ≠ new).
  { intros j. apply Hold. pose proof (pred_at_in (header sl) lo j) as Hin.
    apply elem_of_cons in Hin as [->|Hin]; [apply list_elem_of_here|].
    apply list_elem_of_further. rewrite fmap_app. apply elem_of_app. by left. }
  destruct (splice_spec u2 new (pred_at (header sl) lo) (succ_at hi) (S nl) 0
              (heap sl ++ [nd])) as (h' & Hsp & Hl' & Hi' & Hs').
  { intros j Hj. split; [apply Hu2; lia|]. split; [|split; [|apply Hpred_old]].
    - rewrite slot_snoc, decide_False by apply Hpred_old.
      apply (slot_pred _ _ _ _ ML Hlinks). lia.
    - rewrite slot_snoc, decide_True by done. rewrite Hfw.
      rewrite lookup_replicate_2 by lia. done. }
  assert (Hslot_old : ∀ a i, a ≠ new → a ≠ pred_at (header sl) lo i →
                             slot h' a i = slot (heap sl) a i).
  { intros a i Ha Hp. rewrite Hs'.
    destruct (decide (0 ≤ i < 0 + S nl)%nat).
    - rewrite decide_False by done. rewrite decide_False by done.
      by rewrite slot_snoc, decide_False.
    - by rewrite slot_snoc, decide_False. }
  assert (Hinfo_old : ∀ a, a ≠ new → info h' a = info (heap sl) a).
  { intros a Ha. by rewrite Hi', info_snoc, decide_False. }
  exists {| max_level := max_level sl; p := p sl; header := header sl;
            level := Z.max (level sl) nlz; heap := h' |}, g', nl.
  split; [|split; [by rewrite <- Hnlz|split; [|simpl; repeat split; try done]]].
  - unfold insert. rewrite Hu. cbn [bind].
    rewrite (front_spec sl lo hi HR). cbn [bind].
    rewrite (hit_spec _ _ _ Hok), Hmiss. cbn [bind].
    unfold random_level. rewrite Hrl. cbn [bind]. rewrite Hupd. cbn [bind].
    replace (nlz + 1) with (Z.of_nat (S nl)) by lia.
    rewrite py_range_nat. fold nd new. rewrite Hsp. done.
  - set (enew := {| eaddr := new; ekey := k; evalue := v; eht := nl |}).
    constructor; simpl.
    + lia.
    + rewrite Hinfo_old; [apply HR|]. apply Hold, list_elem_of_here.
    + pose proof (rep_nodes _ _ HR) as Hall. apply Forall_app in Hall as [H1 H2].
      assert (Hkeep : ∀ l, Forall (node_ok (heap sl)) l →
                (∀ e, e ∈ l → e ∈ lo ++ hi) → Forall (node_ok h') l).
      { intros l Hl Hsub. rewrite Forall_forall in Hl |- *. intros e He.
        unfold node_ok. rewrite Hinfo_old; [by apply Hl|].
        apply Hold, list_elem_of_further, list_elem_of_fmap. exists e. split; [done|].
        by apply Hsub. }
      apply Forall_app. split; [|apply Forall_cons; split].
      * apply Hkeep; [done|]. intros e He. apply elem_of_app. by left.
      * unfold node_ok, enew. simpl. rewrite Hi', info_snoc, decide_True by done.
        by rewrite Hfw, length_replicate.
      * apply Hkeep; [done|]. intros e He. apply elem_of_app. by right.
    + apply sorted_insert; [apply HR|done|done].
    + pose proof (rep_ht _ _ HR) as Hall. apply Forall_app in Hall as [H1 H2].
      apply Forall_app. split; [|apply Forall_cons; split; [simpl; lia|]];
        (eapply Forall_impl; [eassumption|]); simpl; intros; lia.
    + destruct (decide (level sl < nlz)) as [Hgt|Hle].
      * right. apply Exists_app. right. apply Exists_cons. left. simpl. lia.
      * rewrite Z.max_l by lia. destruct (rep_top _ _ HR) as [?|Hex]; [by left|right].
        rewrite Exists_app in Hex. rewrite Exists_app, Exists_cons. tauto.
    + intros i Hi. assert (HiML : (i ≤ ML)%nat) by (unfold ML; lia).
      rewrite addrs_at_app, addrs_at_cons. simpl.
      destruct (decide (i ≤ nl)%nat) as [Hin|Hout].
      * eapply (relink (heap sl) h' i (header sl) lo hi); [done| | | |].
        -- by apply (path_lo _ _ _ _ ML Hlinks).
        -- intros a Ha Hne. apply Hslot_old; [|done]. apply Hold.
           apply elem_of_cons in Ha as [->|Ha]; [apply list_elem_of_here|].
           apply list_elem_of_further. rewrite fmap_app. apply elem_of_app. by left.
        -- rewrite Hs', decide_True by lia. by rewrite decide_True.
        -- simpl. apply path_unfold. split.
           ++ rewrite Hs', decide_True by lia.
              rewrite decide_False by (intros E; by apply (Hpred_old i)).
              by rewrite decide_True.
           ++ eapply path_from_ext; [|by apply (path_hi _ _ _ _ ML Hlinks)].
              intros a Ha. apply addrs_at_sub in Ha. apply Hslot_old.
              ** apply Hold, list_elem_of_further. rewrite fmap_app.
                 apply elem_of_app. by right.
              ** by eapply pred_at_not_hi.
      * rewrite <- addrs_at_app. eapply path_ext; [|by apply Hlinks].
        intros a Ha. rewrite Hs'.
        rewrite decide_False by lia. rewrite slot_snoc, decide_False; [done|].
        apply Hold. apply elem_of_cons in Ha as [->|Ha]; [apply list_elem_of_here|].
        apply list_elem_of_further. by eapply addrs_at_sub.
    + rewrite Hl'. pose proof (rep_size _ _ HR) as Hs.
      rewrite length_app in Hs. rewrite !length_app. simpl. lia.
  - rewrite Hl', length_app. simpl. unfold new. lia.
  - by rewrite Hnlz.
Qed.

(** ** Sequences of operations *)

Lemma init_Rep ml pr :
  0 ≤ ml →
  Rep {| max_level := ml; p := pr; header := 0%nat; level := 0;
         heap := [SkipNode_init None PyNone ml] |} [].
Proof.
  intros Hml. constructor; simpl.
  - lia.
  - unfold info. simpl. unfold py_repeat. by rewrite length_replicate.
  - constructor.
  - constructor.
  - constructor.
  - by left.
  - intros i Hi. unfold slot. simpl. unfold py_repeat.
    rewrite lookup_replicate_2 by lia. done.
  - lia.
Qed.

Lemma locate_key k es :
  sorted es →
  (∃ lo e hi, es = lo ++ e :: hi ∧ Forall (λ e, ekey e < k) lo ∧ ekey e = k) ∨
  (∃ lo hi, es = lo ++ hi ∧ Forall (λ e, ekey e < k) lo ∧ Forall (λ e, k < ekey e) hi).
Proof.
  intros Hs. destruct (locate k es Hs) as (lo & hi & -> & Hlo & Hhi).
  destruct hi as [|e hi].
  - right. exists lo, []. by repeat split.
  - destruct (decide (ekey e = k)) as [Hk|Hk].
    + left. by exists lo, e, hi.
    + right. exists lo, (e :: hi). split; [done|]. split; [done|].
      apply Forall_cons in Hhi as [He _]. pose proof (sorted_after _ _ _ Hs) as Ha.
      constructor; [lia|]. eapply Forall_impl; [exact Ha|]. simpl. intros; lia.
Qed.

Lemma step_spec sl es o g fuel :
  Rep sl es → fuel_ok fuel sl →
  ∃ sl' g' es',
    step fuel o (sl, g) = Ret (sl', g') ∧ Rep sl' es' ∧
    max_level sl' = max_level sl ∧
    (length (heap sl') ≤ S (length (heap sl)))%nat ∧
    ∀ k, assoc k es' = apply_op o k (assoc k es).
Proof.
  intros HR Hfuel. destruct o as [k v|k]; simpl.
  - destruct (locate_key k es (rep_sorted _ _ HR))
      as [(lo & e & hi & -> & Hlo & Hk)|(lo & hi & -> & Hlo & Hhi)].
    + destruct (insert_existing_spec sl lo e hi k v g fuel HR Hlo Hk Hfuel)
        as (nd & Hnd & _ & Hins & HR').
      eexists _, _, _. split; [exact Hins|]. split; [exact HR'|].
      split; [done|]. split; [simpl; rewrite length_insert; lia|].
      intros k'. destruct (decide (k = k')) as [<-|Hne].
      * by rewrite assoc_present.
      * rewrite !(assoc_other k k') by done. done.
    + destruct (insert_new_spec sl lo hi k v g fuel HR Hlo Hhi Hfuel)
        as (sl' & g' & nl & Hins & _ & HR' & Hml & _ & _ & Hlen & _).
      exists sl', g'. eexists. split; [exact Hins|]. split; [exact HR'|].
      split; [done|]. split; [lia|].
      intros k'. destruct (decide (k = k')) as [<-|Hne].
      * by rewrite assoc_present.
      * rewrite (assoc_other k k') by done. done.
  - destruct (locate_key k es (rep_sorted _ _ HR))
      as [(lo & e & hi & -> & Hlo & Hk)|(lo & hi & -> & Hlo & Hhi)].
    + destruct (delete_found_spec sl lo e hi k fuel HR Hlo Hk Hfuel)
        as (sl' & Hdel & HR' & Hml & _ & _ & Hlen & _).
      rewrite Hdel. cbn [bind]. exists sl', g, (lo ++ hi).
      split; [done|]. split; [done|]. split; [done|]. split; [lia|].
      intros k'. destruct (decide (k = k')) as [<-|Hne].
      * apply assoc_absent; [done|]. rewrite <- Hk. eapply sorted_after, HR.
      * by rewrite (assoc_other k k').
    + rewrite (delete_absent_spec sl lo hi k fuel HR Hlo Hhi Hfuel). cbn [bind].
      exists sl, g, (lo ++ hi). split; [done|]. split; [done|]. split; [done|].
      split; [lia|]. intros k'. destruct (decide (k = k')) as [<-|Hne]; [|done].
      by apply assoc_absent.
Qed.

Lemma run_spec ops : ∀ sl es g fuel,
  Rep sl es →
  (length (heap sl) + length ops + Z.to_nat (max_level sl) + 1 ≤ fuel)%nat →
  ∃ sl' g' es',
    run fuel ops (sl, g) = Ret (sl', g') ∧ Rep sl' es' ∧
    max_level sl' = max_level sl ∧
    (length (heap sl') ≤ length (heap sl) + length ops)%nat ∧
    ∀ k, assoc k es' = fold_left (λ cur o, apply_op o k cur) ops (assoc k es).
Proof.
  induction ops as [|o ops IH]; intros sl es g fuel HR Hfuel.
  - exists sl, g, es. simpl.
    split; [done|]. split; [done|]. split; [done|]. split; [lia|done].
  - simpl in Hfuel.
    destruct (step_spec sl es o g fuel HR) as (sl1 & g1 & es1 & Hst & HR1 & Hml & Hlen & Has).
    { unfold fuel_ok. lia. }
    destruct (IH sl1 es1 g1 fuel HR1) as (sl2 & g2 & es2 & Hrun & HR2 & Hml2 & Hlen2 & Has2).
    { rewrite Hml. lia. }
    exists sl2, g2, es2. cbn [run]. rewrite Hst. cbn [bind].
    split; [done|]. split; [done|]. split; [congruence|]. split; [simpl; lia|].
    intros k. rewrite Has2, Has. done.
Qed.

Lemma build_spec fuel ml pr g ops :
  0 ≤ ml → enough fuel ml ops →
  ∃ sl g' es,
    build fuel ml pr g ops = Ret (sl, g') ∧ Rep sl es ∧ fuel_ok fuel sl ∧
    max_level sl = ml ∧
    (length (heap sl) + Z.to_nat ml + 2 ≤ length ops + Z.to_nat ml + 3)%nat ∧
    ∀ k, assoc k es = stored ops k.
Proof.
  intros Hml Hen. unfold build, SkipList_init. cbn [bind].
  destruct (run_spec ops _ [] g fuel (init_Rep ml pr Hml))
    as (sl & g' & es & Hrun & HR & Hm & Hlen & Has).
  { simpl. unfold enough in Hen. lia. }
  simpl in Hm, Hlen. exists sl, g', es. split; [done|]. split; [done|].
  unfold fuel_ok, enough in *. rewrite Hm.
  split; [lia|]. split; [done|]. split; [lia|done].
Qed.

(** A container built by operations, seen through the invariant. *)
Lemma built_Rep fuel ml pr g ops sl g' :
  0 ≤ ml → enough fuel ml ops →
  build fuel ml pr g ops = Ret (sl, g') →
  ∃ es, Rep sl es ∧ max_level sl = ml ∧ ∀ k, assoc k es = stored ops k.
Proof.
  intros Hml Hen Hb.
  destruct (build_spec fuel ml pr g ops Hml Hen) as (sl0 & g0 & es & Hb0 & HR & _ & Hm & _ & Has).
  rewrite Hb in Hb0. injection Hb0 as -> ->. by exists es.
Qed.

(** ** What the observers report on a represented list *)

Lemma search_assoc sl es k fuel :
  Rep sl es → fuel_ok fuel sl →
  search fuel k sl = Ret (default PyNone (assoc k es)).
Proof.
  intros HR Hfuel.
  destruct (locate_key k es (rep_sorted _ _ HR))
    as [(lo & e & hi & -> & Hlo & Hk)|(lo & hi & -> & Hlo & Hhi)].
  - assert (Hge : Forall (λ e', k ≤ ekey e') (e :: hi)).
    { constructor; [lia|]. apply Forall_lt_le. rewrite <- Hk. eapply sorted_after, HR. }
    rewrite (search_spec sl lo (e :: hi) k fuel HR Hlo Hge Hfuel).
    rewrite decide_True by done. by rewrite assoc_present.
  - rewrite (search_spec sl lo hi k fuel HR Hlo (Forall_lt_le _ _ Hhi) Hfuel).
    rewrite assoc_absent by done. destruct hi as [|e hi]; [done|].
    apply Forall_cons in Hhi as [He _]. rewrite decide_False by lia. done.
Qed.

Lemma key_in_items (es : list entry) k :
  Some k ∈ ((λ e, (Some (ekey e), evalue e)) <$> es).*1 ↔ ∃ e, e ∈ es ∧ ekey e = k.
Proof.
  rewrite <- list_fmap_compose, list_elem_of_fmap. split.
  - intros (e & [= ->] & He). by exists e.
  - intros (e & He & <-). by exists e.
Qed.

Lemma present_split sl es fuel items k :
  Rep sl es → fuel_ok fuel sl →
  get_all_items fuel sl = Ret items → Some k ∈ items.*1 →
  ∃ lo e hi, es = lo ++ e :: hi ∧ Forall (λ e, ekey e < k) lo ∧ ekey e = k.
Proof.
  intros HR Hfuel Hit Hin. rewrite (get_all_items_spec sl es fuel HR Hfuel) in Hit.
  injection Hit as <-. apply key_in_items in Hin as (e & He & Hk).
  destruct (locate_key k es (rep_sorted _ _ HR))
    as [?|(lo & hi & -> & Hlo & Hhi)]; [done|].
  rewrite Forall_forall in Hlo, Hhi.
  apply elem_of_app in He as [He|He]; [apply Hlo in He|apply Hhi in He]; lia.
Qed.

Lemma absent_split sl es fuel items k :
  Rep sl es → fuel_ok fuel sl →
  get_all_items fuel sl = Ret items → Some k ∉ items.*1 →
  ∃ lo hi, es = lo ++ hi ∧ Forall (λ e, ekey e < k) lo ∧ Forall (λ e, k < ekey e) hi.
Proof.
  intros HR Hfuel Hit Hin. rewrite (get_all_items_spec sl es fuel HR Hfuel) in Hit.
  injection Hit as <-.
  destruct (locate_key k es (rep_sorted _ _ HR))
    as [(lo & e & hi & -> & Hlo & Hk)|?]; [|done].
  exfalso. apply Hin, key_in_items. exists e. split; [|done].
  apply elem_of_app. right. apply list_elem_of_here.
Qed.

Lemma sorted_at_level i es : sorted es → sorted (at_level i es).
Proof.
  unfold sorted, at_level. induction 1 as [|e es Hs IH Hall]; [constructor|].
  rewrite filter_cons. destruct (decide (i ≤ eht e)%nat); [|done].
  constructor; [done|]. rewrite Forall_forall in Hall |- *.
  intros e' He'. apply list_elem_of_filter in He' as [_ He']. by apply Hall.
Qed.

Lemma header_forward_spec sl es i :
  Rep sl es → Z.of_nat i ≤ max_level sl →
  get_forward (heap sl) (header sl) (Z.of_nat i) = Ret (head (addrs_at i es)).
Proof.
  intros HR Hi. apply get_forward_slot.
  pose proof (rep_links _ _ HR i Hi) as Hp. apply path_unfold in Hp as [Hs _].
  by rewrite hd_or_None in Hs.
Qed.

Lemma header_above_level sl es j :
  Rep sl es → level sl < j ≤ max_level sl →
  get_forward (heap sl) (header sl) j = Ret None.
Proof.
  intros HR Hj. pose proof (rep_level _ _ HR) as Hlv.
  replace j with (Z.of_nat (Z.to_nat j)) by lia.
  rewrite (header_forward_spec sl es) by (done || lia).
  rewrite addrs_at_nil_ht; [done|].
  eapply Forall_impl; [apply (rep_ht _ _ HR)|]. simpl. intros e He. lia.
Qed.

Lemma header_at_level sl es :
  Rep sl es →
  level sl = 0 ∨ ∃ a, get_forward (heap sl) (header sl) (level sl) = Ret (Some a).
Proof.
  intros HR. pose proof (rep_level _ _ HR) as Hlv.
  destruct (rep_top _ _ HR) as [?|Hex]; [by left|right].
  apply Exists_exists in Hex as (e & He & Hht).
  replace (level sl) with (Z.of_nat (eht e)) by lia.
  rewrite (header_forward_spec sl es) by (done || lia).
  destruct (addrs_at (eht e) es) as [|a l] eqn:E; [|by exists a].
  assert (Hin : eaddr e ∈ addrs_at (eht e) es) by (apply elem_of_addrs_at; by exists e).
  rewrite E in Hin. by apply elem_of_nil in Hin.
Qed.

Lemma Rep_level_det sl sl' es : Rep sl es → Rep sl' es → level sl = level sl'.
Proof.
  intros H1 H2.
  pose proof (rep_level _ _ H1). pose proof (rep_level _ _ H2).
  pose proof (rep_ht _ _ H1) as Hh1. pose proof (rep_ht _ _ H2) as Hh2.
  rewrite Forall_forall in Hh1, Hh2.
  destruct (rep_top _ _ H1) as [E1|E1]; destruct (rep_top _ _ H2) as [E2|E2].
  - lia.
  - apply Exists_exists in E2 as (e & He & E2). specialize (Hh1 e He). lia.
  - apply Exists_exists in E1 as (e & He & E1). specialize (Hh2 e He). lia.
  - apply Exists_exists in E1 as (e1 & He1 & E1). apply Exists_exists in E2 as (e2 & He2 & E2).
    pose proof (Hh1 e2 He2). pose proof (Hh2 e1 He1). lia.
Qed.

(** * The claims *)

(** In every statement [fuel] bounds the number of iterations of each
    [while] loop of a call.  [enough fuel ml ops] makes it large enough for
    the calls considered, so an outcome [Ret _] says that the call returns
    and what it returns. *)

(** C9. For a container whose [max_level] is at least 1, [random_level]
    returns for every sequence of draws and every [p] (also [p >= 1]), within
    [max_level + 1] iterations of its loop, and the level it returns lies
    between 0 and [max_level]. *)
Theorem random_level_bounded (sl : SkipList) (g : Random) (fuel : nat) :
  1 ≤ max_level sl →
  (Z.to_nat (max_level sl) < fuel)%nat →
  ∃ l g', random_level fuel sl g = Ret (l, g') ∧ 0 ≤ l ≤ max_level sl.
Proof.
  intros Hml Hfuel. unfold random_level.
  destruct (random_level_loop_spec sl fuel 0 g) as (l & g' & Hr & Hl); [lia|lia|].
  by exists l, g'.
Qed.

Lemma random_level_bounded_witness :
  ∃ l g',
    random_level 11
      {| max_level := 10; p := 3 # 2; header := 0%nat; level := 0;
         heap := [SkipNode_init None PyNone 10] |} coin = Ret (l, g') ∧
    0 ≤ l ≤ 10.
Proof.
  apply (random_level_bounded
           {| max_level := 10; p := 3 # 2; header := 0%nat; level := 0;
              heap := [SkipNode_init None PyNone 10] |} coin 11); simpl; lia.
Defined.

(** C3, counterexample. The constructor returns a container for
    [max_level = -1] with [p = 2], and for [max_level = 0] with [p = 3/2]:
    nothing is rejected. *)
Lemma construction_accepts_invalid :
  SkipList_init (-1) 2 =
    Ret {| max_level := -1; p := 2; header := 0%nat; level := 0;
           heap := [ {| key := None; value := PyNone; forward := [] |} ] |} ∧
  SkipList_init 0 (3 # 2) =
    Ret {| max_level := 0; p := 3 # 2; header := 0%nat; level := 0;
           heap := [ {| key := None; value := PyNone; forward := [None] |} ] |}.
Proof. split; reflexivity. Qed.

(** C3, amended. The constructor validates nothing.  For every [max_level]
    from [-2^16] to [2^16], zero and the negative values included, and every
    [p], the values outside (0,1) included, it returns a container that
    holds [max_level] and [p] as given, unclamped, at level 0, with a header
    of [max(0, max_level + 1)] empty forward slots.  With [max_level >= 0] in
    that range no later sequence of inserts and deletes fails either,
    whatever [p] is.  The range keeps [[None] * (max_level + 1)] within what
    the interpreter allocates. *)
Theorem construction_never_fails (ml : Z) (pr : Q) :
  - 2 ^ 16 ≤ ml ≤ 2 ^ 16 →
  ∃ sl, SkipList_init ml pr = Ret sl ∧ max_level sl = ml ∧ p sl = pr ∧
    level sl = 0 ∧
    heap sl = [ {| key := None; value := PyNone;
                   forward := replicate (Z.to_nat (Z.max 0 (ml + 1))) None |} ] ∧
    (0 ≤ ml → ∀ g ops fuel, enough fuel ml ops →
       ∃ sl' g', run fuel ops (sl, g) = Ret (sl', g')).
Proof.
  intros Hrange. eexists. split; [reflexivity|]. cbn [max_level p level heap].
  split; [done|]. split; [done|]. split; [done|]. split.
  - unfold SkipNode_init, py_repeat. do 3 f_equal. lia.
  - intros Hml g ops fuel Hen.
    destruct (build_spec fuel ml pr g ops Hml Hen) as (sl' & g' & es & Hb & _).
    by exists sl', g'.
Qed.

Lemma construction_never_fails_witness :
  ∃ sl, SkipList_init 0 (3 # 2) = Ret sl ∧ max_level sl = 0 ∧ p sl = 3 # 2 ∧
    level sl = 0 ∧
    heap sl = [ {| key := None; value := PyNone; forward := [None] |} ] ∧
    ∃ sl' g',
      run 12 [Insert 5 (PyInt 50); Insert 2 (PyInt 20); Delete 5; Insert 8 PyNone]
        (sl, coin) = Ret (sl', g').
Proof.
  destruct (construction_never_fails 0 (3 # 2) ltac:(lia))
    as (sl & Hi & Hm & Hp & Hl & Hh & Hrun).
  exists sl. split; [exact Hi|]. split; [exact Hm|]. split; [exact Hp|].
  split; [exact Hl|]. split; [exact Hh|].
  apply Hrun; [lia|]. unfold enough. simpl. lia.
Defined.

(** C4, the failing input. After [insert(1, None)] on a fresh container the
    key 1 is listed by [get_all_items], and [1 in sl] is [False]. *)
Lemma contains_misses_none_value :
  (let* st := build 8 4 (1 # 2) coin [Insert 1 PyNone] in get_all_items 8 (fst st))
    = Ret [(Some 1, PyNone)] ∧
  (let* st := build 8 4 (1 # 2) coin [Insert 1 PyNone] in contains 8 1 (fst st))
    = Ret false.
Proof. split; vm_compute; reflexivity. Qed.

(** C1, counterexample. After [insert(1, None)], [search(1)] returns [None],
    the value [search(2)] reports for the key 2 that was never inserted: the
    not-found marker. *)
Lemma search_none_value_is_marker :
  stored [Insert 1 PyNone] 1 = Some PyNone ∧
  (let* st := build 8 4 (1 # 2) coin [Insert 1 PyNone] in search 8 1 (fst st))
    = Ret PyNone ∧
  (let* st := build 8 4 (1 # 2) coin [Insert 1 PyNone] in search 8 2 (fst st))
    = Ret PyNone.
Proof. repeat split; vm_compute; reflexivity. Qed.

(** C1, amended. After every sequence of inserts and deletes on a fresh
    container, for every key [k] whose most recent insert stored [v] and
    which was not deleted since, [search k] returns [v]; that result differs
    from the not-found marker [None] whenever [v] is not [None]. *)
Theorem search_returns_stored (ml : Z) (pr : Q) (g : Random) (ops : list op) (fuel : nat) :
  0 ≤ ml → enough fuel ml ops →
  ∃ sl g', build fuel ml pr g ops = Ret (sl, g') ∧
    ∀ k v, stored ops k = Some v →
      search fuel k sl = Ret v ∧ (v ≠ PyNone → search fuel k sl ≠ Ret PyNone).
Proof.
  intros Hml Hen.
  destruct (build_spec fuel ml pr g ops Hml Hen) as (sl & g' & es & Hb & HR & Hf & _ & _ & Has).
  exists sl, g'. split; [done|]. intros k v Hst.
  rewrite (search_assoc sl es k fuel HR Hf), Has, Hst. simpl.
  split; [done|]. intros Hv [= E]. done.
Qed.

Lemma search_returns_stored_witness :
  ∃ sl g',
    build 12 4 (1 # 2) coin
      [Insert 5 (PyStr "v5"); Insert 2 (PyStr "v2"); Insert 8 (PyStr "v8");
       Delete 5; Insert 8 (PyStr "w8")] = Ret (sl, g') ∧
    ∀ k v,
      stored [Insert 5 (PyStr "v5"); Insert 2 (PyStr "v2"); Insert 8 (PyStr "v8");
              Delete 5; Insert 8 (PyStr "w8")] k = Some v →
      search 12 k sl = Ret v ∧ (v ≠ PyNone → search 12 k sl ≠ Ret PyNone).
Proof.
  apply (search_returns_stored 4 (1 # 2) coin
           [Insert 5 (PyStr "v5"); Insert 2 (PyStr "v2"); Insert 8 (PyStr "v8");
            Delete 5; Insert 8 (PyStr "w8")] 12).
  - lia.
  - unfold enough. simpl. lia.
Defined.

(** C2. After every sequence of inserts and deletes on a fresh container,
    the keys [get_all_items] lists are strictly increasing, and so are the
    keys met along the forward chain of every level from the header. *)
Theorem chains_strictly_increasing (ml : Z) (pr : Q) (g : Random) (ops : list op)
    (fuel : nat) :
  0 ≤ ml → enough fuel ml ops →
  ∃ sl g', build fuel ml pr g ops = Ret (sl, g') ∧
    (∃ items ks, get_all_items fuel sl = Ret items ∧
                 items.*1 = Some <$> ks ∧ StronglySorted Z.lt ks) ∧
    ∀ i, 0 ≤ i ≤ max_level sl →
      ∃ ks, level_keys fuel i sl = Ret (Some <$> ks) ∧ StronglySorted Z.lt ks.
Proof.
  intros Hml Hen.
  destruct (build_spec fuel ml pr g ops Hml Hen) as (sl & g' & es & Hb & HR & Hf & _).
  exists sl, g'. split; [done|]. split.
  - exists ((λ e, (Some (ekey e), evalue e)) <$> es), (ekey <$> es).
    split; [by apply get_all_items_spec|]. split.
    + by rewrite <- !list_fmap_compose.
    + apply sorted_keys, HR.
  - intros i Hi. exists (ekey <$> at_level (Z.to_nat i) es). split.
    + replace i with (Z.of_nat (Z.to_nat i)) at 1 by lia.
      rewrite (level_keys_spec sl es fuel HR Hf) by lia.
      by rewrite <- list_fmap_compose.
    + apply sorted_keys, sorted_at_level, HR.
Qed.

Lemma chains_strictly_increasing_witness :
  ∃ sl g',
    build 12 4 (1 # 2) coin
      [Insert 5 (PyInt 50); Insert 2 (PyInt 20); Insert 8 (PyInt 80);
       Insert 1 (PyInt 10); Delete 2; Insert 9 (PyInt 90)] = Ret (sl, g') ∧
    (∃ items ks, get_all_items 12 sl = Ret items ∧
                 items.*1 = Some <$> ks ∧ StronglySorted Z.lt ks) ∧
    ∀ i, 0 ≤ i ≤ max_level sl →
      ∃ ks, level_keys 12 i sl = Ret (Some <$> ks) ∧ StronglySorted Z.lt ks.
Proof.
  apply (chains_strictly_increasing 4 (1 # 2) coin
           [Insert 5 (PyInt 50); Insert 2 (PyInt 20); Insert 8 (PyInt 80);
            Insert 1 (PyInt 10); Delete 2; Insert 9 (PyInt 90)] 12).
  - lia.
  - unfold enough. simpl. lia.
Defined.

(** C8. After every sequence of inserts and deletes on a fresh container
    (searches and enumerations leave the container as it is), every key met
    along the forward chain of a level [i >= 1] is met along the chain of
    level [i - 1]. *)
Theorem level_chain_subset (ml : Z) (pr : Q) (g : Random) (ops : list op) (fuel : nat) :
  0 ≤ ml → enough fuel ml ops →
  ∃ sl g', build fuel ml pr g ops = Ret (sl, g') ∧
    ∀ i, 1 ≤ i ≤ max_level sl →
      ∃ upper lower,
        level_keys fuel i sl = Ret upper ∧
        level_keys fuel (i - 1) sl = Ret lower ∧
        ∀ x, x ∈ upper → x ∈ lower.
Proof.
  intros Hml Hen.
  destruct (build_spec fuel ml pr g ops Hml Hen) as (sl & g' & es & Hb & HR & Hf & _).
  exists sl, g'. split; [done|]. intros i Hi.
  exists ((λ e, Some (ekey e)) <$> at_level (Z.to_nat i) es),
         ((λ e, Some (ekey e)) <$> at_level (Z.to_nat (i - 1)) es).
  split; [|split].
  - replace i with (Z.of_nat (Z.to_nat i)) at 1 by lia.
    apply (level_keys_spec sl es fuel HR Hf). lia.
  - replace (i - 1) with (Z.of_nat (Z.to_nat (i - 1))) at 1 by lia.
    apply (level_keys_spec sl es fuel HR Hf). lia.
  - intros x Hx. apply list_elem_of_fmap in Hx as (e & -> & He).
    apply list_elem_of_fmap. exists e. split; [done|].
    unfold at_level in *. apply list_elem_of_filter in He as [Hht He].
    apply list_elem_of_filter. split; [lia|done].
Qed.

Lemma level_chain_subset_witness :
  ∃ sl g',
    build 12 4 (1 # 2) coin
      [Insert 5 (PyInt 50); Insert 2 (PyInt 20); Insert 8 (PyInt 80);
       Insert 1 (PyInt 10); Delete 2; Insert 9 (PyInt 90)] = Ret (sl, g') ∧
    ∀ i, 1 ≤ i ≤ max_level sl →
      ∃ upper lower,
        level_keys 12 i sl = Ret upper ∧
        level_keys 12 (i - 1) sl = Ret lower ∧
        ∀ x, x ∈ upper → x ∈ lower.
Proof.
  apply (level_chain_subset 4 (1 # 2) coin
           [Insert 5 (PyInt 50); Insert 2 (PyInt 20); Insert 8 (PyInt 80);
            Insert 1 (PyInt 10); Delete 2; Insert 9 (PyInt 90)] 12).
  - lia.
  - unfold enough. simpl. lia.
Defined.

(** C5. On a container built by inserts and deletes, deleting a key that
    [get_all_items] lists returns [True]; afterwards [search] reports
    not-found for it, [len] is one less, the top level has moved down (never
    up) to 0 or to a level where the header has a successor, and the header
    has no forward link on any level above it. *)
Theorem delete_present (ml : Z) (pr : Q) (g : Random) (ops : list op) (fuel : nat) :
  0 ≤ ml → enough fuel ml ops →
  ∃ sl g', build fuel ml pr g ops = Ret (sl, g') ∧
    ∀ k items, get_all_items fuel sl = Ret items → Some k ∈ items.*1 →
      ∃ sl', delete fuel k sl = Ret (true, sl') ∧
        search fuel k sl' = Ret PyNone ∧
        len fuel sl = Ret (Z.of_nat (length items)) ∧
        len fuel sl' = Ret (Z.of_nat (length items) - 1) ∧
        0 ≤ level sl' ≤ level sl ∧
        (level sl' = 0 ∨
         ∃ a, get_forward (heap sl') (header sl') (level sl') = Ret (Some a)) ∧
        ∀ j, level sl' < j ≤ max_level sl' →
             get_forward (heap sl') (header sl') j = Ret None.
Proof.
  intros Hml Hen.
  destruct (build_spec fuel ml pr g ops Hml Hen) as (sl & g' & es & Hb & HR & Hf & _).
  exists sl, g'. split; [done|]. intros k items Hit Hin.
  destruct (present_split sl es fuel items k HR Hf Hit Hin) as (lo & e & hi & -> & Hlo & Hk).
  destruct (delete_found_spec sl lo e hi k fuel HR Hlo Hk Hf)
    as (sl' & Hdel & HR' & Hm & _ & _ & Hlen & Hlv).
  assert (Hf' : fuel_ok fuel sl') by (unfold fuel_ok in *; rewrite Hm, Hlen; done).
  rewrite (get_all_items_spec sl _ fuel HR Hf) in Hit. injection Hit as <-.
  exists sl'. split; [done|]. split; [|split; [|split; [|split; [|split]]]].
  - rewrite (search_assoc sl' _ k fuel HR' Hf').
    rewrite assoc_absent; [done|done|]. rewrite <- Hk. eapply sorted_after, HR.
  - rewrite (len_spec sl _ fuel HR Hf). by rewrite length_fmap.
  - rewrite (len_spec sl' _ fuel HR' Hf'). f_equal.
    rewrite length_fmap, !length_app. simpl. lia.
  - pose proof (rep_level _ _ HR'). lia.
  - by eapply header_at_level.
  - intros j Hj. by eapply header_above_level.
Qed.

Lemma delete_present_witness :
  ∃ sl g',
    build 12 4 (1 # 2) coin
      [Insert 5 (PyInt 50); Insert 2 (PyInt 20); Insert 8 (PyInt 80)] = Ret (sl, g') ∧
    ∃ sl', delete 12 5 sl = Ret (true, sl') ∧
      search 12 5 sl' = Ret PyNone ∧
      len 12 sl = Ret 3 ∧ len 12 sl' = Ret 2 ∧
      0 ≤ level sl' ≤ level sl ∧
      (level sl' = 0 ∨
       ∃ a, get_forward (heap sl') (header sl') (level sl') = Ret (Some a)) ∧
      ∀ j, level sl' < j ≤ max_level sl' →
           get_forward (heap sl') (header sl') j = Ret None.
Proof.
  destruct (delete_present 4 (1 # 2) coin
              [Insert 5 (PyInt 50); Insert 2 (PyInt 20); Insert 8 (PyInt 80)] 12)
    as (sl & g' & Hb & H).
  - lia.
  - unfold enough. simpl. lia.
  - exists sl, g'. split; [exact Hb|].
    vm_compute in Hb. injection Hb as <- <-.
    apply (H 5 [(Some 2, PyInt 20); (Some 5, PyInt 50); (Some 8, PyInt 80)]).
    + vm_compute. reflexivity.
    + simpl. apply list_elem_of_further, list_elem_of_here.
Defined.

(** C7. On a container built by inserts and deletes, deleting a key that
    [get_all_items] does not list returns [False] and leaves the container
    as it was: the same store and the same top level, hence the same [len],
    items and chains. *)
Theorem delete_absent (ml : Z) (pr : Q) (g : Random) (ops : list op) (fuel : nat) :
  0 ≤ ml → enough fuel ml ops →
  ∃ sl g', build fuel ml pr g ops = Ret (sl, g') ∧
    ∀ k items, get_all_items fuel sl = Ret items → Some k ∉ items.*1 →
      delete fuel k sl = Ret (false, sl).
Proof.
  intros Hml Hen.
  destruct (build_spec fuel ml pr g ops Hml Hen) as (sl & g' & es & Hb & HR & Hf & _).
  exists sl, g'. split; [done|]. intros k items Hit Hin.
  destruct (absent_split sl es fuel items k HR Hf Hit Hin) as (lo & hi & -> & Hlo & Hhi).
  by eapply delete_absent_spec.
Qed.

Lemma delete_absent_witness :
  ∃ sl g',
    build 12 4 (1 # 2) coin
      [Insert 5 (PyInt 50); Insert 2 (PyInt 20); Insert 8 (PyInt 80)] = Ret (sl, g') ∧
    delete 12 6 sl = Ret (false, sl).
Proof.
  destruct (delete_absent 4 (1 # 2) coin
              [Insert 5 (PyInt 50); Insert 2 (PyInt 20); Insert 8 (PyInt 80)] 12)
    as (sl & g' & Hb & H).
  - lia.
  - unfold enough. simpl. lia.
  - exists sl, g'. split; [exact Hb|].
    vm_compute in Hb. injection Hb as <- <-.
    apply (H 6 [(Some 2, PyInt 20); (Some 5, PyInt 50); (Some 8, PyInt 80)]).
    + vm_compute. reflexivity.
    + simpl. intros Hin. repeat (apply elem_of_cons in Hin as [Hin|Hin]; [discriminate|]).
      by apply elem_of_nil in Hin.
Defined.

Lemma level_keys_set_evalue i lo e v hi :
  (λ e, Some (ekey e)) <$> at_level i (lo ++ set_evalue v e :: hi)
  = (λ e, Some (ekey e)) <$> at_level i (lo ++ e :: hi).
Proof.
  unfold at_level. rewrite !filter_app, !filter_cons. simpl.
  destruct (decide (i ≤ eht e)%nat); by rewrite !fmap_app.
Qed.

(** C6. On a container built by inserts and deletes, inserting a key that
    [get_all_items] lists writes the new value into the node of that key and
    changes nothing else: the random source is left as it was, no node is
    created, [len] and the top level are the same, every node keeps its
    forward links, and the keys of the items and of every level's chain are
    the same, in the same order. *)
Theorem insert_present (ml : Z) (pr : Q) (g : Random) (ops : list op) (fuel : nat) :
  0 ≤ ml → enough fuel ml ops →
  ∃ sl g', build fuel ml pr g ops = Ret (sl, g') ∧
    ∀ k v gi items, get_all_items fuel sl = Ret items → Some k ∈ items.*1 →
      ∃ a nd sl',
        heap sl !! a = Some nd ∧ key nd = Some k ∧
        sl' = with_heap sl
                (<[a := {| key := key nd; value := v; forward := forward nd |}]> (heap sl)) ∧
        insert fuel k v gi sl = Ret (sl', gi) ∧
        search fuel k sl' = Ret v ∧
        len fuel sl' = len fuel sl ∧
        level sl' = level sl ∧
        length (heap sl') = length (heap sl) ∧
        (∀ b, forward <$> heap sl' !! b = forward <$> heap sl !! b) ∧
        (∃ items', get_all_items fuel sl' = Ret items' ∧ items'.*1 = items.*1) ∧
        ∀ i, 0 ≤ i ≤ max_level sl → level_keys fuel i sl' = level_keys fuel i sl.
Proof.
  intros Hml Hen.
  destruct (build_spec fuel ml pr g ops Hml Hen) as (sl & g' & es & Hb & HR & Hf & _).
  exists sl, g'. split; [done|]. intros k v gi items Hit Hin.
  destruct (present_split sl es fuel items k HR Hf Hit Hin) as (lo & e & hi & -> & Hlo & Hk).
  destruct (insert_existing_spec sl lo e hi k v gi fuel HR Hlo Hk Hf)
    as (nd & Hnd & Hkey & Hins & HR').
  set (sl' := with_heap sl _) in *.
  assert (Hf' : fuel_ok fuel sl').
  { unfold fuel_ok in *. simpl. by rewrite length_insert. }
  rewrite (get_all_items_spec sl _ fuel HR Hf) in Hit. injection Hit as <-.
  exists (eaddr e), nd, sl'.
  split; [done|]. split; [done|]. split; [done|]. split; [done|].
  split; [|split; [|split; [done|split; [|split; [|split]]]]].
  - rewrite (search_assoc sl' _ k fuel HR' Hf'). by rewrite assoc_present.
  - rewrite (len_spec sl' _ fuel HR' Hf'), (len_spec sl _ fuel HR Hf).
    by rewrite !length_app.
  - simpl. by rewrite length_insert.
  - intros b. unfold sl', with_heap. cbn [heap].
    destruct (decide (b = eaddr e)) as [->|Hne].
    + rewrite list_lookup_insert_eq by (by eapply lookup_lt_Some).
      exact (eq_sym (f_equal (fmap forward) Hnd)).
    + by rewrite list_lookup_insert_ne.
  - eexists. split; [apply (get_all_items_spec sl' _ fuel HR' Hf')|].
    rewrite <- !list_fmap_compose, !fmap_app. done.
  - intros i Hi. replace i with (Z.of_nat (Z.to_nat i)) by lia.
    rewrite (level_keys_spec sl' _ fuel HR' Hf') by (simpl; lia).
    rewrite (level_keys_spec sl _ fuel HR Hf) by lia.
    by rewrite level_keys_set_evalue.
Qed.

Lemma insert_present_witness :
  ∃ sl g',
    build 12 4 (1 # 2) coin
      [Insert 5 (PyInt 50); Insert 2 (PyInt 20); Insert 8 (PyInt 80)] = Ret (sl, g') ∧
    ∃ a nd sl',
      heap sl !! a = Some nd ∧ key nd = Some 5 ∧
      sl' = with_heap sl
              (<[a := {| key := key nd; value := PyStr "five"; forward := forward nd |}]>
                 (heap sl)) ∧
      insert 12 5 (PyStr "five") coin sl = Ret (sl', coin) ∧
      search 12 5 sl' = Ret (PyStr "five") ∧
      len 12 sl' = len 12 sl ∧
      level sl' = level sl ∧
      length (heap sl') = length (heap sl) ∧
      (∀ b, forward <$> heap sl' !! b = forward <$> heap sl !! b) ∧
      (∃ items', get_all_items 12 sl' = Ret items' ∧
                 items'.*1 = [Some 2; Some 5; Some 8]) ∧
      ∀ i, 0 ≤ i ≤ max_level sl → level_keys 12 i sl' = level_keys 12 i sl.
Proof.
  destruct (insert_present 4 (1 # 2) coin
              [Insert 5 (PyInt 50); Insert 2 (PyInt 20); Insert 8 (PyInt 80)] 12)
    as (sl & g' & Hb & H).
  - lia.
  - unfold enough. simpl. lia.
  - exists sl, g'. split; [exact Hb|].
    vm_compute in Hb. injection Hb as <- <-.
    apply (H 5 (PyStr "five") coin
             [(Some 2, PyInt 20); (Some 5, PyInt 50); (Some 8, PyInt 80)]).
    + vm_compute. reflexivity.
    + simpl. apply list_elem_of_further, list_elem_of_here.
Defined.

(** C10. On a container built by inserts and deletes, inserting a key that
    [get_all_items] does not list and deleting it at once gives back what
    was observed before: the same items, the same [len], the same top level
    and the same keys along every level's chain. *)
Theorem insert_delete_restores (ml : Z) (pr : Q) (g : Random) (ops : list op)
    (fuel : nat) (k : Z) (v : pyval) :
  0 ≤ ml → enough fuel ml (ops ++ [Insert k v; Delete k]) →
  ∃ sl g', build fuel ml pr g ops = Ret (sl, g') ∧
    ∀ items, get_all_items fuel sl = Ret items → Some k ∉ items.*1 →
      ∀ gi, ∃ sl1 g1 sl2,
        insert fuel k v gi sl = Ret (sl1, g1) ∧
        delete fuel k sl1 = Ret (true, sl2) ∧
        get_all_items fuel sl2 = Ret items ∧
        len fuel sl2 = len fuel sl ∧
        level sl2 = level sl ∧
        ∀ i, 0 ≤ i ≤ max_level sl → level_keys fuel i sl2 = level_keys fuel i sl.
Proof.
  intros Hml Hen.
  assert (Hen0 : enough fuel ml ops).
  { unfold enough in *. rewrite length_app in Hen. simpl in Hen. lia. }
  destruct (build_spec fuel ml pr g ops Hml Hen0)
    as (sl & g' & es & Hb & HR & Hf & Hm & Hlen & _).
  exists sl, g'. split; [done|]. intros items Hit Hin gi.
  destruct (absent_split sl es fuel items k HR Hf Hit Hin) as (lo & hi & -> & Hlo & Hhi).
  destruct (insert_new_spec sl lo hi k v gi fuel HR Hlo Hhi Hf)
    as (sl1 & g1 & nl & Hins & _ & HR1 & Hm1 & _ & _ & Hlen1 & _).
  assert (Hf1 : fuel_ok fuel sl1).
  { unfold fuel_ok, enough in *. rewrite length_app in Hen. simpl in Hen.
    rewrite Hm1, Hlen1, Hm. lia. }
  destruct (delete_found_spec sl1 lo _ hi k fuel HR1 Hlo eq_refl Hf1)
    as (sl2 & Hdel & HR2 & Hm2 & _ & _ & Hlen2 & _).
  assert (Hf2 : fuel_ok fuel sl2).
  { unfold fuel_ok in *. rewrite Hm2, Hlen2. done. }
  exists sl1, g1, sl2. split; [done|]. split; [done|].
  split; [|split; [|split]].
  - rewrite (get_all_items_spec sl2 _ fuel HR2 Hf2).
    by rewrite (get_all_items_spec sl _ fuel HR Hf) in Hit.
  - by rewrite (len_spec sl2 _ fuel HR2 Hf2), (len_spec sl _ fuel HR Hf).
  - by eapply Rep_level_det.
  - intros i Hi. replace i with (Z.of_nat (Z.to_nat i)) by lia.
    rewrite (level_keys_spec sl2 _ fuel HR2 Hf2) by lia.
    by rewrite (level_keys_spec sl _ fuel HR Hf) by lia.
Qed.

Lemma insert_delete_restores_witness :
  ∃ sl g',
    build 12 4 (1 # 2) coin
      [Insert 5 (PyInt 50); Insert 2 (PyInt 20); Insert 8 (PyInt 80)] = Ret (sl, g') ∧
    ∃ sl1 g1 sl2,
      insert 12 6 (PyInt 60) g' sl = Ret (sl1, g1) ∧
      delete 12 6 sl1 = Ret (true, sl2) ∧
      get_all_items 12 sl2 = Ret [(Some 2, PyInt 20); (Some 5, PyInt 50); (Some 8, PyInt 80)] ∧
      len 12 sl2 = len 12 sl ∧
      level sl2 = level sl ∧
      ∀ i, 0 ≤ i ≤ max_level sl → level_keys 12 i sl2 = level_keys 12 i sl.
Proof.
  destruct (insert_delete_restores 4 (1 # 2) coin
              [Insert 5 (PyInt 50); Insert 2 (PyInt 20); Insert 8 (PyInt 80)] 12
              6 (PyInt 60))
    as (sl & g' & Hb & H).
  - lia.
  - unfold enough. simpl. lia.
  - exists sl, g'. split; [exact Hb|].
    apply (H [(Some 2, PyInt 20); (Some 5, PyInt 50); (Some 8, PyInt 80)]).
    + vm_compute in Hb. injection Hb as <- _. vm_compute. reflexivity.
    + simpl. intros Hin. repeat (apply elem_of_cons in Hin as [Hin|Hin]; [discriminate|]).
      by apply elem_of_nil in Hin.
Defined.

(** * Further properties of the operations *)

(** ** Level sampling *)

Lemma Qlt_bool_iff (x y : Q) : Qlt_bool x y = true ↔ (x < y)%Q.
Proof.
  unfold Qlt_bool. rewrite negb_true_iff. split.
  - intros H. apply Qnot_le_lt. intros Hle. apply Qle_bool_iff in Hle. congruence.
  - intros H. destruct (Qle_bool y x) eqn:E; [|done].
    apply Qle_bool_iff in E. by apply Qlt_not_le in H.
Qed.

Lemma random_level_loop_exact sl : ∀ fuel lvl g,
  0 ≤ lvl ≤ max_level sl →
  (Z.to_nat (max_level sl - lvl) < fuel)%nat →
  ∃ n : nat,
    random_level_loop fuel sl lvl g
      = Ret (lvl + Z.of_nat n, {| draws := draws g; pos := (pos g + n + 1)%nat |}) ∧
    lvl + Z.of_nat n ≤ max_level sl ∧
    (∀ j, (j < n)%nat → Qlt_bool (draws g (pos g + j)%nat) (p sl) = true) ∧
    (lvl + Z.of_nat n = max_level sl ∨
     Qlt_bool (draws g (pos g + n)%nat) (p sl) = false).
Proof.
  induction fuel as [|fuel IH]; intros lvl g Hlvl Hfuel; [lia|].
  simpl. destruct (Qlt_bool (draws g (pos g)) (p sl)) eqn:Ed; simpl.
  - destruct (lvl <? max_level sl) eqn:E.
    + apply Z.ltb_lt in E.
      destruct (IH (lvl + 1) {| draws := draws g; pos := S (pos g) |})
        as (n & Hr & Hn & Hlt & Hend); [lia|lia|].
      simpl in *. exists (S n). rewrite Hr. split; [|split; [lia|split]].
      * f_equal. f_equal; [lia|]. f_equal. lia.
      * intros j Hj. destruct j as [|j].
        -- by rewrite Nat.add_0_r.
        -- replace (pos g + S j)%nat with (S (pos g + j)) by lia. apply Hlt. lia.
      * destruct Hend as [Hend|Hend]; [left; lia|right].
        by replace (pos g + S n)%nat with (S (pos g + n)) by lia.
    + apply Z.ltb_ge in E. exists 0%nat. split; [|split; [lia|split]].
      * f_equal. f_equal; [lia|]. f_equal. lia.
      * intros j Hj. lia.
      * left. lia.
  - exists 0%nat. split; [|split; [lia|split]].
    + f_equal. f_equal; [lia|]. f_equal. lia.
    + intros j Hj. lia.
    + right. by rewrite Nat.add_0_r.
Qed.

(** X1. [random_level] counts the consecutive draws that fall below [p],
    stopping at [max_level]: it returns that count [n] and has consumed
    exactly [n + 1] draws; the first [n] draws are below [p], and either
    [n] is [max_level] or the next draw is not below [p]. *)
Theorem random_level_counts_draws (sl : SkipList) (g : Random) (fuel : nat) :
  0 ≤ max_level sl →
  (Z.to_nat (max_level sl) < fuel)%nat →
  ∃ n : nat,
    random_level fuel sl g
      = Ret (Z.of_nat n, {| draws := draws g; pos := (pos g + n + 1)%nat |}) ∧
    Z.of_nat n ≤ max_level sl ∧
    (∀ j, (j < n)%nat → (draws g (pos g + j)%nat < p sl)%Q) ∧
    (Z.of_nat n = max_level sl ∨ ¬ (draws g (pos g + n)%nat < p sl)%Q).
Proof.
  intros Hml Hfuel. unfold random_level.
  destruct (random_level_loop_exact sl fuel 0 g) as (n & Hr & Hn & Hlt & Hend); [lia|lia|].
  exists n. rewrite Z.add_0_l in *. split; [done|]. split; [done|]. split.
  - intros j Hj. by apply Qlt_bool_iff, Hlt.
  - destruct Hend as [?|Hend]; [by left|right].
    intros H. apply Qlt_bool_iff in H. congruence.
Qed.

Lemma random_level_counts_draws_witness :
  ∃ n : nat,
    random_level 5
      {| max_level := 4; p := 1 # 2; header := 0%nat; level := 0;
         heap := [SkipNode_init None PyNone 4] |} coin
      = Ret (Z.of_nat n, {| draws := draws coin; pos := (pos coin + n + 1)%nat |}) ∧
    Z.of_nat n ≤ 4 ∧
    (∀ j, (j < n)%nat → (draws coin (pos coin + j)%nat < 1 # 2)%Q) ∧
    (Z.of_nat n = 4 ∨ ¬ (draws coin (pos coin + n)%nat < 1 # 2)%Q).
Proof.
  apply (random_level_counts_draws
           {| max_level := 4; p := 1 # 2; header := 0%nat; level := 0;
              heap := [SkipNode_init None PyNone 4] |} coin 5); simpl; lia.
Defined.

(** X2. When every draw is below [p] (as with [p >= 1] and draws in
    [[0, 1)]), [random_level] always returns [max_level]: every new node
    takes part in every level. *)
Theorem random_level_saturates (sl : SkipList) (g : Random) (fuel : nat) :
  0 ≤ max_level sl →
  (Z.to_nat (max_level sl) < fuel)%nat →
  (∀ j, (draws g j < p sl)%Q) →
  random_level fuel sl g
    = Ret (max_level sl,
           {| draws := draws g; pos := (pos g + Z.to_nat (max_level sl) + 1)%nat |}).
Proof.
  intros Hml Hfuel Hall. unfold random_level.
  destruct (random_level_loop_exact sl fuel 0 g) as (n & Hr & Hn & _ & Hend); [lia|lia|].
  rewrite Z.add_0_l in *. destruct Hend as [Hend|Hend].
  - rewrite Hr, Hend. f_equal. f_equal. f_equal. lia.
  - specialize (Hall (pos g + n)%nat). apply Qlt_bool_iff in Hall. congruence.
Qed.

Lemma random_level_saturates_witness :
  random_level 4
    {| max_level := 3; p := 1; header := 0%nat; level := 0;
       heap := [SkipNode_init None PyNone 3] |} coin
  = Ret (3, {| draws := draws coin; pos := (pos coin + Z.to_nat 3 + 1)%nat |}).
Proof.
  apply (random_level_saturates
           {| max_level := 3; p := 1; header := 0%nat; level := 0;
              heap := [SkipNode_init None PyNone 3] |} coin 4).
  - simpl. lia.
  - simpl. lia.
  - intros j. unfold coin. cbn [draws p]. destruct (Nat.even (j / 3)); reflexivity.
Defined.

(** X3. When no draw is below [p] (as with [p <= 0] and draws in [[0, 1)]),
    [random_level] always returns 0 after one draw: the container is a
    plain sorted linked list. *)
Theorem random_level_flat (sl : SkipList) (g : Random) (fuel : nat) :
  0 ≤ max_level sl →
  (Z.to_nat (max_level sl) < fuel)%nat →
  (∀ j, (p sl <= draws g j)%Q) →
  random_level fuel sl g = Ret (0, {| draws := draws g; pos := (pos g + 1)%nat |}).
Proof.
  intros Hml Hfuel Hall. unfold random_level.
  destruct (random_level_loop_exact sl fuel 0 g) as (n & Hr & Hn & Hlt & _); [lia|lia|].
  destruct n as [|n].
  - rewrite Hr. f_equal. f_equal. f_equal. lia.
  - specialize (Hlt 0%nat ltac:(lia)). apply Qlt_bool_iff in Hlt.
    apply Qlt_not_le in Hlt. exfalso. apply Hlt, Hall.
Qed.

Lemma random_level_flat_witness :
  random_level 4
    {| max_level := 3; p := 0; header := 0%nat; level := 0;
       heap := [SkipNode_init None PyNone 3] |} coin
  = Ret (0, {| draws := draws coin; pos := (pos coin + 1)%nat |}).
Proof.
  apply (random_level_flat
           {| max_level := 3; p := 0; header := 0%nat; level := 0;
              heap := [SkipNode_init None PyNone 3] |} coin 4).
  - simpl. lia.
  - simpl. lia.
  - intros j. unfold coin. cbn [draws p].
    destruct (Nat.even (j / 3)); unfold Qle; simpl; lia.
Defined.

(** ** The container as a finite map *)

Lemma built_with_room fuel ml pr g ops more :
  0 ≤ ml → enough fuel ml (ops ++ more) →
  ∃ sl g' es,
    build fuel ml pr g ops = Ret (sl, g') ∧ Rep sl es ∧ max_level sl = ml ∧
    (length (heap sl) + length more + Z.to_nat ml + 1 ≤ fuel)%nat ∧
    ∀ k, assoc k es = stored ops k.
Proof.
  intros Hml Hen. unfold enough in Hen. rewrite length_app in Hen.
  destruct (build_spec fuel ml pr g ops Hml) as (sl & g' & es & Hb & HR & _ & Hm & Hlen & Has).
  { unfold enough. lia. }
  exists sl, g', es. split; [done|]. split; [done|]. split; [done|]. split; [lia|done].
Qed.

Lemma item_elem (es : list entry) k v :
  (Some k, v) ∈ (λ e, (Some (ekey e), evalue e)) <$> es ↔
  ∃ e, e ∈ es ∧ ekey e = k ∧ evalue e = v.
Proof.
  rewrite list_elem_of_fmap. split.
  - intros (e & [= -> ->] & He). by exists e.
  - intros (e & He & <- & <-). by exists e.
Qed.

Lemma assoc_elem k v es :
  sorted es → assoc k es = Some v ↔ ∃ e, e ∈ es ∧ ekey e = k ∧ evalue e = v.
Proof.
  intros Hs.
  destruct (locate_key k es Hs) as [(lo & e & hi & -> & Hlo & Hk)|(lo & hi & -> & Hlo & Hhi)].
  - rewrite assoc_present by done. pose proof (sorted_after _ _ _ Hs) as Hhi.
    rewrite Forall_forall in Hlo, Hhi. split.
    + intros [= <-]. exists e. split; [|done]. apply elem_of_app. right. apply list_elem_of_here.
    + intros (e' & He' & Hk' & <-). f_equal.
      apply elem_of_app in He' as [He'|He']; [apply Hlo in He'; lia|].
      apply elem_of_cons in He' as [->|He']; [done|]. apply Hhi in He'. lia.
  - rewrite assoc_absent by done. rewrite Forall_forall in Hlo, Hhi. split; [done|].
    intros (e' & He' & Hk' & _).
    apply elem_of_app in He' as [He'|He']; [apply Hlo in He'|apply Hhi in He']; lia.
Qed.

Lemma contains_assoc sl es k fuel :
  Rep sl es → fuel_ok fuel sl →
  contains fuel k sl =
  Ret (match assoc k es with Some v => negb (is_none v) | None => false end).
Proof.
  intros HR Hf. unfold contains. rewrite (search_assoc sl es k fuel HR Hf). cbn [bind].
  by destruct (assoc k es).
Qed.

(** X4. A fresh container with [max_level >= 0] is empty, whatever [p] is:
    [len] is 0, [get_all_items] is the empty list, and for every key
    [search] returns [None], [in] is [False] and [delete] returns [False]
    leaving the container as it is. *)
Theorem fresh_container_is_empty (ml : Z) (pr : Q) (fuel : nat) (k : Z) :
  0 ≤ ml → (Z.to_nat ml + 2 ≤ fuel)%nat →
  ∃ sl, SkipList_init ml pr = Ret sl ∧
    level sl = 0 ∧
    len fuel sl = Ret 0 ∧
    get_all_items fuel sl = Ret [] ∧
    search fuel k sl = Ret PyNone ∧
    contains fuel k sl = Ret false ∧
    delete fuel k sl = Ret (false, sl).
Proof.
  intros Hml Hfuel. eexists. split; [reflexivity|].
  pose proof (init_Rep ml pr Hml) as HR.
  set (sl := {| max_level := ml |}) in *.
  assert (Hf : fuel_ok fuel sl) by (unfold fuel_ok; simpl; lia).
  split; [done|]. split; [|split; [|split; [|split]]].
  - by rewrite (len_spec sl [] fuel HR Hf).
  - by rewrite (get_all_items_spec sl [] fuel HR Hf).
  - by rewrite (search_assoc sl [] k fuel HR Hf).
  - by rewrite (contains_assoc sl [] k fuel HR Hf).
  - by apply (delete_absent_spec sl [] [] k fuel).
Qed.

Lemma fresh_container_is_empty_witness :
  ∃ sl, SkipList_init 16 (1 # 2) = Ret sl ∧
    level sl = 0 ∧
    len 18 sl = Ret 0 ∧
    get_all_items 18 sl = Ret [] ∧
    search 18 7 sl = Ret PyNone ∧
    contains 18 7 sl = Ret false ∧
    delete 18 7 sl = Ret (false, sl).
Proof. apply (fresh_container_is_empty 16 (1 # 2) 18 7); simpl; lia. Defined.

(** X5. After every sequence of inserts and deletes on a fresh container,
    [get_all_items] lists exactly the live bindings: the pair [(k, v)] is
    listed if and only if the most recent insert of [k] stored [v] and [k]
    was not deleted since; no key is listed twice and the header is never
    listed. *)
Theorem items_are_live_bindings (ml : Z) (pr : Q) (g : Random) (ops : list op)
    (fuel : nat) :
  0 ≤ ml → enough fuel ml ops →
  ∃ sl g' items,
    build fuel ml pr g ops = Ret (sl, g') ∧
    get_all_items fuel sl = Ret items ∧
    NoDup items.*1 ∧
    (None ∉ items.*1) ∧
    ∀ k v, (Some k, v) ∈ items ↔ stored ops k = Some v.
Proof.
  intros Hml Hen.
  destruct (build_spec fuel ml pr g ops Hml Hen) as (sl & g' & es & Hb & HR & Hf & _ & _ & Has).
  exists sl, g', ((λ e, (Some (ekey e), evalue e)) <$> es).
  split; [done|]. split; [by apply get_all_items_spec|].
  rewrite <- list_fmap_compose. split; [|split].
  - rewrite (list_fmap_compose ekey Some). apply NoDup_fmap; [by intros ?? [= ->]|].
    pose proof (rep_sorted _ _ HR) as Hs. apply sorted_keys in Hs.
    clear -Hs. induction Hs as [|x l Hs IH Hx]; constructor; [|done].
    intros Hin. rewrite Forall_forall in Hx. apply Hx in Hin. lia.
  - intros Hin. apply list_elem_of_fmap in Hin as (e & [=] & _).
  - intros k v. rewrite item_elem, <- Has. symmetry. apply assoc_elem, HR.
Qed.

Lemma items_are_live_bindings_witness :
  ∃ sl g' items,
    build 12 4 (1 # 2) coin
      [Insert 5 (PyInt 50); Insert 2 (PyInt 20); Delete 5; Insert 2 (PyInt 21)]
      = Ret (sl, g') ∧
    get_all_items 12 sl = Ret items ∧
    NoDup items.*1 ∧
    (None ∉ items.*1) ∧
    ∀ k v, (Some k, v) ∈ items ↔
           stored [Insert 5 (PyInt 50); Insert 2 (PyInt 20); Delete 5; Insert 2 (PyInt 21)] k
           = Some v.
Proof.
  apply (items_are_live_bindings 4 (1 # 2) coin
           [Insert 5 (PyInt 50); Insert 2 (PyInt 20); Delete 5; Insert 2 (PyInt 21)] 12).
  - lia.
  - unfold enough. simpl. lia.
Defined.

(** X6. On a container built by inserts and deletes, [search] agrees with
    the enumeration: for a key [get_all_items] pairs with [v] it returns
    [v], and for a key that is not listed it returns [None] and raises
    nothing. *)
Theorem search_agrees_with_items (ml : Z) (pr : Q) (g : Random) (ops : list op)
    (fuel : nat) :
  0 ≤ ml → enough fuel ml ops →
  ∃ sl g' items,
    build fuel ml pr g ops = Ret (sl, g') ∧
    get_all_items fuel sl = Ret items ∧
    ∀ k, (∀ v, (Some k, v) ∈ items → search fuel k sl = Ret v) ∧
         (Some k ∉ items.*1 → search fuel k sl = Ret PyNone).
Proof.
  intros Hml Hen.
  destruct (build_spec fuel ml pr g ops Hml Hen) as (sl & g' & es & Hb & HR & Hf & _).
  exists sl, g', ((λ e, (Some (ekey e), evalue e)) <$> es).
  split; [done|]. split; [by apply get_all_items_spec|].
  intros k. rewrite (search_assoc sl es k fuel HR Hf). split.
  - intros v Hin. apply item_elem in Hin.
    apply (assoc_elem k v es (rep_sorted _ _ HR)) in Hin. by rewrite Hin.
  - intros Hin. destruct (assoc k es) as [v|] eqn:E; [|done].
    exfalso. apply Hin. apply (assoc_elem k v es (rep_sorted _ _ HR)) in E as (e & He & Hk & _).
    apply key_in_items. by exists e.
Qed.

Lemma search_agrees_with_items_witness :
  ∃ sl g' items,
    build 12 4 (1 # 2) coin
      [Insert 5 (PyInt 50); Insert 2 (PyInt 20); Insert 8 (PyInt 80)] = Ret (sl, g') ∧
    get_all_items 12 sl = Ret items ∧
    ∀ k, (∀ v, (Some k, v) ∈ items → search 12 k sl = Ret v) ∧
         (Some k ∉ items.*1 → search 12 k sl = Ret PyNone).
Proof.
  apply (search_agrees_with_items 4 (1 # 2) coin
           [Insert 5 (PyInt 50); Insert 2 (PyInt 20); Insert 8 (PyInt 80)] 12).
  - lia.
  - unfold enough. simpl. lia.
Defined.

(** X7. What [in] reports: after every sequence of inserts and deletes,
    [k in sl] is [True] exactly when [k] is stored with a value other than
    [None]; it is [False] for a key that is absent and for a key stored
    with [None]. *)
Theorem contains_iff_value_not_none (ml : Z) (pr : Q) (g : Random) (ops : list op)
    (fuel : nat) :
  0 ≤ ml → enough fuel ml ops →
  ∃ sl g',
    build fuel ml pr g ops = Ret (sl, g') ∧
    ∀ k, contains fuel k sl =
         Ret (match stored ops k with
              | Some v => negb (is_none v)
              | None => false
              end).
Proof.
  intros Hml Hen.
  destruct (build_spec fuel ml pr g ops Hml Hen) as (sl & g' & es & Hb & HR & Hf & _ & _ & Has).
  exists sl, g'. split; [done|]. intros k.
  by rewrite (contains_assoc sl es k fuel HR Hf), Has.
Qed.

Lemma contains_iff_value_not_none_witness :
  ∃ sl g',
    build 12 4 (1 # 2) coin
      [Insert 5 (PyInt 50); Insert 2 PyNone; Insert 8 (PyInt 80); Delete 8] = Ret (sl, g') ∧
    ∀ k, contains 12 k sl =
         Ret (match stored [Insert 5 (PyInt 50); Insert 2 PyNone; Insert 8 (PyInt 80);
                            Delete 8] k with
              | Some v => negb (is_none v)
              | None => false
              end).
Proof.
  apply (contains_iff_value_not_none 4 (1 # 2) coin
           [Insert 5 (PyInt 50); Insert 2 PyNone; Insert 8 (PyInt 80); Delete 8] 12).
  - lia.
  - unfold enough. simpl. lia.
Defined.

(** ** How one operation changes the enumeration *)

Lemma Forall_items_lt k (es : list entry) :
  Forall (λ e, ekey e < k) es →
  Forall (λ it : option Z * pyval, ∃ k', it.1 = Some k' ∧ k' < k)
         ((λ e, (Some (ekey e), evalue e)) <$> es).
Proof.
  intros H. apply Forall_fmap. eapply Forall_impl; [exact H|].
  simpl. intros e He. by exists (ekey e).
Qed.

Lemma Forall_items_gt k (es : list entry) :
  Forall (λ e, k < ekey e) es →
  Forall (λ it : option Z * pyval, ∃ k', it.1 = Some k' ∧ k < k')
         ((λ e, (Some (ekey e), evalue e)) <$> es).
Proof.
  intros H. apply Forall_fmap. eapply Forall_impl; [exact H|].
  simpl. intros e He. by exists (ekey e).
Qed.

(** X8. On a container built by inserts and deletes, [insert k v] puts the
    pair [(k, v)] at its place in key order and leaves every other item as
    it was: the items before it (all with smaller keys) and after it (all
    with larger keys) are the old ones, in the old order, and the only item
    that can disappear is the old pair of [k]. *)
Theorem insert_places_item (ml : Z) (pr : Q) (g : Random) (ops : list op)
    (fuel : nat) (k : Z) (v : pyval) :
  0 ≤ ml → enough fuel ml (ops ++ [Insert k v]) →
  ∃ sl g', build fuel ml pr g ops = Ret (sl, g') ∧
    ∀ gi, ∃ sl1 g1 before after,
      insert fuel k v gi sl = Ret (sl1, g1) ∧
      get_all_items fuel sl1 = Ret (before ++ (Some k, v) :: after) ∧
      (get_all_items fuel sl = Ret (before ++ after) ∨
       ∃ v0, get_all_items fuel sl = Ret (before ++ (Some k, v0) :: after)) ∧
      Forall (λ it, ∃ k', it.1 = Some k' ∧ k' < k) before ∧
      Forall (λ it, ∃ k', it.1 = Some k' ∧ k < k') after.
Proof.
  intros Hml Hen.
  destruct (built_with_room fuel ml pr g ops [Insert k v] Hml Hen)
    as (sl & g' & es & Hb & HR & Hm & Hroom & _).
  simpl in Hroom.
  assert (Hf : fuel_ok fuel sl) by (unfold fuel_ok; rewrite Hm; lia).
  exists sl, g'. split; [done|]. intros gi.
  destruct (locate_key k es (rep_sorted _ _ HR))
    as [(lo & e & hi & -> & Hlo & Hk)|(lo & hi & -> & Hlo & Hhi)].
  - destruct (insert_existing_spec sl lo e hi k v gi fuel HR Hlo Hk Hf)
      as (nd & _ & _ & Hins & HR').
    set (sl' := with_heap sl _) in *.
    assert (Hf' : fuel_ok fuel sl').
    { unfold fuel_ok in *. simpl. by rewrite length_insert. }
    exists sl', gi, ((λ e, (Some (ekey e), evalue e)) <$> lo),
           ((λ e, (Some (ekey e), evalue e)) <$> hi).
    split; [done|]. split; [|split; [|split]].
    + rewrite (get_all_items_spec sl' _ fuel HR' Hf'), fmap_app. csimpl. by rewrite Hk.
    + right. exists (evalue e).
      rewrite (get_all_items_spec sl _ fuel HR Hf), fmap_app. csimpl. by rewrite Hk.
    + by apply Forall_items_lt.
    + apply Forall_items_gt. rewrite <- Hk. eapply sorted_after, HR.
  - destruct (insert_new_spec sl lo hi k v gi fuel HR Hlo Hhi Hf)
      as (sl1 & g1 & nl & Hins & _ & HR1 & Hm1 & _ & _ & Hlen1 & _).
    assert (Hf1 : fuel_ok fuel sl1).
    { unfold fuel_ok. rewrite Hm1, Hlen1, Hm. lia. }
    exists sl1, g1, ((λ e, (Some (ekey e), evalue e)) <$> lo),
           ((λ e, (Some (ekey e), evalue e)) <$> hi).
    split; [done|]. split; [|split; [|split]].
    + by rewrite (get_all_items_spec sl1 _ fuel HR1 Hf1), fmap_app.
    + left. by rewrite (get_all_items_spec sl _ fuel HR Hf), fmap_app.
    + by apply Forall_items_lt.
    + by apply Forall_items_gt.
Qed.

Lemma insert_places_item_witness :
  ∃ sl g',
    build 12 4 (1 # 2) coin
      [Insert 5 (PyInt 50); Insert 2 (PyInt 20); Insert 8 (PyInt 80)] = Ret (sl, g') ∧
    ∀ gi, ∃ sl1 g1 before after,
      insert 12 6 (PyInt 60) gi sl = Ret (sl1, g1) ∧
      get_all_items 12 sl1 = Ret (before ++ (Some 6, PyInt 60) :: after) ∧
      (get_all_items 12 sl = Ret (before ++ after) ∨
       ∃ v0, get_all_items 12 sl = Ret (before ++ (Some 6, v0) :: after)) ∧
      Forall (λ it, ∃ k', it.1 = Some k' ∧ k' < 6) before ∧
      Forall (λ it, ∃ k', it.1 = Some k' ∧ 6 < k') after.
Proof.
  apply (insert_places_item 4 (1 # 2) coin
           [Insert 5 (PyInt 50); Insert 2 (PyInt 20); Insert 8 (PyInt 80)] 12
           6 (PyInt 60)).
  - lia.
  - unfold enough. simpl. lia.
Defined.

(** X9. On a container built by inserts and deletes, inserting a key that
    [get_all_items] does not list creates exactly one node: [len] grows by
    one, the node's level [nl] is the one [random_level] drew (the random
    source advances by that call only), the new key is on the chain of
    level [i] exactly for [i <= nl], and the top level becomes the larger
    of the old top level and [nl]. *)
Theorem insert_absent_grows (ml : Z) (pr : Q) (g : Random) (ops : list op)
    (fuel : nat) (k : Z) (v : pyval) :
  0 ≤ ml → enough fuel ml (ops ++ [Insert k v]) →
  ∃ sl g', build fuel ml pr g ops = Ret (sl, g') ∧
    ∀ items gi, get_all_items fuel sl = Ret items → Some k ∉ items.*1 →
      ∃ sl1 g1 nl,
        insert fuel k v gi sl = Ret (sl1, g1) ∧
        random_level fuel sl gi = Ret (nl, g1) ∧
        0 ≤ nl ≤ max_level sl ∧
        len fuel sl1 = Ret (Z.of_nat (length items) + 1) ∧
        length (heap sl1) = S (length (heap sl)) ∧
        level sl1 = Z.max (level sl) nl ∧
        ∀ i, 0 ≤ i ≤ max_level sl →
          ∃ ks, level_keys fuel i sl1 = Ret ks ∧ (Some k ∈ ks ↔ i ≤ nl).
Proof.
  intros Hml Hen.
  destruct (built_with_room fuel ml pr g ops [Insert k v] Hml Hen)
    as (sl & g' & es & Hb & HR & Hm & Hroom & _).
  simpl in Hroom.
  assert (Hf : fuel_ok fuel sl) by (unfold fuel_ok; rewrite Hm; lia).
  exists sl, g'. split; [done|]. intros items gi Hit Hin.
  destruct (absent_split sl es fuel items k HR Hf Hit Hin) as (lo & hi & -> & Hlo & Hhi).
  destruct (insert_new_spec sl lo hi k v gi fuel HR Hlo Hhi Hf)
    as (sl1 & g1 & nl & Hins & Hrl & HR1 & Hm1 & _ & _ & Hlen1 & Hlv1).
  assert (Hf1 : fuel_ok fuel sl1).
  { unfold fuel_ok. rewrite Hm1, Hlen1, Hm. lia. }
  rewrite (get_all_items_spec sl _ fuel HR Hf) in Hit. injection Hit as <-.
  assert (Hnl : Z.of_nat nl ≤ max_level sl).
  { pose proof (rep_ht _ _ HR1) as Hh. apply Forall_app in Hh as [_ Hh].
    apply Forall_cons in Hh as [Hh _]. simpl in Hh.
    pose proof (rep_level _ _ HR1). lia. }
  exists sl1, g1, (Z.of_nat nl).
  split; [done|]. split; [done|]. split; [lia|]. split; [|split; [done|split; [done|]]].
  - rewrite (len_spec sl1 _ fuel HR1 Hf1). f_equal.
    rewrite length_fmap, !length_app. simpl. lia.
  - intros i Hi. eexists. split.
    + replace i with (Z.of_nat (Z.to_nat i)) at 1 by lia.
      apply (level_keys_spec sl1 _ fuel HR1 Hf1). lia.
    + rewrite list_elem_of_fmap. unfold at_level. split.
      * intros (e & [= Hk] & He). apply list_elem_of_filter in He as [Hht He].
        rewrite Forall_forall in Hlo, Hhi.
        apply elem_of_app in He as [He|He]; [apply Hlo in He; lia|].
        apply elem_of_cons in He as [->|He]; [simpl in Hht; lia|].
        apply Hhi in He. lia.
      * intros Hle. eexists. split; [|apply list_elem_of_filter; split;
          [|apply elem_of_app; right; apply list_elem_of_here]]; simpl; [done|lia].
Qed.

Lemma insert_absent_grows_witness :
  ∃ sl g',
    build 12 4 (1 # 2) coin
      [Insert 5 (PyInt 50); Insert 2 (PyInt 20); Insert 8 (PyInt 80)] = Ret (sl, g') ∧
    ∃ sl1 g1 nl,
      insert 12 6 (PyInt 60) g' sl = Ret (sl1, g1) ∧
      random_level 12 sl g' = Ret (nl, g1) ∧
      0 ≤ nl ≤ max_level sl ∧
      len 12 sl1 = Ret 4 ∧
      length (heap sl1) = S (length (heap sl)) ∧
      level sl1 = Z.max (level sl) nl ∧
      ∀ i, 0 ≤ i ≤ max_level sl →
        ∃ ks, level_keys 12 i sl1 = Ret ks ∧ (Some 6 ∈ ks ↔ i ≤ nl).
Proof.
  destruct (insert_absent_grows 4 (1 # 2) coin
              [Insert 5 (PyInt 50); Insert 2 (PyInt 20); Insert 8 (PyInt 80)] 12
              6 (PyInt 60))
    as (sl & g' & Hb & H).
  - lia.
  - unfold enough. simpl. lia.
  - exists sl, g'. split; [exact Hb|].
    apply (H [(Some 2, PyInt 20); (Some 5, PyInt 50); (Some 8, PyInt 80)]).
    + vm_compute in Hb. injection Hb as <- _. vm_compute. reflexivity.
    + simpl. intros Hin. repeat (apply elem_of_cons in Hin as [Hin|Hin]; [discriminate|]).
      by apply elem_of_nil in Hin.
Defined.

(** X10. On a container built by inserts and deletes, deleting a listed key
    removes its pair from the enumeration and nothing else: the other items
    keep their values and their order; no node is created or dropped from
    the store. *)
Theorem delete_removes_item (ml : Z) (pr : Q) (g : Random) (ops : list op) (fuel : nat) :
  0 ≤ ml → enough fuel ml ops →
  ∃ sl g', build fuel ml pr g ops = Ret (sl, g') ∧
    ∀ k items, get_all_items fuel sl = Ret items → Some k ∈ items.*1 →
      ∃ sl' before v after,
        delete fuel k sl = Ret (true, sl') ∧
        items = before ++ (Some k, v) :: after ∧
        get_all_items fuel sl' = Ret (before ++ after) ∧
        length (heap sl') = length (heap sl).
Proof.
  intros Hml Hen.
  destruct (build_spec fuel ml pr g ops Hml Hen) as (sl & g' & es & Hb & HR & Hf & _).
  exists sl, g'. split; [done|]. intros k items Hit Hin.
  destruct (present_split sl es fuel items k HR Hf Hit Hin) as (lo & e & hi & -> & Hlo & Hk).
  destruct (delete_found_spec sl lo e hi k fuel HR Hlo Hk Hf)
    as (sl' & Hdel & HR' & Hm & _ & _ & Hlen & _).
  assert (Hf' : fuel_ok fuel sl') by (unfold fuel_ok in *; rewrite Hm, Hlen; done).
  rewrite (get_all_items_spec sl _ fuel HR Hf) in Hit. injection Hit as <-.
  exists sl', ((λ e, (Some (ekey e), evalue e)) <$> lo), (evalue e),
         ((λ e, (Some (ekey e), evalue e)) <$> hi).
  split; [done|]. split; [|split; [|done]].
  - rewrite fmap_app. csimpl. by rewrite Hk.
  - by rewrite (get_all_items_spec sl' _ fuel HR' Hf'), fmap_app.
Qed.

Lemma delete_removes_item_witness :
  ∃ sl g',
    build 12 4 (1 # 2) coin
      [Insert 5 (PyInt 50); Insert 2 (PyInt 20); Insert 8 (PyInt 80)] = Ret (sl, g') ∧
    ∃ sl' before v after,
      delete 12 5 sl = Ret (true, sl') ∧
      [(Some 2, PyInt 20); (Some 5, PyInt 50); (Some 8, PyInt 80)]
        = before ++ (Some 5, v) :: after ∧
      get_all_items 12 sl' = Ret (before ++ after) ∧
      length (heap sl') = length (heap sl).
Proof.
  destruct (delete_removes_item 4 (1 # 2) coin
              [Insert 5 (PyInt 50); Insert 2 (PyInt 20); Insert 8 (PyInt 80)] 12)
    as (sl & g' & Hb & H).
  - lia.
  - unfold enough. simpl. lia.
  - exists sl, g'. split; [exact Hb|].
    apply (H 5 [(Some 2, PyInt 20); (Some 5, PyInt 50); (Some 8, PyInt 80)]).
    + vm_compute in Hb. injection Hb as <- _. vm_compute. reflexivity.
    + simpl. apply list_elem_of_further, list_elem_of_here.
Defined.

(** ** Composition of operations *)

Lemma step_delete_result fuel k sl g sl' g' :
  step fuel (Delete k) (sl, g) = Ret (sl', g') →
  ∃ b, delete fuel k sl = Ret (b, sl').
Proof.
  simpl. destruct (delete fuel k sl) as [[b s]| |]; simpl; [|done|done].
  intros [= -> _]. by exists b.
Qed.

(** X11. On a container built by inserts and deletes, neither [insert k v]
    nor [delete k] changes what [search] returns for any other key. *)
Theorem other_keys_untouched (ml : Z) (pr : Q) (g : Random) (ops : list op)
    (fuel : nat) (k : Z) (v : pyval) :
  0 ≤ ml → enough fuel ml (ops ++ [Insert k v]) →
  ∃ sl g', build fuel ml pr g ops = Ret (sl, g') ∧
    ∀ gi, ∃ sl1 g1 b sl2,
      insert fuel k v gi sl = Ret (sl1, g1) ∧
      delete fuel k sl = Ret (b, sl2) ∧
      ∀ k', k' ≠ k →
        search fuel k' sl1 = search fuel k' sl ∧
        search fuel k' sl2 = search fuel k' sl.
Proof.
  intros Hml Hen.
  destruct (built_with_room fuel ml pr g ops [Insert k v] Hml Hen)
    as (sl & g' & es & Hb & HR & Hm & Hroom & _).
  simpl in Hroom.
  assert (Hf : fuel_ok fuel sl) by (unfold fuel_ok; rewrite Hm; lia).
  exists sl, g'. split; [done|]. intros gi.
  destruct (step_spec sl es (Insert k v) gi fuel HR Hf)
    as (sl1 & g1 & es1 & Hst1 & HR1 & Hm1 & Hlen1 & Has1).
  destruct (step_spec sl es (Delete k) gi fuel HR Hf)
    as (sl2 & g2 & es2 & Hst2 & HR2 & Hm2 & Hlen2 & Has2).
  destruct (step_delete_result _ _ _ _ _ _ Hst2) as (b & Hdel).
  assert (Hf1 : fuel_ok fuel sl1) by (unfold fuel_ok; rewrite Hm1, Hm; lia).
  assert (Hf2 : fuel_ok fuel sl2) by (unfold fuel_ok; rewrite Hm2, Hm; lia).
  exists sl1, g1, b, sl2. split; [exact Hst1|]. split; [done|].
  intros k' Hne.
  rewrite (search_assoc sl1 es1 k' fuel HR1 Hf1), (search_assoc sl2 es2 k' fuel HR2 Hf2),
    (search_assoc sl es k' fuel HR Hf), Has1, Has2.
  simpl. rewrite !decide_False by congruence. done.
Qed.

Lemma other_keys_untouched_witness :
  ∃ sl g',
    build 12 4 (1 # 2) coin
      [Insert 5 (PyInt 50); Insert 2 (PyInt 20); Insert 8 (PyInt 80)] = Ret (sl, g') ∧
    ∀ gi, ∃ sl1 g1 b sl2,
      insert 12 5 (PyInt 55) gi sl = Ret (sl1, g1) ∧
      delete 12 5 sl = Ret (b, sl2) ∧
      ∀ k', k' ≠ 5 →
        search 12 k' sl1 = search 12 k' sl ∧
        search 12 k' sl2 = search 12 k' sl.
Proof.
  apply (other_keys_untouched 4 (1 # 2) coin
           [Insert 5 (PyInt 50); Insert 2 (PyInt 20); Insert 8 (PyInt 80)] 12
           5 (PyInt 55)).
  - lia.
  - unfold enough. simpl. lia.
Defined.

(** X12. On a container built by inserts and deletes, once [delete k] has
    run (whatever it returned) the key is gone: [search k] returns [None],
    and a second [delete k] returns [False] and changes nothing. *)
Theorem delete_twice (ml : Z) (pr : Q) (g : Random) (ops : list op)
    (fuel : nat) (k : Z) :
  0 ≤ ml → enough fuel ml (ops ++ [Delete k]) →
  ∃ sl g' b sl1,
    build fuel ml pr g ops = Ret (sl, g') ∧
    delete fuel k sl = Ret (b, sl1) ∧
    search fuel k sl1 = Ret PyNone ∧
    delete fuel k sl1 = Ret (false, sl1).
Proof.
  intros Hml Hen.
  destruct (built_with_room fuel ml pr g ops [Delete k] Hml Hen)
    as (sl & g' & es & Hb & HR & Hm & Hroom & _).
  simpl in Hroom.
  assert (Hf : fuel_ok fuel sl) by (unfold fuel_ok; rewrite Hm; lia).
  destruct (step_spec sl es (Delete k) g' fuel HR Hf)
    as (sl1 & g1 & es1 & Hst & HR1 & Hm1 & Hlen1 & Has1).
  destruct (step_delete_result _ _ _ _ _ _ Hst) as (b & Hdel).
  assert (Hf1 : fuel_ok fuel sl1) by (unfold fuel_ok; rewrite Hm1, Hm; lia).
  assert (Hnone : assoc k es1 = None).
  { rewrite Has1. simpl. by rewrite decide_True. }
  exists sl, g', b, sl1. split; [done|]. split; [done|]. split.
  - by rewrite (search_assoc sl1 es1 k fuel HR1 Hf1), Hnone.
  - destruct (locate_key k es1 (rep_sorted _ _ HR1))
      as [(lo & e & hi & -> & Hlo & Hk)|(lo & hi & -> & Hlo & Hhi)].
    + by rewrite assoc_present in Hnone.
    + by eapply delete_absent_spec.
Qed.

Lemma delete_twice_witness :
  ∃ sl g' b sl1,
    build 12 4 (1 # 2) coin
      [Insert 5 (PyInt 50); Insert 2 (PyInt 20); Insert 8 (PyInt 80)] = Ret (sl, g') ∧
    delete 12 5 sl = Ret (b, sl1) ∧
    search 12 5 sl1 = Ret PyNone ∧
    delete 12 5 sl1 = Ret (false, sl1).
Proof.
  apply (delete_twice 4 (1 # 2) coin
           [Insert 5 (PyInt 50); Insert 2 (PyInt 20); Insert 8 (PyInt 80)] 12 5).
  - lia.
  - unfold enough. simpl. lia.
Defined.

(** ** Invariants of the level structure *)

(** X13. After every sequence of inserts and deletes on a fresh container,
    the top level stays between 0 and [max_level], no level above it holds
    a node, and no level from 1 up to it is empty: [display] never shows an
    empty level above level 0. *)
Theorem top_level_invariant (ml : Z) (pr : Q) (g : Random) (ops : list op) (fuel : nat) :
  0 ≤ ml → enough fuel ml ops →
  ∃ sl g', build fuel ml pr g ops = Ret (sl, g') ∧
    max_level sl = ml ∧
    0 ≤ level sl ≤ max_level sl ∧
    ∀ i, 0 ≤ i ≤ max_level sl →
      ∃ ks, level_keys fuel i sl = Ret ks ∧
            (level sl < i → ks = []) ∧
            (0 < i ≤ level sl → ks ≠ []).
Proof.
  intros Hml Hen.
  destruct (build_spec fuel ml pr g ops Hml Hen) as (sl & g' & es & Hb & HR & Hf & Hm & _).
  exists sl, g'. split; [done|]. split; [done|]. split; [apply HR|].
  intros i Hi. eexists. split; [|split].
  - replace i with (Z.of_nat (Z.to_nat i)) at 1 by lia.
    apply (level_keys_spec sl es fuel HR Hf). lia.
  - intros Hlt. unfold at_level.
    assert (E : filter (λ e, (Z.to_nat i ≤ eht e)%nat) es = []); [|by rewrite E].
    pose proof (rep_ht _ _ HR) as Hh. clear -Hh Hlt Hi.
    induction Hh as [|e es He _ IH]; [done|].
    rewrite filter_cons_False by lia. done.
  - intros Hpos Hnil. destruct (rep_top _ _ HR) as [?|Hex]; [lia|].
    apply Exists_exists in Hex as (e & He & Hht).
    apply fmap_nil_inv in Hnil.
    assert (Hin : e ∈ at_level (Z.to_nat i) es).
    { unfold at_level. apply list_elem_of_filter. split; [lia|done]. }
    rewrite Hnil in Hin. by apply elem_of_nil in Hin.
Qed.

Lemma top_level_invariant_witness :
  ∃ sl g',
    build 12 4 (1 # 2) coin
      [Insert 5 (PyInt 50); Insert 2 (PyInt 20); Insert 8 (PyInt 80); Delete 5]
      = Ret (sl, g') ∧
    max_level sl = 4 ∧
    0 ≤ level sl ≤ max_level sl ∧
    ∀ i, 0 ≤ i ≤ max_level sl →
      ∃ ks, level_keys 12 i sl = Ret ks ∧
            (level sl < i → ks = []) ∧
            (0 < i ≤ level sl → ks ≠ []).
Proof.
  apply (top_level_invariant 4 (1 # 2) coin
           [Insert 5 (PyInt 50); Insert 2 (PyInt 20); Insert 8 (PyInt 80); Delete 5] 12).
  - lia.
  - unfold enough. simpl. lia.
Defined.

(** ** Independence of the random draws *)

Lemma assoc_cons k e es :
  assoc k (e :: es) = if decide (ekey e = k) then Some (evalue e) else assoc k es.
Proof.
  unfold assoc. rewrite filter_cons. by destruct (decide (ekey e = k)).
Qed.

Lemma assoc_below k e es : sorted (e :: es) → k ≤ ekey e → assoc k es = None.
Proof.
  intros Hs Hk. apply StronglySorted_cons in Hs as [Hall _].
  unfold assoc. rewrite (filter_key_nil k (λ x, ekey e < x)); [done| |lia].
  exact Hall.
Qed.

Lemma sorted_tail e es : sorted (e :: es) → sorted es.
Proof. intros Hs. by apply StronglySorted_cons in Hs as [_ ?]. Qed.

Lemma sorted_assoc_ext es1 : ∀ es2,
  sorted es1 → sorted es2 →
  (∀ k, assoc k es1 = assoc k es2) →
  (λ e, (Some (ekey e), evalue e)) <$> es1 = (λ e, (Some (ekey e), evalue e)) <$> es2.
Proof.
  induction es1 as [|e1 t1 IH]; intros [|e2 t2] Hs1 Hs2 Hext.
  - done.
  - specialize (Hext (ekey e2)). rewrite assoc_cons, decide_True in Hext by done. done.
  - specialize (Hext (ekey e1)). rewrite assoc_cons, decide_True in Hext by done. done.
  - pose proof (Hext (ekey e1)) as H1. pose proof (Hext (ekey e2)) as H2.
    rewrite !assoc_cons in H1, H2. rewrite decide_True in H1 by done.
    rewrite (decide_True (P := ekey e2 = ekey e2)) in H2 by done.
    destruct (decide (ekey e1 = ekey e2)) as [Hk|Hk].
    + rewrite decide_True in H1 by done. injection H1 as Hv.
      csimpl. rewrite Hk, Hv. f_equal. apply IH; [by eapply sorted_tail..|].
      intros k. specialize (Hext k). rewrite !assoc_cons in Hext.
      destruct (decide (ekey e1 = k)) as [<-|Hne].
      * rewrite (assoc_below _ _ _ Hs1), (assoc_below _ _ _ Hs2) by lia. done.
      * rewrite decide_False in Hext by congruence. done.
    + rewrite decide_False in H1 by congruence.
      destruct (decide (ekey e1 < ekey e2)).
      * rewrite (assoc_below _ _ _ Hs2) in H1 by lia. done.
      * rewrite (assoc_below _ _ _ Hs1) in H2 by lia. done.
Qed.

(** X14. The enumeration depends on the bindings only: two containers
    built by operation sequences that leave every key with the same
    binding list the same items, whatever the order of the operations, the
    draws of the random sources, [p] and [max_level] were. *)
Theorem items_ignore_draws_and_order (ml1 ml2 : Z) (pr1 pr2 : Q) (g1 g2 : Random)
    (ops1 ops2 : list op) (fuel : nat) :
  0 ≤ ml1 → 0 ≤ ml2 → enough fuel ml1 ops1 → enough fuel ml2 ops2 →
  (∀ k, stored ops1 k = stored ops2 k) →
  ∃ sl1 g1' sl2 g2' items,
    build fuel ml1 pr1 g1 ops1 = Ret (sl1, g1') ∧
    build fuel ml2 pr2 g2 ops2 = Ret (sl2, g2') ∧
    get_all_items fuel sl1 = Ret items ∧
    get_all_items fuel sl2 = Ret items.
Proof.
  intros Hml1 Hml2 Hen1 Hen2 Hsame.
  destruct (build_spec fuel ml1 pr1 g1 ops1 Hml1 Hen1)
    as (sl1 & g1' & es1 & Hb1 & HR1 & Hf1 & _ & _ & Has1).
  destruct (build_spec fuel ml2 pr2 g2 ops2 Hml2 Hen2)
    as (sl2 & g2' & es2 & Hb2 & HR2 & Hf2 & _ & _ & Has2).
  exists sl1, g1', sl2, g2', ((λ e, (Some (ekey e), evalue e)) <$> es1).
  split; [done|]. split; [done|]. split; [by apply get_all_items_spec|].
  rewrite (get_all_items_spec sl2 es2 fuel HR2 Hf2). f_equal. symmetry.
  apply sorted_assoc_ext; [apply HR1|apply HR2|].
  intros k. by rewrite Has1, Has2.
Qed.

Lemma items_ignore_draws_and_order_witness :
  ∃ sl1 g1' sl2 g2' items,
    build 12 4 (1 # 2) coin
      [Insert 1 (PyInt 10); Insert 2 (PyInt 20); Insert 3 (PyInt 30); Delete 3]
      = Ret (sl1, g1') ∧
    build 12 2 (1 # 3) {| draws := λ _, 0%Q; pos := 0 |}
      [Insert 2 (PyInt 20); Insert 1 (PyInt 10)] = Ret (sl2, g2') ∧
    get_all_items 12 sl1 = Ret items ∧
    get_all_items 12 sl2 = Ret items.
Proof.
  apply (items_ignore_draws_and_order 4 2 (1 # 2) (1 # 3) coin
           {| draws := λ _, 0%Q; pos := 0 |}
           [Insert 1 (PyInt 10); Insert 2 (PyInt 20); Insert 3 (PyInt 30); Delete 3]
           [Insert 2 (PyInt 20); Insert 1 (PyInt 10)] 12).
  - lia.
  - lia.
  - unfold enough. simpl. lia.
  - unfold enough. simpl. lia.
  - intros k. unfold stored. simpl.
    destruct (decide (1 = k)); destruct (decide (2 = k)); destruct (decide (3 = k));
      (reflexivity || lia).
Defined.

(** ** The towers of the compact visualization *)

Lemma sorted_key_inj es e e' :
  sorted es → e ∈ es → e' ∈ es → ekey e = ekey e' → e = e'.
Proof.
  intros Hs. induction Hs as [|x l Hs IH Hall]; intros He He' Hk.
  - by apply elem_of_nil in He.
  - rewrite Forall_forall in Hall.
    apply elem_of_cons in He as [->|He]; apply elem_of_cons in He' as [->|He'].
    + done.
    + apply Hall in He'. lia.
    + apply Hall in He. lia.
    + by apply IH.
Qed.

Lemma tower_scan_spec h i k : ∀ es fuel,
  Forall (node_ok h) es →
  path_from h i (eaddr <$> es) None →
  (length es < fuel)%nat →
  ∃ b, tower_scan fuel h (Z.of_nat i) (head (eaddr <$> es)) (Some k) = Ret b ∧
       (b = true ↔ ∃ e, e ∈ es ∧ ekey e = k).
Proof.
  induction es as [|e es IH]; intros fuel Hok Hp Hfuel.
  - destruct fuel as [|fuel]; [simpl in Hfuel; lia|]. exists false. split; [done|].
    split; [done|]. intros (e & He & _). by apply elem_of_nil in He.
  - destruct fuel as [|fuel]; [simpl in Hfuel; lia|].
    apply Forall_cons in Hok as [He Hok]. csimpl in Hp.
    apply path_unfold in Hp as [Hs Hp]. rewrite hd_or_None in Hs.
    destruct (deref_info _ _ _ _ _ He) as (nd & Hd & Hnd & Hkey & _).
    csimpl. rewrite Hd. cbn [bind]. rewrite Hkey.
    destruct (decide (ekey e = k)) as [Hk|Hk].
    + rewrite bool_decide_eq_true_2 by congruence. exists true. split; [done|].
      split; [|done]. intros _. exists e. split; [apply list_elem_of_here|done].
    + rewrite bool_decide_eq_false_2 by congruence.
      unfold slot in Hs. rewrite Hnd in Hs. rewrite (py_get_nat _ _ _ Hs). cbn [bind].
      destruct (IH fuel Hok Hp) as (b & Hb & Hiff); [simpl in Hfuel; lia|].
      exists b. split; [done|]. rewrite Hiff. split.
      * intros (e' & He' & Hk'). exists e'. split; [by apply list_elem_of_further|done].
      * intros (e' & He' & Hk'). apply elem_of_cons in He' as [->|He']; [done|].
        by exists e'.
Qed.

Section towers.
Context (sl : SkipList) (es : list entry) (fuel : nat).
Hypothesis HR : Rep sl es.
Hypothesis Hfuel : fuel_ok fuel sl.

Lemma tower_scan_level e i :
  e ∈ es → Z.of_nat i ≤ max_level sl →
  ∃ b, (let* temp := get_forward (heap sl) (header sl) (Z.of_nat i) in
        tower_scan fuel (heap sl) (Z.of_nat i) temp (Some (ekey e))) = Ret b ∧
       (b = true ↔ (i ≤ eht e)%nat).
Proof using HR Hfuel.
  intros He Hi. rewrite (header_forward_spec sl es i HR Hi). cbn [bind].
  pose proof (rep_links _ _ HR i Hi) as Hp. apply path_unfold in Hp as [_ Hp].
  destruct (tower_scan_spec (heap sl) i (ekey e) (at_level i es) fuel) as (b & Hb & Hiff).
  - apply Forall_at_level, HR.
  - exact Hp.
  - pose proof (length_at_level i es). pose proof (rep_size _ _ HR).
    unfold fuel_ok in Hfuel. lia.
  - exists b. split; [exact Hb|]. rewrite Hiff. unfold at_level. split.
    + intros (e' & He' & Hk). apply list_elem_of_filter in He' as [Hht He'].
      by rewrite (sorted_key_inj es e e' (rep_sorted _ _ HR) He He' (eq_sym Hk)).
    + intros Hle. exists e. split; [|done]. by apply list_elem_of_filter.
Qed.

Lemma tower_height_spec e : ∀ m s acc,
  e ∈ es → (Z.of_nat (s + m) ≤ max_level sl + 1) →
  tower_height fuel (heap sl) (header sl) (Z.of_nat <$> seq s m) (Some (ekey e)) acc
  = Ret (if decide ((s ≤ eht e)%nat ∧ (0 < m)%nat)
         then Z.of_nat (Nat.min (s + m - 1) (eht e)) else acc).
Proof using HR Hfuel.
  induction m as [|m IH]; intros s acc He Hm.
  - simpl. rewrite decide_False by lia. done.
  - csimpl. destruct (tower_scan_level e s He) as (b & Hb & Hiff); [lia|].
    destruct (get_forward (heap sl) (header sl) (Z.of_nat s)) as [temp| |];
      cbn [bind] in Hb |- *; [|done|done].
    rewrite Hb. cbn [bind]. rewrite IH by (done || lia).
    destruct (decide (s ≤ eht e)%nat) as [Hle|Hgt].
    + assert (b = true) as -> by (by apply Hiff).
      rewrite (decide_True (P := (s ≤ eht e)%nat ∧ (0 < S m)%nat)) by lia.
      destruct (decide ((S s ≤ eht e)%nat ∧ (0 < m)%nat)); f_equal; lia.
    + assert (b = false) as ->.
      { destruct b; [|done]. exfalso. apply Hgt. by apply Hiff. }
      rewrite !decide_False by lia. done.
Qed.

Lemma tower_info_spec : ∀ rest pre,
  es = pre ++ rest →
  path_from (heap sl) 0 (eaddr <$> rest) None →
  ∀ f, (length rest < f)%nat →
  tower_info f fuel sl (head (eaddr <$> rest))
  = Ret ((λ e, (Some (ekey e), evalue e, Z.of_nat (eht e))) <$> rest).
Proof using HR Hfuel.
  pose proof (rep_level _ _ HR) as Hlv.
  induction rest as [|e rest IH]; intros pre Hes Hp f Hf.
  - destruct f as [|f]; [simpl in Hf; lia|]. done.
  - destruct f as [|f]; [simpl in Hf; lia|].
    assert (He : e ∈ es).
    { rewrite Hes. apply elem_of_app. right. apply list_elem_of_here. }
    pose proof (rep_nodes _ _ HR) as Hok. rewrite Forall_forall in Hok.
    destruct (deref_info _ _ _ _ _ (Hok e He)) as (nd & Hd & Hnd & Hkey & Hval).
    csimpl in Hp. apply path_unfold in Hp as [Hs Hp]. rewrite hd_or_None in Hs.
    csimpl. rewrite Hd. cbn [bind]. rewrite Hkey.
    replace (level sl + 1) with (Z.of_nat (S (Z.to_nat (level sl)))) by lia.
    rewrite py_range_nat, (tower_height_spec e) by (done || lia).
    cbn [bind]. rewrite decide_True by lia.
    unfold slot in Hs. rewrite Hnd in Hs. change 0 with (Z.of_nat 0) at 1.
    rewrite (py_get_nat _ _ _ Hs). cbn [bind].
    rewrite (IH (pre ++ [e])); [|by rewrite <- app_assoc|done|simpl in Hf; lia].
    cbn [bind]. rewrite Hval. f_equal. f_equal. f_equal. f_equal.
    pose proof (rep_ht _ _ HR) as Hh. rewrite Forall_forall in Hh.
    specialize (Hh e He). lia.
Qed.

End towers.

Lemma compact_node_info_spec sl es fuel :
  Rep sl es → fuel_ok fuel sl →
  compact_node_info fuel sl =
  Ret (match es with
       | [] => None
       | _ => Some ((λ e, (Some (ekey e), evalue e, Z.of_nat (eht e))) <$> es)
       end).
Proof.
  intros HR Hfuel. pose proof (rep_level _ _ HR) as Hlv. unfold compact_node_info.
  change 0 with (Z.of_nat 0) at 1.
  rewrite (header_forward_spec sl es 0 HR) by lia. cbn [bind].
  pose proof (rep_links _ _ HR 0%nat ltac:(lia)) as Hp.
  apply path_unfold in Hp as [_ Hp]. rewrite addrs_at_0 in Hp |- *.
  assert (Hlen : (length es < fuel)%nat).
  { pose proof (rep_size _ _ HR). unfold fuel_ok in Hfuel. lia. }
  pose proof (tower_info_spec sl es fuel HR Hfuel es [] eq_refl Hp fuel Hlen) as Hti.
  destruct es as [|e rest]; [done|].
  csimpl in *. by rewrite Hti.
Qed.


(** X15. On a container built by inserts and deletes,
    [visualize_skip_list_compact] takes the empty-list exit exactly when
    the container has no item; otherwise the [node_info] it computes lists
    the items in key order, each with a tower height [h] such that the key
    is on the chain of level [i] exactly for [i <= h], and the tallest
    tower has the height of the top level. *)
Theorem compact_towers_match_levels (ml : Z) (pr : Q) (g : Random) (ops : list op)
    (fuel : nat) :
  0 ≤ ml → enough fuel ml ops →
  ∃ sl g' items,
    build fuel ml pr g ops = Ret (sl, g') ∧
    get_all_items fuel sl = Ret items ∧
    (items = [] → compact_node_info fuel sl = Ret None) ∧
    (items ≠ [] →
     ∃ info,
       compact_node_info fuel sl = Ret (Some info) ∧
       fst <$> info = items ∧
       Exists (λ t, t.2 = level sl) info ∧
       ∀ k v h, (Some k, v, h) ∈ info →
         0 ≤ h ≤ level sl ∧
         ∀ i, 0 ≤ i ≤ max_level sl →
           ∃ ks, level_keys fuel i sl = Ret ks ∧ (Some k ∈ ks ↔ i ≤ h)).
Proof.
  intros Hml Hen.
  destruct (build_spec fuel ml pr g ops Hml Hen) as (sl & g' & es & Hb & HR & Hf & _).
  exists sl, g', ((λ e, (Some (ekey e), evalue e)) <$> es).
  split; [done|]. split; [by apply get_all_items_spec|].
  rewrite (compact_node_info_spec sl es fuel HR Hf). split.
  - intros Hnil. apply fmap_nil_inv in Hnil. by rewrite Hnil.
  - intros Hne. exists ((λ e, (Some (ekey e), evalue e, Z.of_nat (eht e))) <$> es).
    split; [|split; [|split]].
    + destruct es; [done|done].
    + by rewrite <- list_fmap_compose.
    + apply Exists_fmap. simpl. destruct (rep_top _ _ HR) as [Hz|Hex]; [|done].
      destruct es as [|e rest]; [done|]. apply Exists_cons. left.
      pose proof (rep_ht _ _ HR) as Hh. apply Forall_cons in Hh as [Hh _].
      simpl in *. lia.
    + intros k v h Hin. apply list_elem_of_fmap in Hin as (e & [= -> -> ->] & He).
      pose proof (rep_ht _ _ HR) as Hh. rewrite Forall_forall in Hh.
      split; [specialize (Hh e He); lia|].
      intros i Hi. eexists. split.
      * replace i with (Z.of_nat (Z.to_nat i)) at 1 by lia.
        apply (level_keys_spec sl es fuel HR Hf). lia.
      * rewrite list_elem_of_fmap. unfold at_level. split.
        -- intros (e' & [= Hk] & He'). apply list_elem_of_filter in He' as [Hht He'].
           rewrite (sorted_key_inj es e e' (rep_sorted _ _ HR) He He' Hk). lia.
        -- intros Hle. exists e. split; [done|]. apply list_elem_of_filter.
           split; [lia|done].
Qed.

Lemma compact_towers_match_levels_witness :
  ∃ sl g' items,
    build 12 4 (1 # 2) coin
      [Insert 5 (PyInt 50); Insert 2 (PyInt 20); Insert 8 (PyInt 80); Insert 1 (PyInt 10)]
      = Ret (sl, g') ∧
    get_all_items 12 sl = Ret items ∧
    (items = [] → compact_node_info 12 sl = Ret None) ∧
    (items ≠ [] →
     ∃ info,
       compact_node_info 12 sl = Ret (Some info) ∧
       fst <$> info = items ∧
       Exists (λ t, t.2 = level sl) info ∧
       ∀ k v h, (Some k, v, h) ∈ info →
         0 ≤ h ≤ level sl ∧
         ∀ i, 0 ≤ i ≤ max_level sl →
           ∃ ks, level_keys 12 i sl = Ret ks ∧ (Some k ∈ ks ↔ i ≤ h)).
Proof.
  apply (compact_towers_match_levels 4 (1 # 2) coin
           [Insert 5 (PyInt 50); Insert 2 (PyInt 20); Insert 8 (PyInt 80);
            Insert 1 (PyInt 10)] 12).
  - lia.
  - unfold enough. simpl. lia.
Defined.

(** ** The node positions of the detailed visualization *)

Lemma base_index_lt x es e :
  ekey x < ekey e → base_index (x :: es) e = S (base_index es e).
Proof. intros Hlt. unfold base_index. by rewrite filter_cons_True. Qed.

Lemma base_index_ge x es e :
  ekey e ≤ ekey x → base_index (x :: es) e = base_index es e.
Proof. intros Hge. unfold base_index. rewrite filter_cons_False by lia. done. Qed.

Lemma base_index_zero es e :
  Forall (λ x, ekey e ≤ ekey x) es → base_index es e = 0%nat.
Proof.
  induction 1 as [|x l Hx Hall IH]; [done|]. by rewrite base_index_ge.
Qed.

Lemma base_index_first e es : sorted (e :: es) → base_index (e :: es) e = 0%nat.
Proof.
  intros Hs. apply StronglySorted_inv in Hs as [_ Hall].
  apply base_index_zero. apply Forall_cons. split; [lia|].
  eapply Forall_impl; [exact Hall|]. simpl. intros; lia.
Qed.

Lemma base_index_lookup es e : sorted es → e ∈ es → es !! base_index es e = Some e.
Proof.
  induction es as [|x es IH]; intros Hs He.
  - by apply elem_of_nil in He.
  - apply elem_of_cons in He as [->|He].
    + by rewrite base_index_first.
    + pose proof Hs as Hs'. apply StronglySorted_inv in Hs' as [Hs' Hall].
      rewrite Forall_forall in Hall. rewrite base_index_lt by (by apply Hall).
      simpl. by apply IH.
Qed.

Lemma base_index_le es e1 e2 :
  ekey e1 ≤ ekey e2 → (base_index es e1 ≤ base_index es e2)%nat.
Proof.
  intros Hle. induction es as [|x es IH]; [done|].
  destruct (decide (ekey x < ekey e1)) as [H1|H1].
  - rewrite !base_index_lt by lia. lia.
  - rewrite (base_index_ge x es e1) by lia.
    destruct (decide (ekey x < ekey e2)) as [H2|H2].
    + rewrite base_index_lt by lia. lia.
    + rewrite base_index_ge by lia. lia.
Qed.

Lemma base_index_mono es e1 e2 :
  e1 ∈ es → ekey e1 < ekey e2 → (base_index es e1 < base_index es e2)%nat.
Proof.
  intros He Hlt. induction es as [|x es IH].
  - by apply elem_of_nil in He.
  - apply elem_of_cons in He as [->|He].
    + rewrite base_index_ge, base_index_lt by lia.
      pose proof (base_index_le es x e2). lia.
    + specialize (IH He). destruct (decide (ekey x < ekey e1)) as [H1|H1].
      * rewrite !base_index_lt by lia. lia.
      * rewrite (base_index_ge x es e1) by lia.
        destruct (decide (ekey x < ekey e2)) as [H2|H2].
        -- rewrite base_index_lt by lia. lia.
        -- rewrite base_index_ge by lia. lia.
Qed.

Lemma base_position_index es : ∀ nds s e,
  sorted es → key <$> nds = (λ e, Some (ekey e)) <$> es → e ∈ es →
  base_position nds s (Some (ekey e)) = Some (s + Z.of_nat (base_index es e)).
Proof.
  induction es as [|x es IH]; intros nds s e Hs Hk He.
  - by apply elem_of_nil in He.
  - destruct nds as [|nd nds]; [done|]. csimpl in Hk. injection Hk as Hx Hk.
    pose proof Hs as Hs'. apply StronglySorted_inv in Hs' as [Hs' Hall].
    cbn [base_position]. rewrite Hx.
    destruct (decide (ekey x = ekey e)) as [Heq|Hne].
    + rewrite bool_decide_eq_true_2 by congruence.
      rewrite base_index_zero; [f_equal; lia|].
      apply Forall_cons. split; [lia|].
      eapply Forall_impl; [exact Hall|]. simpl. intros; lia.
    + rewrite bool_decide_eq_false_2 by congruence.
      apply elem_of_cons in He as [->|He]; [done|].
      rewrite Forall_forall in Hall. specialize (Hall e He).
      rewrite (IH nds (s + 1) e Hs' Hk He), base_index_lt by done.
      f_equal. lia.
Qed.

Lemma level_positions_spec h i nodes es : ∀ l fuel,
  sorted es → key <$> nodes = (λ e, Some (ekey e)) <$> es →
  Forall (λ e, e ∈ es) l →
  Forall (node_ok h) l →
  path_from h i (eaddr <$> l) None →
  (length l < fuel)%nat →
  ∃ row, level_positions fuel h nodes (Z.of_nat i) (head (eaddr <$> l)) = Ret row ∧
         Forall2 (placed es) row l.
Proof.
  induction l as [|e l IH]; intros fuel Hs Hk Hin Hok Hp Hfuel.
  - destruct fuel as [|fuel]; [simpl in Hfuel; lia|]. exists []. split; [done|constructor].
  - destruct fuel as [|fuel]; [simpl in Hfuel; lia|].
    apply Forall_cons in Hok as [He Hok]. apply Forall_cons in Hin as [Hine Hin].
    csimpl in Hp. apply path_unfold in Hp as [Hsl Hp]. rewrite hd_or_None in Hsl.
    destruct (deref_info _ _ _ _ _ He) as (nd & Hd & Hnd & Hkey & Hval).
    destruct (IH fuel Hs Hk Hin Hok Hp) as (row & Hrow & HF); [simpl in Hfuel; lia|].
    csimpl. rewrite Hd. cbn [bind]. rewrite Hkey.
    rewrite (base_position_index es nodes 0 e Hs Hk Hine).
    unfold slot in Hsl. rewrite Hnd in Hsl. rewrite (py_get_nat _ _ _ Hsl). cbn [bind].
    rewrite Hrow. cbn [bind]. eexists. split; [done|].
    constructor; [|done]. unfold placed. simpl. split; [lia|done].
Qed.

Lemma placed_keys es row l :
  Forall2 (placed es) row l →
  (λ r, key r.2) <$> row = (λ e, Some (ekey e)) <$> l.
Proof.
  induction 1 as [|r e row l (_ & Hk & _) _ IH]; [done|]. csimpl. by rewrite Hk, IH.
Qed.

Lemma placed_increasing es row l :
  Forall2 (placed es) row l → sorted l → Forall (λ e, e ∈ es) l →
  StronglySorted Z.lt (row.*1).
Proof.
  induction 1 as [|r e row l (Hpos & _ & _) HF IH]; intros Hs Hin; [constructor|].
  apply StronglySorted_inv in Hs as [Hs Hall]. apply Forall_cons in Hin as [Hine Hin].
  csimpl. constructor; [by apply IH|].
  apply Forall_fmap. eapply Forall2_Forall_l; [exact HF|].
  eapply Forall_impl; [exact Hall|]. simpl. intros e' Hlt r' (Hpos' & _ & _).
  rewrite Hpos, Hpos'. pose proof (base_index_mono es e e' Hine Hlt). lia.
Qed.

Lemma placed_lookup es row l pos nd :
  Forall2 (placed es) row l → sorted es → Forall (λ e, e ∈ es) l →
  (pos, nd) ∈ row →
  0 ≤ pos ∧
  ((λ e, (Some (ekey e), evalue e)) <$> es) !! Z.to_nat pos = Some (key nd, value nd).
Proof.
  intros HF Hs Hin Hel. apply list_elem_of_lookup in Hel as (j & Hj).
  destruct (Forall2_lookup_l _ _ _ _ _ HF Hj) as (e & He & Hpos & Hk & Hv).
  simpl in *. rewrite Forall_forall in Hin.
  assert (Hine : e ∈ es) by (apply Hin; eapply list_elem_of_lookup_2; exact He).
  split; [lia|]. rewrite Hpos, Nat2Z.id, list_lookup_fmap.
  rewrite (base_index_lookup es e Hs Hine). simpl. by rewrite Hk, Hv.
Qed.

Section positions.
Context (sl : SkipList) (es : list entry) (fuel : nat) (nodes : list SkipNode).
Hypothesis HR : Rep sl es.
Hypothesis Hfuel : fuel_ok fuel sl.
Hypothesis Hnodes : key <$> nodes = (λ e, Some (ekey e)) <$> es.

Lemma at_level_within i : Forall (λ e, e ∈ es) (at_level i es).
Proof.
  rewrite Forall_forall. intros e He. unfold at_level in He.
  by apply list_elem_of_filter in He as [_ ?].
Qed.

Lemma level_row_spec i :
  Z.of_nat i ≤ max_level sl →
  ∃ row,
    (let* current := get_forward (heap sl) (header sl) (Z.of_nat i) in
     level_positions fuel (heap sl) nodes (Z.of_nat i) current) = Ret row ∧
    Forall2 (placed es) row (at_level i es).
Proof using HR Hfuel Hnodes.
  intros Hi. rewrite (header_forward_spec sl es i HR Hi). cbn [bind].
  pose proof (rep_links _ _ HR i Hi) as Hp. apply path_unfold in Hp as [_ Hp].
  apply level_positions_spec.
  - apply HR.
  - exact Hnodes.
  - apply at_level_within.
  - apply Forall_at_level, HR.
  - exact Hp.
  - pose proof (length_at_level i es). pose proof (rep_size _ _ HR).
    unfold fuel_ok in Hfuel. lia.
Qed.

Lemma detailed_rows_spec : ∀ n,
  Z.of_nat n ≤ max_level sl →
  ∃ rows,
    detailed_rows fuel (heap sl) (header sl) nodes (py_range_down (Z.of_nat n) (-1))
    = Ret rows ∧
    rows.*1 = py_range_down (Z.of_nat n) (-1) ∧
    Forall (λ rw, ∃ i, rw.1 = Z.of_nat i ∧ Z.of_nat i ≤ max_level sl ∧
                       Forall2 (placed es) rw.2 (at_level i es)) rows.
Proof using HR Hfuel Hnodes.
  induction n as [|n IH]; intros Hn.
  - change (Z.of_nat 0) with 0. rewrite py_range_down_0.
    destruct (level_row_spec 0 Hn) as (row & Hrow & HF).
    change (Z.of_nat 0) with 0 in Hrow. cbn [detailed_rows].
    destruct (get_forward (heap sl) (header sl) 0) as [c| |];
      cbn [bind] in Hrow |- *; [|done|done].
    rewrite Hrow. cbn [bind]. eexists. split; [done|]. split; [done|].
    apply Forall_cons. split; [|constructor]. exists 0%nat. done.
  - rewrite py_range_down_S.
    destruct (level_row_spec (S n) Hn) as (row & Hrow & HF).
    destruct IH as (rows & Hrows & Hlv & Hall); [lia|].
    cbn [detailed_rows].
    destruct (get_forward (heap sl) (header sl) (Z.of_nat (S n))) as [c| |];
      cbn [bind] in Hrow |- *; [|done|done].
    rewrite Hrow. cbn [bind]. rewrite Hrows. cbn [bind].
    eexists. split; [done|]. split; [csimpl; by rewrite Hlv|].
    apply Forall_cons. split; [|done]. exists (S n). done.
Qed.

End positions.

Lemma detailed_node_positions_spec sl es fuel :
  Rep sl es → fuel_ok fuel sl →
  match es with
  | [] => detailed_node_positions fuel sl = Ret None
  | _ :: _ =>
      ∃ rows,
        detailed_node_positions fuel sl = Ret (Some rows) ∧
        rows.*1 = py_range_down (level sl) (-1) ∧
        Forall (λ rw, ∃ i, rw.1 = Z.of_nat i ∧ Z.of_nat i ≤ max_level sl ∧
                           Forall2 (placed es) rw.2 (at_level i es)) rows
  end.
Proof.
  intros HR Hfuel. pose proof (rep_level _ _ HR) as Hlv.
  unfold detailed_node_positions.
  destruct (Z.eqb_spec (level sl) (-1)) as [Hm|_]; [lia|].
  destruct (walk_level sl es fuel HR Hfuel 0) as (nds & Hw & Hnds); [lia|].
  change (Z.of_nat 0) with 0 in Hw.
  pose proof (header_forward_spec sl es 0 HR ltac:(lia)) as Hh.
  change (Z.of_nat 0) with 0 in Hh. rewrite Hh in Hw |- *. cbn [bind] in Hw |- *.
  rewrite addrs_at_0 in Hw |- *. rewrite at_level_0 in Hnds.
  destruct es as [|e rest]; [done|].
  csimpl in Hw. csimpl. rewrite Hw. cbn [bind].
  destruct nds as [|nd nds]; [done|].
  assert (Hk : key <$> (nd :: nds) = (λ e, Some (ekey e)) <$> (e :: rest)).
  { apply (f_equal (fmap fst)) in Hnds. rewrite <- !list_fmap_compose in Hnds.
    exact Hnds. }
  destruct (detailed_rows_spec sl (e :: rest) fuel (nd :: nds) HR Hfuel Hk
              (Z.to_nat (level sl))) as (rows & Hrows & Hl & Hall); [lia|].
  rewrite Z2Nat.id in Hrows, Hl by lia.
  rewrite Hrows. cbn [bind]. by exists rows.
Qed.

(** X16. On a container built by inserts and deletes,
    [visualize_skip_list_detailed] takes an empty-list exit exactly when the
    container has no item.  Otherwise it draws the levels from the top one
    down to 0, and the [node_positions] of a level hold the nodes on the
    chain of that level, none left out, each with the index its item has in
    [get_all_items]; the positions strictly increase along the level, so
    the spacing [(pos - prev_pos - 1) * 8] is never negative. *)
Theorem detailed_positions_follow_items (ml : Z) (pr : Q) (g : Random) (ops : list op)
    (fuel : nat) :
  0 ≤ ml → enough fuel ml ops →
  ∃ sl g' items,
    build fuel ml pr g ops = Ret (sl, g') ∧
    get_all_items fuel sl = Ret items ∧
    (items = [] → detailed_node_positions fuel sl = Ret None) ∧
    (items ≠ [] →
     ∃ rows,
       detailed_node_positions fuel sl = Ret (Some rows) ∧
       rows.*1 = py_range_down (level sl) (-1) ∧
       ∀ lvl row, (lvl, row) ∈ rows →
         level_keys fuel lvl sl = Ret ((λ r, key r.2) <$> row) ∧
         StronglySorted Z.lt (row.*1) ∧
         ∀ pos nd, (pos, nd) ∈ row →
           0 ≤ pos ∧ items !! Z.to_nat pos = Some (key nd, value nd)).
Proof.
  intros Hml Hen.
  destruct (build_spec fuel ml pr g ops Hml Hen) as (sl & g' & es & Hb & HR & Hf & _).
  exists sl, g', ((λ e, (Some (ekey e), evalue e)) <$> es).
  split; [done|]. split; [by apply get_all_items_spec|].
  pose proof (detailed_node_positions_spec sl es fuel HR Hf) as Hd. split.
  - intros Hnil. apply fmap_nil_inv in Hnil. by rewrite Hnil in Hd.
  - intros Hne. destruct es as [|e rest]; [done|].
    destruct Hd as (rows & Hd & Hl & Hall). exists rows.
    split; [done|]. split; [done|].
    intros lvl row Hin. rewrite Forall_forall in Hall.
    destruct (Hall _ Hin) as (i & Hi & Hmax & HF). simpl in Hi, HF. subst lvl.
    split; [|split].
    + rewrite (placed_keys _ _ _ HF). by apply level_keys_spec.
    + apply (placed_increasing _ _ _ HF).
      * apply sorted_at_level, HR.
      * apply at_level_within.
    + intros pos nd Hel. apply (placed_lookup _ _ _ pos nd HF).
      * apply HR.
      * apply at_level_within.
      * done.
Qed.

Lemma detailed_positions_follow_items_witness :
  ∃ sl g' items,
    build 12 4 (1 # 2) coin
      [Insert 5 (PyInt 50); Insert 2 (PyInt 20); Insert 8 (PyInt 80); Delete 2]
      = Ret (sl, g') ∧
    get_all_items 12 sl = Ret items ∧
    (items = [] → detailed_node_positions 12 sl = Ret None) ∧
    (items ≠ [] →
     ∃ rows,
       detailed_node_positions 12 sl = Ret (Some rows) ∧
       rows.*1 = py_range_down (level sl) (-1) ∧
       ∀ lvl row, (lvl, row) ∈ rows →
         level_keys 12 lvl sl = Ret ((λ r, key r.2) <$> row) ∧
         StronglySorted Z.lt (row.*1) ∧
         ∀ pos nd, (pos, nd) ∈ row →
           0 ≤ pos ∧ items !! Z.to_nat pos = Some (key nd, value nd)).
Proof.
  apply (detailed_positions_follow_items 4 (1 # 2) coin
           [Insert 5 (PyInt 50); Insert 2 (PyInt 20); Insert 8 (PyInt 80); Delete 2] 12).
  - lia.
  - unfold enough. simpl. lia.
Defined.

(** ** A negative [max_level] *)

Lemma negative_max_level_header ml :
  ml < 0 → get_forward [SkipNode_init None PyNone ml] 0%nat 0 = Raise IndexError.
Proof.
  intros Hml. unfold get_forward, deref. simpl. unfold py_repeat.
  replace (Z.to_nat (ml + 1)) with 0%nat by lia. reflexivity.
Qed.

(** X17. A container constructed with a negative [max_level] (down to
    [-2^16]) has a header without forward slot, and every operation on it
    raises [IndexError] at its first [forward[0]]: [search], [insert],
    [delete], [get_all_items], [__len__] and [__contains__]. *)
Theorem negative_max_level_raises (ml : Z) (pr : Q) :
  - 2 ^ 16 ≤ ml < 0 →
  ∃ sl, SkipList_init ml pr = Ret sl ∧
    ∀ fuel k v g,
      search (S fuel) k sl = Raise IndexError ∧
      insert (S fuel) k v g sl = Raise IndexError ∧
      delete (S fuel) k sl = Raise IndexError ∧
      get_all_items fuel sl = Raise IndexError ∧
      len fuel sl = Raise IndexError ∧
      contains (S fuel) k sl = Raise IndexError.
Proof.
  intros [_ Hml]. eexists. split; [reflexivity|]. intros fuel k v g.
  unfold contains, search, insert, delete, get_all_items, len.
  cbn [level heap header max_level].
  rewrite py_range_down_0. cbn [search_descent find_path advance bind].
  rewrite (negative_max_level_header ml Hml). done.
Qed.

Lemma negative_max_level_raises_witness :
  ∃ sl, SkipList_init (-1) (1 # 2) = Ret sl ∧
    search 8 3 sl = Raise IndexError ∧
    insert 8 3 (PyInt 30) coin sl = Raise IndexError ∧
    delete 8 3 sl = Raise IndexError ∧
    get_all_items 7 sl = Raise IndexError ∧
    len 7 sl = Raise IndexError ∧
    contains 8 3 sl = Raise IndexError.
Proof.
  destruct (negative_max_level_raises (-1) (1 # 2) ltac:(lia)) as (sl & Hi & H).
  exists sl. split; [exact Hi|]. exact (H 7%nat 3 (PyInt 30) coin).
Defined.
